(** * rgbfix: the header fix-up engine of RGBDS ([src/fix/main.c])

    A shallow embedding of the MBC specification parser ([parseMBC],
    [mbcName]), of the error counter ([report], [processFilename]) and of the
    per-image pipeline ([processFile]) together with the properties of the
    written specification that concern them.

    Conventions of the embedding:
    - C integers are [Z] with the wrap-around of their type written out
      ([mod 256] for [uint8_t], [mod 65536] for [uint16_t], ...);
    - a C string is the [string] of its characters before the terminator;
      reading at the end of the string yields the NUL character ([deref]);
    - a byte buffer is a [list Z], updated in place with stdpp's list insert;
    - file descriptors are explicit state, see [Handles] below. *)

From Stdlib Require Import ZArith String Ascii Bool Lia.
From stdpp Require Import base option list.

Local Open Scope Z_scope.

(** ** The cartridge types: [enum MbcType] *)

Definition UNSPECIFIED : Z := 0x100.
Definition BANK_SIZE : Z := 0x4000.

Definition ROM : Z := 0x00.
Definition ROM_RAM : Z := 0x08.
Definition ROM_RAM_BATTERY : Z := 0x09.
Definition MBC1 : Z := 0x01.
Definition MBC1_RAM : Z := 0x02.
Definition MBC1_RAM_BATTERY : Z := 0x03.
Definition MBC2 : Z := 0x05.
Definition MBC2_BATTERY : Z := 0x06.
Definition MMM01 : Z := 0x0B.
Definition MMM01_RAM : Z := 0x0C.
Definition MMM01_RAM_BATTERY : Z := 0x0D.
Definition MBC3 : Z := 0x11.
Definition MBC3_TIMER_BATTERY : Z := 0x0F.
Definition MBC3_TIMER_RAM_BATTERY : Z := 0x10.
Definition MBC3_RAM : Z := 0x12.
Definition MBC3_RAM_BATTERY : Z := 0x13.
Definition MBC5 : Z := 0x19.
Definition MBC5_RAM : Z := 0x1A.
Definition MBC5_RAM_BATTERY : Z := 0x1B.
Definition MBC5_RUMBLE : Z := 0x1C.
Definition MBC5_RUMBLE_RAM : Z := 0x1D.
Definition MBC5_RUMBLE_RAM_BATTERY : Z := 0x1E.
Definition MBC6 : Z := 0x20.
Definition MBC7_SENSOR_RUMBLE_RAM_BATTERY : Z := 0x22.
Definition POCKET_CAMERA : Z := 0xFC.
Definition BANDAI_TAMA5 : Z := 0xFD.
Definition HUC3 : Z := 0xFE.
Definition HUC1_RAM_BATTERY : Z := 0xFF.
(* Error values *)
Definition MBC_NONE : Z := UNSPECIFIED.
Definition MBC_BAD : Z := 0x101.
Definition MBC_WRONG_FEATURES : Z := 0x102.
Definition MBC_BAD_RANGE : Z := 0x103.

(* The "additional features" bits of parseMBC *)
Definition RAM : Z := 0x80.
Definition BATTERY : Z := 0x40.
Definition TIMER : Z := 0x20.
Definition RUMBLE : Z := 0x10.
Definition SENSOR : Z := 0x08.

(** ** C strings *)

(** [*ptr]: the character under the pointer, NUL at the terminator. *)
Definition deref (ptr : string) : ascii :=
  match ptr with
  | EmptyString => zero
  | String c _ => c
  end.

(** [ptr + 1].  The parser never reads again after stepping over the
    terminator: every such step is followed by a [return]. *)
Definition advance (ptr : string) : string :=
  match ptr with
  | EmptyString => EmptyString
  | String _ ptr' => ptr'
  end.

Definition isBlank (c : ascii) : bool :=
  ((c =? " ") || (c =? "009"))%char.

Definition isBlankOrUnderscore (c : ascii) : bool :=
  ((c =? " ") || (c =? "009") || (c =? "_"))%char.

(** [while ( *ptr == ' ' || *ptr == '\t') ptr++;] *)
Fixpoint skipBlank (ptr : string) : string :=
  match ptr with
  | EmptyString => ptr
  | String c ptr' => if isBlank c then skipBlank ptr' else ptr
  end.

(** [while ( *ptr == ' ' || *ptr == '\t' || *ptr == '_') ptr++;] *)
Fixpoint skipBlankUs (ptr : string) : string :=
  match ptr with
  | EmptyString => ptr
  | String c ptr' => if isBlankOrUnderscore c then skipBlankUs ptr' else ptr
  end.

(** The character normalisation inside [readMBCSlice]: lower-case letters
    are turned into upper case, the underscore into a space. *)
Definition sliceChar (c : ascii) : ascii :=
  if (("a" <=? c) && (c <=? "z"))%char
  then ascii_of_N (N_of_ascii c - N_of_ascii "a" + N_of_ascii "A")
  else if (c =? "_")%char then " "%char
  else c.

(** [readMBCSlice(&name, expected)]: [None] is the C [false]; [Some name']
    is [true] with the pointer moved past the slice. *)
Fixpoint readMBCSlice (name expected : string) : option string :=
  match expected with
  | EmptyString => Some name
  | String e expected' =>
    let c := deref name in
    let name := advance name in
    if (c =? zero)%char then None (* Name too short *)
    else if negb (sliceChar c =? e)%char then None
    else readMBCSlice name expected'
  end.

(** ** [strtoul(name, &endptr, 0)]

    The C library's [strtoul] (ISO C 7.22.1.4) with base 0, for a subject
    that starts with a digit, which is the only way [parseMBC] calls it:
    a [0x]/[0X] prefix followed by a hexadecimal digit selects base 16, a
    leading [0] base 8, anything else base 10; the longest run of digits of
    that base is consumed, and a value that does not fit [unsigned long]
    (64 bits) comes back as [ULONG_MAX]. *)

Definition ULONG_MAX : Z := 2 ^ 64 - 1.

Definition digitValue (c : ascii) : option Z :=
  let n := Z.of_N (N_of_ascii c) in
  if (("0" <=? c) && (c <=? "9"))%char then Some (n - 48)
  else if (("a" <=? c) && (c <=? "z"))%char then Some (n - 97 + 10)
  else if (("A" <=? c) && (c <=? "Z"))%char then Some (n - 65 + 10)
  else None.

Definition isDigitOf (base : Z) (c : ascii) : bool :=
  match digitValue c with
  | Some d => d <? base
  | None => false
  end.

Fixpoint scanDigits (base : Z) (ptr : string) (acc : Z) : Z * string :=
  match ptr with
  | EmptyString => (acc, ptr)
  | String c ptr' =>
    match digitValue c with
    | Some d =>
      if d <? base then scanDigits base ptr' (Z.min (acc * base + d) ULONG_MAX)
      else (acc, ptr)
    | None => (acc, ptr)
    end
  end.

Definition strtoul0 (name : string) : Z * string :=
  if (deref name =? "0")%char then
    let x := deref (advance name) in
    if ((x =? "x") || (x =? "X"))%char && isDigitOf 16 (deref (advance (advance name)))
    then scanDigits 16 (advance (advance name)) 0
    else scanDigits 8 name 0
  else scanDigits 10 name 0.

(** ** [parseMBC] *)

(** The first [switch] of the symbolic branch: the MBC type proper.
    [None] stands for [return MBC_BAD]. *)
Definition readType (ptr : string) : option (Z * string) :=
  let c := deref ptr in
  let ptr := advance ptr in
  if ((c =? "R") || (c =? "r"))%char then (* ROM / ROM_ONLY *)
    ptr ← readMBCSlice ptr "OM";
    (* Handle optional " ONLY" *)
    let ptr := skipBlankUs ptr in
    if ((deref ptr =? "O") || (deref ptr =? "o"))%char then
      ptr ← readMBCSlice (advance ptr) "NLY";
      Some (ROM, ptr)
    else Some (ROM, ptr)
  else if ((c =? "M") || (c =? "m"))%char then (* MBC{1, 2, 3, 5, 6, 7} / MMM01 *)
    let c := deref ptr in
    let ptr := advance ptr in
    if ((c =? "B") || (c =? "b"))%char then
      let c := deref ptr in
      let ptr := advance ptr in
      if ((c =? "C") || (c =? "c"))%char then
        let c := deref ptr in
        let ptr := advance ptr in
        if (c =? "1")%char then Some (MBC1, ptr)
        else if (c =? "2")%char then Some (MBC2, ptr)
        else if (c =? "3")%char then Some (MBC3, ptr)
        else if (c =? "5")%char then Some (MBC5, ptr)
        else if (c =? "6")%char then Some (MBC6, ptr)
        else if (c =? "7")%char then Some (MBC7_SENSOR_RUMBLE_RAM_BATTERY, ptr)
        else None
      else None
    else if ((c =? "M") || (c =? "m"))%char then
      ptr ← readMBCSlice ptr "M01";
      Some (MMM01, ptr)
    else None
  else if ((c =? "P") || (c =? "p"))%char then (* POCKET_CAMERA *)
    ptr ← readMBCSlice ptr "OCKET CAMERA";
    Some (POCKET_CAMERA, ptr)
  else if ((c =? "B") || (c =? "b"))%char then (* BANDAI_TAMA5 *)
    ptr ← readMBCSlice ptr "ANDAI TAMA5";
    Some (BANDAI_TAMA5, ptr)
  else if ((c =? "T") || (c =? "t"))%char then (* TAMA5 *)
    ptr ← readMBCSlice ptr "AMA5";
    Some (BANDAI_TAMA5, ptr)
  else if ((c =? "H") || (c =? "h"))%char then (* HuC{1, 3} *)
    ptr ← readMBCSlice ptr "UC";
    let c := deref ptr in
    let ptr := advance ptr in
    if (c =? "1")%char then Some (HUC1_RAM_BATTERY, ptr)
    else if (c =? "3")%char then Some (HUC3, ptr)
    else None
  else None.

(** The [switch] inside the feature loop: one feature name.  [None] stands
    for [return MBC_BAD]; otherwise the feature's bit and the new pointer. *)
Definition readFeature (ptr : string) : option (Z * string) :=
  let c := deref ptr in
  let ptr := advance ptr in
  if ((c =? "B") || (c =? "b"))%char then (* BATTERY *)
    ptr ← readMBCSlice ptr "ATTERY";
    Some (BATTERY, ptr)
  else if ((c =? "R") || (c =? "r"))%char then (* RAM or RUMBLE *)
    let c := deref ptr in
    let ptr := advance ptr in
    if ((c =? "U") || (c =? "u"))%char then
      ptr ← readMBCSlice ptr "MBLE";
      Some (RUMBLE, ptr)
    else if ((c =? "A") || (c =? "a"))%char then
      if negb (deref ptr =? "M")%char && negb (deref ptr =? "m")%char then None
      else Some (RAM, advance ptr)
    else None
  else if ((c =? "S") || (c =? "s"))%char then (* SENSOR *)
    ptr ← readMBCSlice ptr "ENSOR";
    Some (SENSOR, ptr)
  else if ((c =? "T") || (c =? "t"))%char then (* TIMER *)
    ptr ← readMBCSlice ptr "IMER";
    Some (TIMER, ptr)
  else None.

(** The result of the feature loop. *)
Inductive FeatureScan : Type :=
  | ScanDone (features : Z) (ptr : string) (* [break]: the end of the string *)
  | ScanBad                                (* [return MBC_BAD] *)
  | ScanFuel.                              (* the model ran out of fuel *)

(** The [for (;;)] loop reading the "additional features".  Every turn
    either leaves the loop or moves past a ['+'], so that one unit of fuel for
    each character of the string, and one more, is enough
    ([readFeatures_fuel]). *)
Fixpoint readFeatures (fuel : nat) (ptr : string) (features : Z) : FeatureScan :=
  match fuel with
  | O => ScanFuel
  | S fuel =>
    (* Trim off trailing whitespace *)
    let ptr := skipBlankUs ptr in
    (* If done, start processing "features" *)
    if (deref ptr =? zero)%char then ScanDone features ptr
    (* We expect a '+' at this point *)
    else if negb (deref ptr =? "+")%char then ScanBad
    else
      (* Trim off leading whitespace *)
      let ptr := skipBlankUs (advance ptr) in
      match readFeature ptr with
      | None => ScanBad
      | Some (bit, ptr) => readFeatures fuel ptr (Z.lor features bit mod 256)
      end
  end.

(** The [switch (mbc)] that checks the features against the type.  [None]
    stands for [return MBC_WRONG_FEATURES]; otherwise the final value of
    [mbc]. *)
Definition ramBattery (mbc features : Z) : option Z :=
  if features =? RAM then Some ((mbc + 1) mod 65536)
  else if features =? Z.lor RAM BATTERY then Some ((mbc + 2) mod 65536)
  else if negb (features =? 0) then None
  else Some mbc.

Definition checkFeatures (mbc features : Z) : option Z :=
  if mbc =? ROM then
    if features =? 0 then Some mbc
    else ramBattery (ROM_RAM - 1) features (* fallthrough *)
  else if (mbc =? MBC1) || (mbc =? MMM01) then
    ramBattery mbc features
  else if mbc =? MBC2 then
    if features =? BATTERY then Some MBC2_BATTERY
    else if negb (features =? 0) then None
    else Some mbc
  else if mbc =? MBC3 then
    (* Handle timer, which also requires battery *)
    if negb (Z.land features (Z.land TIMER BATTERY) =? 0) then
      ramBattery MBC3_TIMER_BATTERY
                 (Z.land features (Z.lnot (Z.lor TIMER BATTERY)) mod 256)
    else ramBattery mbc features
  else if mbc =? MBC5 then
    if negb (Z.land features RUMBLE =? 0) then
      ramBattery MBC5_RUMBLE (Z.land features (Z.lnot RUMBLE) mod 256)
    else ramBattery mbc features
  else if (mbc =? MBC6) || (mbc =? POCKET_CAMERA) || (mbc =? BANDAI_TAMA5)
          || (mbc =? HUC3) then
    (* No extra features accepted *)
    if negb (features =? 0) then None else Some mbc
  else if mbc =? MBC7_SENSOR_RUMBLE_RAM_BATTERY then
    if negb (features =? Z.lor (Z.lor (Z.lor SENSOR RUMBLE) RAM) BATTERY)
    then None else Some mbc
  else if mbc =? HUC1_RAM_BATTERY then
    if negb (features =? Z.lor RAM BATTERY) (* HuC1 expects RAM+BATTERY *)
    then None else Some mbc
  else Some mbc.

(** The symbolic branch of [parseMBC] from the MBC type on, with the fuel of
    its feature loop. *)
Definition parseTypeAndFeatures (fuel : nat) (ptr : string) : option Z :=
  match readType ptr with
  | None => Some MBC_BAD
  | Some (mbc, ptr) =>
    match readFeatures fuel ptr 0 with
    | ScanFuel => None
    | ScanBad => Some MBC_BAD
    | ScanDone features ptr =>
      match checkFeatures mbc features with
      | None => Some MBC_WRONG_FEATURES
      | Some mbc =>
        (* Trim off trailing whitespace *)
        let ptr := skipBlank ptr in
        (* If there is still something past the whitespace, error out *)
        if negb (deref ptr =? zero)%char then Some MBC_BAD
        else Some mbc
      end
    end
  end.

(** The symbolic branch of [parseMBC]. *)
Definition parseSymbolic (fuel : nat) (name : string) : option Z :=
  (* Trim off leading whitespace *)
  parseTypeAndFeatures fuel (skipBlank name).

(** [parseMBC(name)].  The result is [None] only if the feature loop ran
    out of fuel, which does not happen ([parseMBC_total]). *)
Definition isNumeric (name : string) : bool :=
  (("0" <=? deref name) && (deref name <=? "9"))%char.

Definition parseMBC (name : string) : option Z :=
  if isNumeric name then
    (* Parse number, and return it as-is (unless it's too large) *)
    let '(mbc, endptr) := strtoul0 name in
    if negb (deref endptr =? zero)%char then Some MBC_BAD
    else if mbc >? 0xFF then Some MBC_BAD_RANGE
    else Some mbc
  else parseSymbolic (S (String.length name)) name.

(** [mbcName(type)]; [None] where the C function is [unreachable_()]. *)
Definition mbcName (type : Z) : option string :=
  if type =? ROM then Some "ROM"%string
  else if type =? ROM_RAM then Some "ROM+RAM"%string
  else if type =? ROM_RAM_BATTERY then Some "ROM+RAM+BATTERY"%string
  else if type =? MBC1 then Some "MBC1"%string
  else if type =? MBC1_RAM then Some "MBC1+RAM"%string
  else if type =? MBC1_RAM_BATTERY then Some "MBC1+RAM+BATTERY"%string
  else if type =? MBC2 then Some "MBC2"%string
  else if type =? MBC2_BATTERY then Some "MBC2+BATTERY"%string
  else if type =? MMM01 then Some "MMM01"%string
  else if type =? MMM01_RAM then Some "MMM01+RAM"%string
  else if type =? MMM01_RAM_BATTERY then Some "MMM01+RAM+BATTERY"%string
  else if type =? MBC3 then Some "MBC3"%string
  else if type =? MBC3_TIMER_BATTERY then Some "MBC3+TIMER+BATTERY"%string
  else if type =? MBC3_TIMER_RAM_BATTERY then Some "MBC3+TIMER+RAM+BATTERY"%string
  else if type =? MBC3_RAM then Some "MBC3+RAM"%string
  else if type =? MBC3_RAM_BATTERY then Some "MBC3+RAM+BATTERY"%string
  else if type =? MBC5 then Some "MBC5"%string
  else if type =? MBC5_RAM then Some "MBC5+RAM"%string
  else if type =? MBC5_RAM_BATTERY then Some "MBC5+RAM+BATTERY"%string
  else if type =? MBC5_RUMBLE then Some "MBC5+RUMBLE"%string
  else if type =? MBC5_RUMBLE_RAM then Some "MBC5+RUMBLE+RAM"%string
  else if type =? MBC5_RUMBLE_RAM_BATTERY then Some "MBC5+RUMBLE+RAM+BATTERY"%string
  else if type =? MBC6 then Some "MBC6"%string
  else if type =? MBC7_SENSOR_RUMBLE_RAM_BATTERY
       then Some "MBC7+SENSOR+RUMBLE+RAM+BATTERY"%string
  else if type =? POCKET_CAMERA then Some "POCKET CAMERA"%string
  else if type =? BANDAI_TAMA5 then Some "BANDAI TAMA5"%string
  else if type =? HUC3 then Some "HUC3"%string
  else if type =? HUC1_RAM_BATTERY then Some "HUC1+RAM+BATTERY"%string
  else None.

(** ** The parser always returns *)

Lemma length_advance ptr :
  (String.length (advance ptr) <= String.length ptr)%nat.
Proof. destruct ptr; simpl; lia. Qed.

Lemma length_advance_lt ptr :
  deref ptr ≠ zero →
  (String.length (advance ptr) < String.length ptr)%nat.
Proof. destruct ptr; simpl; [congruence | lia]. Qed.

Lemma length_skipBlank ptr :
  (String.length (skipBlank ptr) <= String.length ptr)%nat.
Proof.
  induction ptr as [|c ptr IH]; simpl; [lia|].
  destruct (isBlank c); simpl; lia.
Qed.

Lemma length_skipBlankUs ptr :
  (String.length (skipBlankUs ptr) <= String.length ptr)%nat.
Proof.
  induction ptr as [|c ptr IH]; simpl; [lia|].
  destruct (isBlankOrUnderscore c); simpl; lia.
Qed.

Lemma length_readMBCSlice expected : ∀ name name',
  readMBCSlice name expected = Some name' →
  (String.length name' <= String.length name)%nat.
Proof.
  induction expected as [|e expected IH]; simpl; intros name name' H.
  - injection H as <-. lia.
  - destruct (deref name =? zero)%char; [discriminate|].
    destruct (sliceChar (deref name) =? e)%char; simpl in H; [|discriminate].
    apply IH in H. pose proof (length_advance name). lia.
Qed.

Ltac length_steps :=
  repeat match goal with
  | H : readMBCSlice _ _ = Some _ |- _ => apply length_readMBCSlice in H
  | |- context [String.length (advance ?p)] =>
      lazymatch goal with
      | _ : (String.length (advance p) <= _)%nat |- _ => fail
      | _ => pose proof (length_advance p)
      end
  | |- context [String.length (skipBlankUs ?p)] =>
      lazymatch goal with
      | _ : (String.length (skipBlankUs p) <= _)%nat |- _ => fail
      | _ => pose proof (length_skipBlankUs p)
      end
  | H : context [String.length (advance ?p)] |- _ =>
      lazymatch goal with
      | _ : (String.length (advance p) <= _)%nat |- _ => fail
      | _ => pose proof (length_advance p)
      end
  | H : context [String.length (skipBlankUs ?p)] |- _ =>
      lazymatch goal with
      | _ : (String.length (skipBlankUs p) <= _)%nat |- _ => fail
      | _ => pose proof (length_skipBlankUs p)
      end
  end.

(** Case analysis on a run of the parser recorded in hypothesis [H]. *)
Ltac case_parse H :=
  cbv beta zeta in H;
  repeat (lazymatch type of H with
    | None = Some _ => discriminate H
    | (if ?b then _ else _) = _ => destruct b eqn:?
    | mbind _ ?m = _ => destruct m eqn:?; cbn [mbind option_bind] in H
    end);
  try (injection H as ? ?; subst).

Lemma length_readType ptr mbc ptr' :
  readType ptr = Some (mbc, ptr') →
  (String.length ptr' <= String.length ptr)%nat.
Proof.
  unfold readType. intros H. case_parse H; length_steps; lia.
Qed.

Lemma length_readFeature ptr bit ptr' :
  readFeature ptr = Some (bit, ptr') →
  (String.length ptr' <= String.length ptr)%nat.
Proof.
  unfold readFeature. intros H. case_parse H; length_steps; lia.
Qed.

(** One unit of fuel for each character, and one more, is enough for the
    feature loop. *)
Lemma readFeatures_fuel fuel : ∀ ptr features,
  (String.length ptr < fuel)%nat →
  readFeatures fuel ptr features ≠ ScanFuel.
Proof.
  induction fuel as [|fuel IH]; intros ptr features Hlen; [lia|].
  simpl.
  destruct (deref (skipBlankUs ptr) =? zero)%char eqn:Hend; [discriminate|].
  destruct (deref (skipBlankUs ptr) =? "+")%char; simpl; [|discriminate].
  destruct (readFeature _) as [[bit ptr']|] eqn:Hf; [|discriminate].
  apply IH. apply length_readFeature in Hf.
  apply Ascii.eqb_neq in Hend. apply length_advance_lt in Hend.
  length_steps. lia.
Qed.

Lemma parseTypeAndFeatures_total fuel ptr :
  (String.length ptr < fuel)%nat →
  is_Some (parseTypeAndFeatures fuel ptr).
Proof.
  intros Hlen. unfold parseTypeAndFeatures.
  destruct (readType ptr) as [[mbc ptr']|] eqn:Ht; [|by eexists].
  apply length_readType in Ht.
  pose proof (readFeatures_fuel fuel ptr' 0 ltac:(lia)) as Hfuel.
  destruct (readFeatures fuel ptr' 0); [|by eexists|done].
  destruct (checkFeatures mbc features); [|by eexists].
  destruct (negb _); by eexists.
Qed.

(** [parseMBC] returns a value on every string. *)
Lemma parseMBC_total name : is_Some (parseMBC name).
Proof.
  unfold parseMBC. destruct (isNumeric name).
  - destruct (strtoul0 name) as [mbc endptr].
    destruct (negb _); [by eexists|]. destruct (mbc >? 255); by eexists.
  - apply parseTypeAndFeatures_total. pose proof (length_skipBlank name). lia.
Qed.

Ltac in_list :=
  repeat first [apply list_elem_of_here | apply list_elem_of_further].

(** ** The feature check of MBC3 *)

(** [TIMER & BATTERY] is zero, so that the timer branch of the MBC3 case is
    never taken: MBC3 is checked like MBC1. *)
Lemma checkFeatures_MBC3 features :
  checkFeatures MBC3 features = ramBattery MBC3 features.
Proof.
  unfold checkFeatures.
  replace (Z.land TIMER BATTERY) with 0 by reflexivity.
  rewrite Z.land_0_r. reflexivity.
Qed.

Lemma checkFeatures_MBC3_accepts features :
  is_Some (checkFeatures MBC3 features) ↔
  features = 0 ∨ features = RAM ∨ features = Z.lor RAM BATTERY.
Proof.
  rewrite checkFeatures_MBC3. unfold ramBattery.
  destruct (features =? RAM) eqn:E1; [apply Z.eqb_eq in E1|apply Z.eqb_neq in E1].
  { split; [tauto | by eexists]. }
  destruct (features =? Z.lor RAM BATTERY) eqn:E2;
    [apply Z.eqb_eq in E2|apply Z.eqb_neq in E2].
  { split; [tauto | by eexists]. }
  destruct (features =? 0) eqn:E3; [apply Z.eqb_eq in E3|apply Z.eqb_neq in E3];
    simpl.
  - split; [tauto | by eexists].
  - split; [intros [? ?]; discriminate | tauto].
Qed.

(** The codes that a symbolic specification can yield. *)
Definition symbolicCodes : list Z :=
  [ ROM; ROM_RAM; ROM_RAM_BATTERY; MBC1; MBC1_RAM; MBC1_RAM_BATTERY;
    MBC2; MBC2_BATTERY; MMM01; MMM01_RAM; MMM01_RAM_BATTERY;
    MBC3; MBC3_RAM; MBC3_RAM_BATTERY;
    MBC5; MBC5_RAM; MBC5_RAM_BATTERY;
    MBC5_RUMBLE; MBC5_RUMBLE_RAM; MBC5_RUMBLE_RAM_BATTERY;
    MBC6; MBC7_SENSOR_RUMBLE_RAM_BATTERY; POCKET_CAMERA; BANDAI_TAMA5;
    HUC3; HUC1_RAM_BATTERY ].

Definition baseTypes : list Z :=
  [ ROM; MBC1; MBC2; MBC3; MBC5; MBC6; MBC7_SENSOR_RUMBLE_RAM_BATTERY; MMM01;
    POCKET_CAMERA; BANDAI_TAMA5; HUC1_RAM_BATTERY; HUC3 ].

Lemma readType_baseTypes ptr mbc ptr' :
  readType ptr = Some (mbc, ptr') → mbc ∈ baseTypes.
Proof.
  unfold readType, baseTypes. intros H. case_parse H; in_list.
Qed.

Lemma ramBattery_codes mbc features code :
  ramBattery mbc features = Some code →
  (code = mbc ∧ features = 0) ∨
  code = (mbc + 1) mod 65536 ∨ code = (mbc + 2) mod 65536.
Proof.
  unfold ramBattery. intros H.
  destruct (features =? RAM); [injection H as <-; tauto|].
  destruct (features =? Z.lor RAM BATTERY); [injection H as <-; tauto|].
  destruct (Z.eqb_spec features 0); simpl in H; [|discriminate].
  injection H as <-; tauto.
Qed.

Lemma checkFeatures_codes mbc features code :
  mbc ∈ baseTypes → checkFeatures mbc features = Some code →
  code ∈ symbolicCodes.
Proof.
  intros Hbase H. unfold baseTypes in Hbase.
  repeat (apply elem_of_cons in Hbase as [->|Hbase]);
    [..|by apply elem_of_nil in Hbase].
  4: { rewrite checkFeatures_MBC3 in H.
       apply ramBattery_codes in H as [[-> _]| [->| ->]];
         vm_compute; in_list. }
  all: unfold checkFeatures in H; simpl in H;
    repeat match type of H with
    | context [if ?b then _ else _] => destruct b eqn:?
    end;
    try discriminate H;
    try (apply ramBattery_codes in H as [[-> ?]| [->| ->]]);
    try (injection H as <-);
    first [subst; discriminate | vm_compute; in_list].
Qed.

(** A symbolic specification yields an error value or one of
    [symbolicCodes]; the two MBC3 codes with a timer are not among them. *)
Lemma parseMBC_symbolic_codes name code :
  isNumeric name = false → parseMBC name = Some code →
  code ∈ symbolicCodes ∨ code = MBC_BAD ∨ code = MBC_WRONG_FEATURES.
Proof.
  unfold parseMBC, parseSymbolic, parseTypeAndFeatures. intros -> H.
  destruct (readType _) as [[mbc ptr]|] eqn:Ht; [|naive_solver].
  apply readType_baseTypes in Ht.
  destruct (readFeatures _ _ _); [|naive_solver|done].
  destruct (checkFeatures mbc features) as [mbc'|] eqn:Hc; [|naive_solver].
  destruct (negb _); [naive_solver|].
  injection H as <-. left. eauto using checkFeatures_codes.
Qed.

(** Every display name other than the two MBC3 names with a timer is read
    back as the code it names. *)
Lemma mbcName_parseMBC type name :
  mbcName type = Some name →
  type ≠ MBC3_TIMER_BATTERY → type ≠ MBC3_TIMER_RAM_BATTERY →
  parseMBC name = Some type.
Proof.
  unfold mbcName. intros H H1 H2.
  repeat match type of H with
  | (if ?x =? ?y then _ else _) = _ =>
      destruct (Z.eqb_spec x y) as [->|_];
        [injection H as <-; first [done | vm_compute; reflexivity]|]
  end.
  discriminate.
Qed.

(** C1 (the code contradicts the claim): [parseMBC] answers the
    wrong-features error on MBC3 with TIMER and BATTERY, with or without
    RAM, and the feature sets it accepts for MBC3 are exactly the empty
    set, RAM, and RAM with BATTERY. *)
Theorem parseMBC_MBC3_timer_rejected :
  parseMBC "MBC3+TIMER+BATTERY" = Some MBC_WRONG_FEATURES ∧
  parseMBC "MBC3+TIMER+RAM+BATTERY" = Some MBC_WRONG_FEATURES ∧
  checkFeatures MBC3 (Z.lor TIMER BATTERY) = None ∧
  checkFeatures MBC3 (Z.lor (Z.lor TIMER RAM) BATTERY) = None ∧
  ∀ features, is_Some (checkFeatures MBC3 features) ↔
    features = 0 ∨ features = RAM ∨ features = Z.lor RAM BATTERY.
Proof.
  repeat split; try (vm_compute; reflexivity);
    apply checkFeatures_MBC3_accepts.
Qed.

(** C2 (the code contradicts the claim): the numeric tokens 15 and 16 give
    the codes MBC3_TIMER_BATTERY and MBC3_TIMER_RAM_BATTERY, whose display
    names [parseMBC] answers with the wrong-features error instead of the
    code. *)
Theorem mbcName_roundtrip_fails_MBC3_timer :
  parseMBC "15" = Some MBC3_TIMER_BATTERY ∧
  mbcName MBC3_TIMER_BATTERY = Some "MBC3+TIMER+BATTERY"%string ∧
  parseMBC "MBC3+TIMER+BATTERY" = Some MBC_WRONG_FEATURES ∧
  parseMBC "16" = Some MBC3_TIMER_RAM_BATTERY ∧
  mbcName MBC3_TIMER_RAM_BATTERY = Some "MBC3+TIMER+RAM+BATTERY"%string ∧
  parseMBC "MBC3+TIMER+RAM+BATTERY" = Some MBC_WRONG_FEATURES.
Proof. repeat split; vm_compute; reflexivity. Qed.

(** ** Letter case and underscores *)

(** The strings of the claim: [s1] and [s2] have the same length and differ,
    position by position, at most by the case of a letter or by a space
    standing for an underscore (or the reverse). *)
Definition toUpper (c : ascii) : ascii :=
  if (("a" <=? c) && (c <=? "z"))%char
  then ascii_of_N (N_of_ascii c - N_of_ascii "a" + N_of_ascii "A")
  else c.

Definition charVariant (c1 c2 : ascii) : bool :=
  ((c1 =? c2) || (toUpper c1 =? toUpper c2)
   || ((c1 =? "_") && (c2 =? " ")) || ((c1 =? " ") && (c2 =? "_")))%char.

Fixpoint variant (s1 s2 : string) : bool :=
  match s1, s2 with
  | EmptyString, EmptyString => true
  | String c1 s1', String c2 s2' => charVariant c1 c2 && variant s1' s2'
  | _, _ => false
  end.

(** The first character after the leading spaces and tabs is an
    underscore. *)
Definition leadingUnderscore (name : string) : bool :=
  (deref (skipBlank name) =? "_")%char.

(** [sliceChar] on every character of a string. *)
Fixpoint norm (s : string) : string :=
  match s with
  | EmptyString => EmptyString
  | String c s' => String (sliceChar c) (norm s')
  end.

Definition ascii_all : list ascii := List.map ascii_of_nat (List.seq 0 256).

Lemma ascii_forall (P : ascii → bool) :
  forallb P ascii_all = true → ∀ c, P c = true.
Proof.
  intros H c. rewrite forallb_forall in H. apply H.
  unfold ascii_all. apply in_map_iff. exists (nat_of_ascii c). split.
  - apply ascii_nat_embedding.
  - apply in_seq. pose proof (nat_ascii_bounded c). lia.
Qed.

Lemma ascii_forall2 (P : ascii → ascii → bool) :
  forallb (λ c1, forallb (P c1) ascii_all) ascii_all = true →
  ∀ c1 c2, P c1 c2 = true.
Proof.
  intros H c1. apply ascii_forall.
  apply (ascii_forall (λ c1, forallb (P c1) ascii_all) H).
Qed.

(** The two labels of a [case 'X': case 'x':] pair, as [sliceChar] sees
    them. *)
Definition casePair (U L : ascii) : bool :=
  forallb (λ c, Bool.eqb ((sliceChar c =? U) || (sliceChar c =? L))%char
                         ((c =? U) || (c =? L))%char) ascii_all.

(** A character that [sliceChar] neither yields nor changes. *)
Definition plainChar (d : ascii) : bool :=
  forallb (λ c, Bool.eqb (sliceChar c =? d)%char (c =? d)%char) ascii_all.

Lemma sliceChar_pair U L c :
  casePair U L = true →
  ((sliceChar c =? U) || (sliceChar c =? L))%char
  = ((c =? U) || (c =? L))%char.
Proof.
  intros H. apply Bool.eqb_prop. revert c. by apply ascii_forall.
Qed.

Lemma sliceChar_plain d c :
  plainChar d = true → (sliceChar c =? d)%char = (c =? d)%char.
Proof.
  intros H. apply Bool.eqb_prop. revert c. by apply ascii_forall.
Qed.

Lemma sliceChar_idemp c : sliceChar (sliceChar c) = sliceChar c.
Proof.
  apply Ascii.eqb_eq. revert c. apply ascii_forall. vm_compute. reflexivity.
Qed.

Lemma sliceChar_blankUs c :
  isBlankOrUnderscore (sliceChar c) = isBlankOrUnderscore c.
Proof.
  apply Bool.eqb_prop. revert c. apply ascii_forall. vm_compute. reflexivity.
Qed.

Lemma sliceChar_blank c :
  isBlank (sliceChar c) = isBlank c || (c =? "_")%char.
Proof.
  apply Bool.eqb_prop. revert c. apply ascii_forall. vm_compute. reflexivity.
Qed.

Lemma sliceChar_digit c :
  (("0" <=? sliceChar c) && (sliceChar c <=? "9"))%char
  = (("0" <=? c) && (c <=? "9"))%char.
Proof.
  apply Bool.eqb_prop. revert c. apply ascii_forall. vm_compute. reflexivity.
Qed.

Lemma charVariant_sliceChar c1 c2 :
  charVariant c1 c2 = true → sliceChar c1 = sliceChar c2.
Proof.
  intros H. apply Ascii.eqb_eq. revert H. apply implb_true_iff.
  revert c1 c2. apply ascii_forall2. vm_compute. reflexivity.
Qed.

Lemma variant_norm s1 : ∀ s2, variant s1 s2 = true → norm s1 = norm s2.
Proof.
  induction s1 as [|c1 s1 IH]; intros [|c2 s2]; simpl; try done.
  intros [Hc Hs]%andb_true_iff. f_equal; auto using charVariant_sliceChar.
Qed.

Lemma length_norm s : String.length (norm s) = String.length s.
Proof. induction s; simpl; congruence. Qed.

Lemma deref_norm s : deref (norm s) = sliceChar (deref s).
Proof. by destruct s. Qed.

Lemma advance_norm s : advance (norm s) = norm (advance s).
Proof. by destruct s. Qed.

Lemma skipBlankUs_norm s : skipBlankUs (norm s) = norm (skipBlankUs s).
Proof.
  induction s as [|c s IH]; simpl; [done|].
  rewrite sliceChar_blankUs. by destruct (isBlankOrUnderscore c).
Qed.

Lemma readMBCSlice_norm expected : ∀ name,
  readMBCSlice (norm name) expected = norm <$> readMBCSlice name expected.
Proof.
  induction expected as [|e expected IH]; intros name; simpl; [done|].
  rewrite deref_norm, advance_norm, sliceChar_idemp.
  rewrite (sliceChar_plain zero) by (vm_compute; reflexivity).
  destruct (deref name =? zero)%char; [done|].
  destruct (negb _); [done|]. apply IH.
Qed.

(** Moves [norm] out of one step of the parser; the goal compares a run on
    [norm s] with the run on [s]. *)
Ltac norm_step :=
  repeat first [ rewrite advance_norm | rewrite deref_norm
               | rewrite skipBlankUs_norm | rewrite readMBCSlice_norm ];
  rewrite ?sliceChar_pair by (vm_compute; reflexivity);
  rewrite ?sliceChar_plain by (vm_compute; reflexivity);
  lazymatch goal with
  | |- (if ?b then _ else _) = _ => destruct b
  | |- mbind _ (fmap _ ?m) = _ =>
      destruct m; cbn [mbind option_bind fmap option_fmap option_map]
  | |- _ => idtac
  end.

Definition normPtr (r : Z * string) : Z * string := (r.1, norm r.2).

Lemma readType_norm s : readType (norm s) = normPtr <$> readType s.
Proof.
  unfold readType. cbv zeta. do 12 (try norm_step; try reflexivity).
Qed.

Lemma readFeature_norm s : readFeature (norm s) = normPtr <$> readFeature s.
Proof.
  unfold readFeature. cbv zeta. rewrite <- !negb_orb.
  do 8 (try norm_step; try reflexivity).
Qed.

Definition scanNorm (r : FeatureScan) : FeatureScan :=
  match r with
  | ScanDone features ptr => ScanDone features (norm ptr)
  | ScanBad => ScanBad
  | ScanFuel => ScanFuel
  end.

Lemma readFeatures_norm fuel : ∀ s features,
  readFeatures fuel (norm s) features = scanNorm (readFeatures fuel s features).
Proof.
  induction fuel as [|fuel IH]; intros s features; simpl; [done|].
  do 2 norm_step; try reflexivity.
  norm_step. rewrite readFeature_norm.
  destruct (readFeature _) as [[bit ptr]|]; simpl; [apply IH | done].
Qed.

(** The feature loop is left at the end of the string only. *)
Lemma readFeatures_end fuel : ∀ s features features' ptr,
  readFeatures fuel s features = ScanDone features' ptr → deref ptr = zero.
Proof.
  induction fuel as [|fuel IH]; intros s features features' ptr; simpl;
    [done|].
  destruct (Ascii.eqb_spec (deref (skipBlankUs s)) zero) as [Hz|_].
  { intros [= <- <-]. done. }
  destruct (negb _); [done|].
  destruct (readFeature _) as [[bit ptr']|]; [apply IH | done].
Qed.

Lemma skipBlank_end ptr : deref ptr = zero → skipBlank ptr = ptr.
Proof. destruct ptr as [|c ptr]; simpl; [done|]. by intros ->. Qed.

Lemma parseTypeAndFeatures_norm fuel s :
  parseTypeAndFeatures fuel (norm s) = parseTypeAndFeatures fuel s.
Proof.
  unfold parseTypeAndFeatures. rewrite readType_norm.
  destruct (readType s) as [[mbc ptr]|]; simpl; [|done].
  rewrite readFeatures_norm.
  destruct (readFeatures fuel ptr 0) as [features ptr'| |] eqn:Hscan;
    simpl; [|done..].
  apply readFeatures_end in Hscan.
  destruct (checkFeatures mbc features); [|done].
  rewrite !skipBlank_end by (by rewrite ?deref_norm, Hscan).
  by rewrite deref_norm, Hscan.
Qed.

(** The leading blanks are spaces and tabs only: an underscore there stops
    the trimming, and is then no MBC type. *)
Lemma skipBlank_norm s :
  skipBlank (norm s) = norm (skipBlank s) ∨ deref (skipBlank s) = "_"%char.
Proof.
  induction s as [|c s IH]; simpl; [by left|].
  rewrite sliceChar_blank. destruct (isBlank c); simpl; [done|].
  destruct (Ascii.eqb_spec c "_"); [by right | by left].
Qed.

Lemma readType_underscore ptr : deref ptr = "_"%char → readType ptr = None.
Proof. unfold readType. by intros ->. Qed.

Lemma isNumeric_norm s : isNumeric (norm s) = isNumeric s.
Proof. unfold isNumeric. rewrite deref_norm. apply sliceChar_digit. Qed.

(** A symbolic specification is read like its normal form, unless it is
    refused as a syntax error. *)
Lemma parseMBC_norm s :
  isNumeric s = false →
  parseMBC s = Some MBC_BAD ∨ parseMBC s = parseMBC (norm s).
Proof.
  intros Hsym. unfold parseMBC, parseSymbolic.
  rewrite isNumeric_norm, Hsym, length_norm.
  destruct (skipBlank_norm s) as [->|Hus].
  - right. by rewrite parseTypeAndFeatures_norm.
  - left. unfold parseTypeAndFeatures. by rewrite readType_underscore.
Qed.

(** Two symbolic specifications that differ by letter case and by
    underscores for spaces are read alike, unless one of them is refused as
    a syntax error. *)
Lemma parseMBC_variant s1 s2 :
  isNumeric s1 = false → variant s1 s2 = true →
  parseMBC s1 = parseMBC s2
  ∨ parseMBC s1 = Some MBC_BAD ∨ parseMBC s2 = Some MBC_BAD.
Proof.
  intros Hsym Hvar. apply variant_norm in Hvar.
  assert (isNumeric s2 = false) as Hsym2.
  { by rewrite <- isNumeric_norm, <- Hvar, isNumeric_norm. }
  destruct (parseMBC_norm s1 Hsym) as [?|H1]; [tauto|].
  destruct (parseMBC_norm s2 Hsym2) as [?|H2]; [tauto|].
  left. by rewrite H1, H2, Hvar.
Qed.

(** A symbolic specification without an underscore before its name is read
    like its normal form, errors included. *)
Lemma parseMBC_norm_exact s :
  isNumeric s = false → leadingUnderscore s = false →
  parseMBC s = parseMBC (norm s).
Proof.
  intros Hsym Hus. unfold parseMBC, parseSymbolic.
  rewrite isNumeric_norm, Hsym, length_norm.
  destruct (skipBlank_norm s) as [->|Hlead].
  - by rewrite parseTypeAndFeatures_norm.
  - unfold leadingUnderscore in Hus. by rewrite Hlead in Hus.
Qed.

(** X30: two symbolic specifications that differ only by the case of letters
    and by underscores standing for spaces (or spaces for underscores) at
    the same positions are read alike by [parseMBC], the cartridge type or
    the error, when neither has an underscore before its name. *)
Theorem parseMBC_variant_alike s1 s2 :
  isNumeric s1 = false → variant s1 s2 = true →
  leadingUnderscore s1 = false → leadingUnderscore s2 = false →
  parseMBC s1 = parseMBC s2.
Proof.
  intros Hsym Hvar Hus1 Hus2. apply variant_norm in Hvar.
  assert (isNumeric s2 = false) as Hsym2.
  { by rewrite <- isNumeric_norm, <- Hvar, isNumeric_norm. }
  rewrite (parseMBC_norm_exact s1 Hsym Hus1).
  rewrite (parseMBC_norm_exact s2 Hsym2 Hus2).
  by rewrite Hvar.
Qed.

Lemma parseMBC_variant_alike_witness :
  isNumeric "rom_only + Ram_+_battery" = false ∧
  variant "rom_only + Ram_+_battery" "ROM ONLY + rAM + BATTERY" = true ∧
  leadingUnderscore "rom_only + Ram_+_battery" = false ∧
  leadingUnderscore "ROM ONLY + rAM + BATTERY" = false ∧
  parseMBC "rom_only + Ram_+_battery" = Some ROM_RAM_BATTERY ∧
  parseMBC "rom_only + Ram_+_battery" = parseMBC "ROM ONLY + rAM + BATTERY".
Proof.
  split; [reflexivity|]. split; [reflexivity|]. split; [reflexivity|].
  split; [reflexivity|]. split; [reflexivity|].
  apply parseMBC_variant_alike; reflexivity.
Defined.

(** C3: an underscore is read as a space inside a name, after the name and
    on both sides of a ['+'], but not before the name: the loop that trims
    the leading blanks looks for spaces and tabs only, unlike the loops
    that trim around the features.  [" ROM"] and ["_ROM"] differ by an
    underscore standing for a space; the first is ROM and the second an
    unknown MBC, as is every string that begins with an underscore. *)
Theorem parseMBC_leading_underscore_rejected :
  variant " ROM" "_ROM" = true
  ∧ parseMBC " ROM" = Some ROM
  ∧ parseMBC "_ROM" = Some MBC_BAD
  ∧ parseMBC "ROM_" = Some ROM
  ∧ parseMBC "ROM_+_RAM" = Some ROM_RAM
  ∧ ∀ s, parseMBC (String "_" s) = Some MBC_BAD.
Proof.
  do 5 (split; [reflexivity|]). intros s.
  unfold parseMBC, parseSymbolic.
  change (isNumeric (String "_" s)) with false. cbv iota.
  change (skipBlank (String "_" s)) with (String "_" s).
  unfold parseTypeAndFeatures. by rewrite readType_underscore.
Qed.

(** * The per-image pipeline *)

(** ** Files and descriptors *)

(** An open file: its bytes and the offset of the descriptor. *)
Record File : Type := mkFile { data : list Z; pos : nat }.

(** What is left to read of a file. *)
Definition unread (f : File) : list Z := drop (pos f) (data f).

(** The pair [(input, output)] that [processFile] is given: the same
    descriptor of a regular file opened for reading and writing, or two
    different descriptors (standard input and standard output). *)
Inductive Handles : Type :=
  | SameFile (f : File)
  | Pipe (input output : File).

(** [input == output] *)
Definition sameFd (h : Handles) : bool :=
  match h with
  | SameFile _ => true
  | Pipe _ _ => false
  end.

Definition inputFile (h : Handles) : File :=
  match h with
  | SameFile f => f
  | Pipe input _ => input
  end.

Definition outputFile (h : Handles) : File :=
  match h with
  | SameFile f => f
  | Pipe _ output => output
  end.

Definition withInput (h : Handles) (f : File) : Handles :=
  match h with
  | SameFile _ => SameFile f
  | Pipe _ output => Pipe f output
  end.

Definition withOutput (h : Handles) (f : File) : Handles :=
  match h with
  | SameFile _ => SameFile f
  | Pipe input _ => Pipe input f
  end.

(** [readBytes(input, buf, len)]: [read] is called again until [len] bytes
    have come or the end of the file is reached, so that the bytes read are
    the next [len] bytes of the file, or all that is left of it.  The model
    has no failing system call: [read], [write] and [lseek] succeed. *)
Definition readBytes (h : Handles) (len : Z) : list Z * Handles :=
  let f := inputFile h in
  let buf := take (Z.to_nat len) (unread f) in
  (buf, withInput h (mkFile (data f) (pos f + length buf))).

(** [writeBytes(output, buf, len)] with [buf] holding the [len] bytes: they
    replace the bytes at the offset of the descriptor, and extend the file
    past its end. *)
Definition writeBytes (h : Handles) (buf : list Z) : Handles :=
  let f := outputFile h in
  withOutput h (mkFile (take (pos f) (data f) ++ buf
                          ++ drop (pos f + length buf) (data f))
                       (pos f + length buf)).

(** [lseek(output, 0, SEEK_SET)] and [lseek(output, 0, SEEK_END)] *)
Definition lseekSet (h : Handles) : Handles :=
  withOutput h (mkFile (data (outputFile h)) 0).

Definition lseekEnd (h : Handles) : Handles :=
  withOutput h (mkFile (data (outputFile h)) (length (data (outputFile h)))).

(** ** The error counter *)

(** The messages of [report] in [processFile] and [processFilename]. *)
Inductive Diagnostic : Type :=
  | TooShort          (* "... too short, expected at least 336 ($150) bytes" *)
  | TooManyBanks      (* "... has more than 65536 banks" *)
  | OpenFailed        (* "Failed to open ... for reading+writing" *)
  | StatFailed        (* "Failed to stat ..." *)
  | NotRegularFile.   (* "... is not a regular file" *)

(** The state that [processFile] works on: the descriptors, the counter
    [nbErrors] and the messages that [report] has printed. *)
Record State : Type := mkState {
  handles : Handles;
  nbErrors : Z;
  reported : list Diagnostic
}.

Definition UINT8_MAX : Z := 255.

(** [report(fmt, ...)] *)
Definition report (msg : Diagnostic) (st : State) : State :=
  mkState (handles st)
          (if negb (nbErrors st =? UINT8_MAX) then (nbErrors st + 1) mod 256
           else nbErrors st)
          (reported st ++ [msg]).

Definition withHandles (st : State) (h : Handles) : State :=
  mkState h (nbErrors st) (reported st).

(** ** The configuration: the options of the command line *)

Inductive Model : Type := DMG | BOTH | CGB.

Definition FIX_LOGO : Z := 0x80.
Definition TRASH_LOGO : Z := 0x40.
Definition FIX_HEADER_SUM : Z := 0x20.
Definition TRASH_HEADER_SUM : Z := 0x10.
Definition FIX_GLOBAL_SUM : Z := 0x08.
Definition TRASH_GLOBAL_SUM : Z := 0x04.

(** The global variables that [main] sets from the options, and that
    [processFile] reads.  A string option is [None] for the NULL pointer. *)
Record Config : Type := mkConfig {
  model : Model;
  fixSpec : Z;
  gameID : option (list Z);
  gameIDLen : nat;
  japanese : bool;
  newLicensee : option (list Z);
  newLicenseeLen : nat;
  oldLicensee : Z;
  cartridgeType : Z;
  romVersion : Z;
  padValue : Z;
  ramSize : Z;
  sgb : bool;
  title : option (list Z);
  titleLen : nat
}.

Definition ninLogo : list Z :=
  [ 0xCE; 0xED; 0x66; 0x66; 0xCC; 0x0D; 0x00; 0x0B;
    0x03; 0x73; 0x00; 0x83; 0x00; 0x0C; 0x00; 0x0D;
    0x00; 0x08; 0x11; 0x1F; 0x88; 0x89; 0x00; 0x0E;
    0xDC; 0xCC; 0x6E; 0xE6; 0xDD; 0xDD; 0xD9; 0x99;
    0xBB; 0xBB; 0x67; 0x63; 0x6E; 0x0E; 0xEC; 0xCC;
    0xDD; 0xDC; 0x99; 0x9F; 0xBB; 0xB9; 0x33; 0x3E ].

(** ** Byte buffers *)

(** [buf[i]] *)
Definition byteAt (buf : list Z) (i : nat) : Z := default 0 (buf !! i).

(** [memcpy(&buf[off], src, len)] *)
Definition memcpy (buf : list Z) (off : nat) (src : list Z) (len : nat)
  : list Z :=
  list_inserts off (take len src) buf.

(** [flag & mask] as a condition *)
Definition hasBit (flag mask : Z) : bool := negb (Z.land flag mask =? 0).

(** ** The header fields: lines 683 to 721 of [processFile] *)

Definition fixLogo (C : Config) (rom0 : list Z) : list Z :=
  if hasBit (fixSpec C) (Z.lor FIX_LOGO TRASH_LOGO) then
    if hasBit (fixSpec C) FIX_LOGO then
      memcpy rom0 0x104 ninLogo (length ninLogo)
    else
      foldl (λ rom0 i, <[(i + 0x104)%nat := Z.lnot (byteAt ninLogo i) mod 256]> rom0)
            rom0 (seq 0 (length ninLogo))
  else rom0.

Definition applyHeaderEdits (C : Config) (rom0 : list Z) : list Z :=
  let rom0 := fixLogo C rom0 in
  let rom0 :=
    match title C with
    | Some t => memcpy rom0 0x134 t (titleLen C)
    | None => rom0
    end in
  let rom0 :=
    match gameID C with
    | Some g => memcpy rom0 0x13f g (gameIDLen C)
    | None => rom0
    end in
  let rom0 :=
    match model C with
    | DMG => rom0
    | BOTH => <[0x143%nat := 0x80]> rom0
    | CGB => <[0x143%nat := 0xc0]> rom0
    end in
  let rom0 :=
    match newLicensee C with
    | Some l => memcpy rom0 0x144 l (newLicenseeLen C)
    | None => rom0
    end in
  let rom0 := if sgb C then <[0x146%nat := 0x03]> rom0 else rom0 in
  (* If a valid MBC was specified... *)
  let rom0 :=
    if cartridgeType C <? MBC_NONE
    then <[0x147%nat := cartridgeType C mod 256]> rom0 else rom0 in
  let rom0 :=
    if negb (ramSize C =? UNSPECIFIED)
    then <[0x149%nat := ramSize C mod 256]> rom0 else rom0 in
  let rom0 := if negb (japanese C) then <[0x14a%nat := 0x01]> rom0 else rom0 in
  let rom0 :=
    if negb (oldLicensee C =? UNSPECIFIED)
    then <[0x14b%nat := oldLicensee C mod 256]> rom0 else rom0 in
  let rom0 :=
    if negb (romVersion C =? UNSPECIFIED)
    then <[0x14c%nat := romVersion C mod 256]> rom0 else rom0 in
  rom0.

(** ** Results of a piece of [processFile] *)

Inductive Outcome (A : Type) : Type :=
  | Done (a : A)            (* the piece ran to its end *)
  | Fatal (d : Diagnostic) (h : Handles)
                            (* [report(...); return;] *)
  | AssertFailed            (* an [assert] does not hold *)
  | NoFuel.                 (* the model of a loop ran out of fuel *)

Arguments Done {A} a.
Arguments Fatal {A} d h.
Arguments AssertFailed {A}.
Arguments NoFuel {A}.

(** ** Checksums *)

(** [for (uint16_t i = 0; i < len; i++) globalSum += buf[start + i];] *)
Definition sumBytes (globalSum : Z) (buf : list Z) (start len : nat) : Z :=
  foldl (λ globalSum i, (globalSum + byteAt buf (start + i)) mod 65536)
        globalSum (seq 0 len).

(** [for (uint16_t i = 0x134; i < 0x14d; i++) sum -= rom0[i] + 1;] *)
Definition headerSum (rom0 : list Z) : Z :=
  foldl (λ sum i, (sum - (byteAt rom0 i + 1)) mod 256) 0
        (seq 0x134 (0x14d - 0x134)).

(** Lines 816 to 822: the header checksum. *)
Definition fixHeaderSum (C : Config) (rom0 : list Z) : list Z :=
  if hasBit (fixSpec C) (Z.lor FIX_HEADER_SUM TRASH_HEADER_SUM) then
    let sum := headerSum rom0 in
    <[0x14d%nat := if hasBit (fixSpec C) TRASH_HEADER_SUM
                   then Z.lnot sum mod 256 else sum]> rom0
  else rom0.

(** ** ROMX: lines 727 to 782 *)

(** Modelled from the spec: the macros [clz] and [ctz] of [helpers.h],
    which is not among the sources at hand.  They count the leading and the
    trailing zero bits of a 32-bit [unsigned int] that is not zero, which is
    what makes the padding of [processFile] round the number of banks "up to
    the next power of two" and the ROM size byte be "log2(bankCount/2)". *)
Definition clz (x : Z) : Z := 31 - Z.log2 x.

Fixpoint ctzFrom (bits : nat) (x : Z) : Z :=
  match bits with
  | O => 0
  | S bits => if Z.odd x then 0 else 1 + ctzFrom bits (x / 2)
  end.

Definition ctz (x : Z) : Z := ctzFrom 32 x.

(** What [processFile] knows of the banks after bank 0. *)
Record Romx : Type := mkRomx {
  romx : option (list Z);  (* the buffer of the banks read from a pipe,
                              [None] for the NULL pointer *)
  nbBanks : Z;             (* number of banks *targeted*, including ROM0 *)
  totalRomxLen : Z;        (* *actual* size of ROMX data *)
  globalSum : Z
}.

(** The loop that copies ROMX when reading a pipe.  [buf] is the buffer
    [romx], which [realloc] has made [nbBanks * BANK_SIZE] bytes long. *)
Fixpoint readRomxBanks (fuel : nat) (h : Handles) (buf : list Z)
    (nbBanks totalRomxLen globalSum : Z) : Outcome (Handles * Romx) :=
  match fuel with
  | O => NoFuel
  | S fuel =>
    let '(bank, h) := readBytes h BANK_SIZE in
    let bankLen := Z.of_nat (length bank) in
    (* the bank is read into [&romx[(nbBanks - 1) * BANK_SIZE]] *)
    let buf := resize (Z.to_nat ((nbBanks - 1) * BANK_SIZE)) 0 buf ++ bank in
    (* Update bank count, ONLY IF at least one byte was read *)
    if negb (bankLen =? 0) then
      (* We're gonna read another bank, check that it won't be too much *)
      if nbBanks =? 0x10000 then Fatal TooManyBanks h
      else
        let nbBanks := (nbBanks + 1) mod 2 ^ 32 in
        (* Update global checksum, too *)
        let globalSum :=
          sumBytes globalSum buf (Z.to_nat totalRomxLen) (length bank) in
        let totalRomxLen := totalRomxLen + bankLen in
        (* Stop when an incomplete bank has been read *)
        if negb (bankLen =? BANK_SIZE)
        then Done (h, mkRomx (Some buf) nbBanks totalRomxLen globalSum)
        else readRomxBanks fuel h buf nbBanks totalRomxLen globalSum
    else Done (h, mkRomx (Some buf) nbBanks totalRomxLen globalSum)
  end.

(** The bank counter stops the loop after 65536 turns at most. *)
Definition romxFuel : nat := Z.to_nat 0x10000.

Definition handleRomx (h : Handles) (fileSize rom0Len : Z)
  : Outcome (Handles * Romx) :=
  if sameFd h then
    if fileSize >=? 0x10000 * BANK_SIZE then Fatal TooManyBanks h
    else
      (* Compute number of banks and ROMX len from file size *)
      Done (h, mkRomx None
                 (((fileSize + (BANK_SIZE - 1)) / BANK_SIZE) mod 2 ^ 32)
                 (if fileSize >=? BANK_SIZE then fileSize - BANK_SIZE else 0)
                 0)
  else if rom0Len =? BANK_SIZE then
    (* Copy ROMX when reading a pipe, and we're not at EOF yet *)
    readRomxBanks romxFuel h [] 1 0 0
  else Done (h, mkRomx None 1 0 0).

(** ** Padding: lines 784 to 813 *)

(** [(nbBanks - 1) * BANK_SIZE - totalRomxLen], in [size_t] *)
Definition paddingLen (nbBanks totalRomxLen : Z) : Z :=
  (((nbBanks - 1) * BANK_SIZE) mod 2 ^ 32 - totalRomxLen) mod 2 ^ 64.

(** The state of the variables [rom0], [rom0Len], [nbBanks] and
    [globalSum]. *)
Record Padded : Type := mkPadded {
  padRom0 : list Z;
  padRom0Len : Z;
  padNbBanks : Z;
  padGlobalSum : Z
}.

Definition handlePadding (C : Config) (rom0 : list Z) (rom0Len : Z)
    (r : Romx) : Outcome Padded :=
  if negb (padValue C =? UNSPECIFIED) then
    (* We want at least 2 banks *)
    let first :=
      if nbBanks r =? 1 then
        if negb (rom0Len =? BANK_SIZE) then
          Done (take (Z.to_nat rom0Len) rom0
                  ++ replicate (Z.to_nat (BANK_SIZE - rom0Len))
                               (padValue C mod 256),
                BANK_SIZE, 2)
        else Done (rom0, rom0Len, 2)
      else if rom0Len =? BANK_SIZE then Done (rom0, rom0Len, nbBanks r)
      else AssertFailed in
    match first with
    | Done (rom0, rom0Len, nbBanks) =>
      if nbBanks >=? 2 then
        (* Alter number of banks to reflect required value *)
        let nbBanks :=
          if negb (Z.land nbBanks (nbBanks - 1) =? 0)
          then Z.shiftl 1 (32 - clz nbBanks) mod 2 ^ 32
          else nbBanks in
        (* Write final ROM size *)
        let rom0 := <[0x148%nat := ctz (nbBanks / 2) mod 256]> rom0 in
        (* Alter global checksum based on how many bytes will be added *)
        let globalSum :=
          (globalSum r + padValue C * paddingLen nbBanks (totalRomxLen r))
            mod 65536 in
        Done (mkPadded rom0 rom0Len nbBanks globalSum)
      else AssertFailed
    | Fatal d h => Fatal d h
    | AssertFailed => AssertFailed
    | NoFuel => NoFuel
    end
  else Done (mkPadded rom0 rom0Len (nbBanks r) (globalSum r)).

(** ** The global checksum: lines 824 to 846 *)

(** The loop that sums ROMX from a regular file. *)
Fixpoint sumRomxBanks (fuel : nat) (h : Handles) (globalSum : Z)
  : Outcome (Handles * Z) :=
  match fuel with
  | O => NoFuel
  | S fuel =>
    let '(bank, h) := readBytes h BANK_SIZE in
    let romxLen := Z.of_nat (length bank) in
    let globalSum := sumBytes globalSum bank 0 (length bank) in
    if negb (romxLen =? BANK_SIZE) then Done (h, globalSum)
    else sumRomxBanks fuel h globalSum
  end.

(** Every turn but the last reads a whole bank. *)
Definition restFuel (h : Handles) : nat :=
  Z.to_nat (Z.of_nat (length (unread (inputFile h))) / BANK_SIZE + 1).

Definition fixGlobalSum (C : Config) (h : Handles) (rom0 : list Z)
    (rom0Len globalSum : Z) : Outcome (Handles * list Z) :=
  if hasBit (fixSpec C) (Z.lor FIX_GLOBAL_SUM TRASH_GLOBAL_SUM) then
    (* Computation of the global checksum assumes 0s being stored in its place *)
    let rom0 := <[0x14e%nat := 0]> rom0 in
    let rom0 := <[0x14f%nat := 0]> rom0 in
    let globalSum := sumBytes globalSum rom0 0 (Z.to_nat rom0Len) in
    (* Pipes have already read ROMX and updated globalSum, but not regular files *)
    let rest :=
      if sameFd h then sumRomxBanks (restFuel h) h globalSum
      else Done (h, globalSum) in
    match rest with
    | Done (h, globalSum) =>
      let globalSum :=
        if hasBit (fixSpec C) TRASH_GLOBAL_SUM
        then Z.lnot globalSum mod 65536 else globalSum in
      let rom0 := <[0x14e%nat := Z.shiftr globalSum 8 mod 256]> rom0 in
      let rom0 := <[0x14f%nat := Z.land globalSum 0xff mod 256]> rom0 in
      Done (h, rom0)
    | Fatal d h => Fatal d h
    | AssertFailed => AssertFailed
    | NoFuel => NoFuel
    end
  else Done (h, rom0).

(** ** Writing back: lines 848 to 908 *)

(** The loop that writes the padding, from the buffer [bank]. *)
Fixpoint writePadding (fuel : nat) (h : Handles) (bank : list Z) (len : Z)
  : Outcome Handles :=
  if len =? 0 then Done h
  else
    match fuel with
    | O => NoFuel
    | S fuel =>
      let thisLen := if len >? BANK_SIZE then BANK_SIZE else len in
      let h := writeBytes h (take (Z.to_nat thisLen) bank) in
      writePadding fuel h bank ((len - thisLen) mod 2 ^ 64)
    end.

Definition writeBack (C : Config) (h : Handles) (rom0 : list Z)
    (rom0Len : Z) (r : Romx) (nbBanks : Z) : Outcome Handles :=
  (* In case the output depends on the input, reset to the beginning of the
     file, and only write the header *)
  let h := if sameFd h then lseekSet h else h in
  let rom0Len :=
    if sameFd h && (padValue C =? UNSPECIFIED) then 0x150 else rom0Len in
  let h := writeBytes h (take (Z.to_nat rom0Len) rom0) in
  (* Output ROMX if it was buffered *)
  let h :=
    match romx r with
    | Some buf => writeBytes h (take (Z.to_nat (totalRomxLen r)) buf)
    | None => h
    end in
  (* Output padding *)
  if negb (padValue C =? UNSPECIFIED) then
    let h := if sameFd h then lseekEnd h else h in
    let bank := replicate (Z.to_nat BANK_SIZE) (padValue C mod 256) in
    let len := paddingLen nbBanks (totalRomxLen r) in
    writePadding (Z.to_nat (len / BANK_SIZE + 1)) h bank len
  else Done h.

(** ** [processFile(input, output, name, fileSize)] *)

Definition processFile (C : Config) (fileSize : Z) (st : State)
  : Outcome State :=
  let h := handles st in
  (* Both of these should be true for seekable files, and neither otherwise *)
  if Bool.eqb (sameFd h) (fileSize =? 0) then AssertFailed
  else
    let '(rom0, h) := readBytes h BANK_SIZE in
    let rom0Len := Z.of_nat (length rom0) in
    if rom0Len <? 0x150 then Done (report TooShort (withHandles st h))
    else
      (* Accept partial reads if the file contains at least the header *)
      let rom0 := applyHeaderEdits C rom0 in
      match handleRomx h fileSize rom0Len with
      | Done (h, r) =>
        match handlePadding C rom0 rom0Len r with
        | Done p =>
          (* Handle the header checksum after the ROM size has been written *)
          let rom0 := fixHeaderSum C (padRom0 p) in
          match fixGlobalSum C h rom0 (padRom0Len p) (padGlobalSum p) with
          | Done (h, rom0) =>
            match writeBack C h rom0 (padRom0Len p) r (padNbBanks p) with
            | Done h => Done (withHandles st h)
            | Fatal d h => Done (report d (withHandles st h))
            | AssertFailed => AssertFailed
            | NoFuel => NoFuel
            end
          | Fatal d h => Done (report d (withHandles st h))
          | AssertFailed => AssertFailed
          | NoFuel => NoFuel
          end
        | Fatal d h => Done (report d (withHandles st h))
        | AssertFailed => AssertFailed
        | NoFuel => NoFuel
        end
      | Fatal d h => Done (report d (withHandles st h))
      | AssertFailed => AssertFailed
      | NoFuel => NoFuel
      end.

(** ** [processFilename(name)] *)

(** What [name] stands for: ["-"] with the two standard streams, or a path
    with what [open] and [fstat] find there. *)
Inductive Target : Type :=
  | Standard (stdin stdout : File)
  | NoSuchFile                    (* [open] fails *)
  | NoStat (f : File)             (* [fstat] fails *)
  | Special (f : File)            (* not a regular file *)
  | Regular (f : File).           (* a regular file, [st_size] its length *)

Definition targetHandles (t : Target) : Handles :=
  match t with
  | Standard stdin stdout => Pipe stdin stdout
  | NoSuchFile => SameFile (mkFile [] 0)
  | NoStat f | Special f | Regular f => SameFile f
  end.

(** [processFilename(name)]: the value returned, of type [bool], and the
    state left behind. *)
Definition processFilename (C : Config) (t : Target) : Outcome (bool * State) :=
  let st := mkState (targetHandles t) 0 [] in (* nbErrors = 0; *)
  let after :=
    match t with
    | Standard _ _ => processFile C 0 st
    | NoSuchFile => Done (report OpenFailed st)
    | NoStat _ => Done (report StatFailed st)
    | Special _ => Done (report NotRegularFile st)
    | Regular f =>
      let st_size := Z.of_nat (length (data f)) in
      if st_size <? 0x150 then Done (report TooShort st)
      else processFile C st_size st
    end in
  match after with
  | Done st => Done (negb (nbErrors st =? 0), st)
  | Fatal d h => Fatal d h
  | AssertFailed => AssertFailed
  | NoFuel => NoFuel
  end.

(** * Properties of the pipeline *)

(** ** Bytes and sums *)

(** The sum of the bytes of a buffer, and its 16-bit accumulation. *)
Definition total (l : list Z) : Z := foldr Z.add 0 l.

Definition sum16 (globalSum : Z) (l : list Z) : Z :=
  foldl (λ globalSum b, (globalSum + b) mod 65536) globalSum l.

Lemma total_app l k : total (l ++ k) = total l + total k.
Proof. induction l as [|x l IH]; simpl; lia. Qed.

Lemma total_replicate n x : total (replicate n x) = Z.of_nat n * x.
Proof. induction n as [|n IH]; simpl; lia. Qed.

Lemma sum16_total l : ∀ g, sum16 g l = (g + total l) mod 65536 ∨ l = [].
Proof.
  induction l as [|x l IH]; intros g; [by right|left]. simpl.
  destruct (IH ((g + x) mod 65536)) as [->| ->]; simpl.
  - rewrite Zplus_mod_idemp_l. f_equal. lia.
  - f_equal. lia.
Qed.

Lemma sum16_mod l g : sum16 g l mod 65536 = (g + total l) mod 65536.
Proof.
  destruct (sum16_total l g) as [->| ->].
  - apply Zmod_mod.
  - simpl. f_equal. lia.
Qed.

Lemma sum16_app l k g : sum16 g (l ++ k) = sum16 (sum16 g l) k.
Proof. apply foldl_app. Qed.

Lemma byteAt_lookup buf i x : buf !! i = Some x → byteAt buf i = x.
Proof. unfold byteAt. by intros ->. Qed.

Lemma byteAt_app_l l k i : (i < length l)%nat → byteAt (l ++ k) i = byteAt l i.
Proof. intros H. unfold byteAt. by rewrite lookup_app_l. Qed.

Lemma byteAt_app_r l k i :
  (length l <= i)%nat → byteAt (l ++ k) i = byteAt k (i - length l).
Proof. intros H. unfold byteAt. by rewrite lookup_app_r. Qed.

Lemma byteAt_insert buf i j x :
  byteAt (<[i:=x]> buf) j
  = if decide (i = j ∧ (i < length buf)%nat) then x else byteAt buf j.
Proof. unfold byteAt. rewrite list_lookup_insert. by case_decide. Qed.

Lemma byteAt_insert_ne buf i j x : i ≠ j → byteAt (<[i:=x]> buf) j = byteAt buf j.
Proof. intros H. rewrite byteAt_insert. case_decide; [tauto|done]. Qed.

Lemma byteAt_insert_eq buf i x :
  (i < length buf)%nat → byteAt (<[i:=x]> buf) i = x.
Proof. intros H. rewrite byteAt_insert. case_decide; [done|tauto]. Qed.

(** The loop of [sumBytes] adds up the [len] bytes from [start] on. *)
Lemma sumBytes_sum16 buf start len : ∀ g,
  (start + len <= length buf)%nat →
  sumBytes g buf start len = sum16 g (take len (drop start buf)).
Proof.
  unfold sumBytes. induction len as [|len IH]; intros g Hlen.
  - by rewrite take_0.
  - rewrite seq_S, foldl_app, IH by lia. simpl.
    destruct (lookup_lt_is_Some_2 buf (start + len) ltac:(lia)) as [x Hx].
    rewrite (take_S_r _ _ x) by (by rewrite lookup_drop).
    rewrite sum16_app. simpl. by rewrite (byteAt_lookup _ _ x).
Qed.

Lemma sumBytes_all buf g : sumBytes g buf 0 (length buf) = sum16 g buf.
Proof. rewrite sumBytes_sum16 by (simpl; lia). by rewrite drop_0, firstn_all. Qed.

(** The header checksum looks at the bytes from 0x134 to 0x14C only. *)
Lemma headerSum_ext a b :
  (∀ i, (0x134 <= i < 0x14d)%nat → byteAt a i = byteAt b i) →
  headerSum a = headerSum b.
Proof.
  intros H. unfold headerSum.
  assert (∀ l s, (∀ i, i ∈ l → (0x134 <= i < 0x14d)%nat) →
    foldl (λ sum i, (sum - (byteAt a i + 1)) mod 256) s l
    = foldl (λ sum i, (sum - (byteAt b i + 1)) mod 256) s l) as Hfold.
  { induction l as [|i l IH]; intros s Hl; simpl; [done|].
    rewrite H by (apply Hl; left). apply IH. intros j Hj. apply Hl. by right. }
  apply Hfold. intros i Hi%elem_of_seq. lia.
Qed.

Lemma headerSum_range rom0 : 0 <= headerSum rom0 < 256.
Proof.
  unfold headerSum. generalize (seq 308 (333 - 308)). intros l.
  assert (∀ s, 0 <= s < 256 →
    0 <= foldl (λ sum i, (sum - (byteAt rom0 i + 1)) mod 256) s l < 256)
    as Hfold.
  { induction l as [|i l IH]; intros s Hs; simpl; [done|].
    apply IH. apply Z.mod_pos_bound. lia. }
  apply Hfold. lia.
Qed.

Lemma sum16_range l : ∀ g, 0 <= g < 65536 → 0 <= sum16 g l < 65536.
Proof.
  induction l as [|x l IH]; intros g Hg; simpl; [done|].
  apply IH. apply Z.mod_pos_bound. lia.
Qed.

Lemma sum16_eq l g : 0 <= g < 65536 → sum16 g l = (g + total l) mod 65536.
Proof.
  intros Hg. rewrite <- sum16_mod. symmetry. apply Z.mod_small.
  by apply sum16_range.
Qed.

(** ** The loops of [processFile] *)

Lemma take_drop_length {A} (l : list A) n :
  take n l ++ drop (length (take n l)) l = l.
Proof.
  rewrite length_take. destruct (Nat.min_spec n (length l)) as [[_ ->]|[H ->]].
  - apply take_drop.
  - by rewrite take_ge, drop_all, app_nil_r by lia.
Qed.

(** The number of banks that [len] bytes take. *)
Definition banksOf (len : Z) : Z := (len + (BANK_SIZE - 1)) / BANK_SIZE.

Lemma romx_done_eq d out b p1 p2 n1 n2 t1 t2 g :
  p1 = p2 → n1 = n2 → t1 = t2 →
  @Done (Handles * Romx)
        (Pipe (mkFile d p1) out, mkRomx (Some b) n1 t1 g)
  = Done (Pipe (mkFile d p2) out, mkRomx (Some b) n2 t2 g).
Proof. by intros -> -> ->. Qed.

(** The loop that copies ROMX from a pipe reads the input to its end and
    sums it, unless that takes more than 65536 banks with bank 0. *)
Lemma readRomxBanks_spec fuel : ∀ inp out buf nb tot gs,
  tot = Z.of_nat (length buf) → tot = (nb - 1) * BANK_SIZE →
  1 <= nb <= 0x10000 → 0x10001 <= Z.of_nat fuel + nb →
  0 <= gs < 65536 →
  (0x10000 * BANK_SIZE < BANK_SIZE + tot + Z.of_nat (length (unread inp)) →
   ∃ inp', readRomxBanks fuel (Pipe inp out) buf nb tot gs
           = Fatal TooManyBanks (Pipe inp' out))
  ∧ (BANK_SIZE + tot + Z.of_nat (length (unread inp)) <= 0x10000 * BANK_SIZE →
     readRomxBanks fuel (Pipe inp out) buf nb tot gs
     = Done (Pipe (mkFile (data inp) (pos inp + length (unread inp))) out,
             mkRomx (Some (buf ++ unread inp))
                    (nb + banksOf (Z.of_nat (length (unread inp))))
                    (tot + Z.of_nat (length (unread inp)))
                    (sum16 gs (unread inp)))).
Proof.
  induction fuel as [|fuel IH]; intros inp out buf nb tot gs Htot Hnb Hrange
    Hfuel Hgs; [lia|].
  cbn [readRomxBanks]. unfold readBytes. cbn [inputFile withInput].
  fold (unread inp).
  set (bank := take (Z.to_nat BANK_SIZE) (unread inp)).
  rewrite resize_all_alt by (unfold BANK_SIZE in *; lia).
  assert (unread inp = bank ++ unread (mkFile (data inp) (pos inp + length bank)))
    as Hrest.
  { unfold unread at 2. cbn [data pos]. rewrite <- drop_drop.
    symmetry. apply take_drop_length. }
  assert (length bank = Z.to_nat BANK_SIZE `min` length (unread inp))%nat
    as Hbank by apply length_take.
  destruct (Z.eqb_spec (Z.of_nat (length bank)) 0) as [Hz|Hnz]; cbn [negb].
  { (* nothing was read: the end of the input *)
    assert (unread inp = []) as Hnil.
    { apply length_zero_iff_nil. unfold BANK_SIZE in *. lia. }
    assert (bank = []) as -> by (subst bank; by rewrite Hnil).
    rewrite Hnil. split; [simpl; unfold BANK_SIZE in *; lia|]. intros _.
    rewrite !app_nil_r. simpl length. apply romx_done_eq; try lia.
    change (banksOf (Z.of_nat 0)) with 0. lia. }
  destruct (Z.eqb_spec nb 0x10000) as [Hmax|Hnmax].
  { split; [by eexists|]. unfold BANK_SIZE in *. lia. }
  rewrite sumBytes_sum16 by (rewrite length_app; lia).
  replace (Z.to_nat tot) with (length buf) by lia.
  rewrite drop_app_length, firstn_all.
  rewrite (Z.mod_small (nb + 1)) by lia.
  destruct (Z.eqb_spec (Z.of_nat (length bank)) BANK_SIZE) as [Hfull|Hpart];
    cbn [negb].
  - (* a whole bank: the loop goes on *)
    specialize (IH (mkFile (data inp) (pos inp + length bank)) out
                   (buf ++ bank) (nb + 1) (tot + Z.of_nat (length bank))
                   (sum16 gs bank)).
    destruct IH as [IHfatal IHdone].
    { rewrite length_app. lia. }
    { lia. }
    { lia. }
    { lia. }
    { by apply sum16_range. }
    rewrite Hrest, length_app. split.
    + intros H. apply IHfatal. lia.
    + intros H. rewrite IHdone by lia. cbn [data pos].
      rewrite sum16_app, <- !app_assoc. apply romx_done_eq; try lia.
      unfold banksOf, BANK_SIZE in *. Z.div_mod_to_equations. lia.
  - (* an incomplete bank: the end of the input *)
    assert (unread inp = bank) as Hall.
    { subst bank. symmetry. apply take_ge. unfold BANK_SIZE in *. lia. }
    rewrite Hall. split; [unfold BANK_SIZE in *; lia|]. intros _.
    apply romx_done_eq; try lia.
    unfold banksOf, BANK_SIZE in *. Z.div_mod_to_equations. lia.
Qed.

(** The loop that sums ROMX from a regular file reads the file to its end
    and sums what it reads. *)
Lemma sumRomxBanks_spec fuel : ∀ f gs,
  Z.of_nat (length (unread f)) < Z.of_nat fuel * BANK_SIZE →
  sumRomxBanks fuel (SameFile f) gs
  = Done (SameFile (mkFile (data f) (pos f + length (unread f))),
          sum16 gs (unread f)).
Proof.
  induction fuel as [|fuel IH]; intros f gs Hfuel; [lia|].
  cbn [sumRomxBanks]. unfold readBytes. cbn [inputFile withInput].
  fold (unread f).
  set (bank := take (Z.to_nat BANK_SIZE) (unread f)).
  rewrite sumBytes_all.
  assert (length bank = Z.to_nat BANK_SIZE `min` length (unread f))%nat
    as Hbank by apply length_take.
  destruct (Z.eqb_spec (Z.of_nat (length bank)) BANK_SIZE) as [Hfull|Hpart];
    cbn [negb].
  - assert (unread f = bank ++ unread (mkFile (data f) (pos f + length bank)))
      as Hrest.
    { unfold unread at 2. cbn [data pos]. rewrite <- drop_drop.
      symmetry. apply take_drop_length. }
    rewrite IH.
    + cbn [data pos]. rewrite Hrest, length_app, sum16_app.
      by rewrite Nat.add_assoc.
    + rewrite Hrest, length_app in Hfuel. unfold BANK_SIZE in *. lia.
  - assert (unread f = bank) as Hall.
    { subst bank. symmetry. apply take_ge. unfold BANK_SIZE in *. lia. }
    by rewrite Hall.
Qed.

Lemma outputFile_withOutput h f : outputFile (withOutput h f) = f.
Proof. by destruct h. Qed.

Lemma withOutput_withOutput h f g : withOutput (withOutput h f) g = withOutput h g.
Proof. by destruct h. Qed.

Lemma sameFd_withOutput h f : sameFd (withOutput h f) = sameFd h.
Proof. by destruct h. Qed.

(** Writing at the end of a file appends to it. *)
Lemma writeBytes_end h buf :
  pos (outputFile h) = length (data (outputFile h)) →
  writeBytes h buf
  = withOutput h (mkFile (data (outputFile h) ++ buf)
                         (length (data (outputFile h)) + length buf)).
Proof.
  intros Hpos. unfold writeBytes. rewrite Hpos.
  by rewrite firstn_all, drop_ge, app_nil_r by lia.
Qed.

(** The padding loop appends [len] bytes of the pad value. *)
Lemma writePadding_spec fuel : ∀ h len x,
  0 <= len < 2 ^ 64 → len <= Z.of_nat fuel * BANK_SIZE →
  pos (outputFile h) = length (data (outputFile h)) →
  writePadding fuel h (replicate (Z.to_nat BANK_SIZE) x) len
  = Done (withOutput h
            (mkFile (data (outputFile h) ++ replicate (Z.to_nat len) x)
                    (length (data (outputFile h)) + Z.to_nat len))).
Proof.
  induction fuel as [|fuel IH]; intros h len x Hlen Hfuel Hpos.
  - assert (len = 0) as -> by lia. simpl.
    rewrite app_nil_r, Nat.add_0_r, <- Hpos. by destruct h as [[]|? []].
  - cbn [writePadding].
    destruct (Z.eqb_spec len 0) as [->|Hnz].
    { simpl. rewrite app_nil_r, Nat.add_0_r, <- Hpos.
      by destruct h as [[]|? []]. }
    set (thisLen := if len >? BANK_SIZE then BANK_SIZE else len).
    assert (0 < thisLen <= len ∧ thisLen <= BANK_SIZE) as HthisLen.
    { subst thisLen. destruct (Z.gtb_spec len BANK_SIZE);
        unfold BANK_SIZE in *; lia. }
    rewrite take_replicate, writeBytes_end by done.
    rewrite Z.mod_small by lia.
    rewrite IH; rewrite ?outputFile_withOutput; cbn [data pos].
    + rewrite withOutput_withOutput, length_app, length_replicate,
        <- app_assoc, <- replicate_add, <- Nat.add_assoc.
      replace (Z.to_nat thisLen `min` Z.to_nat BANK_SIZE
               + Z.to_nat (len - thisLen))%nat with (Z.to_nat len)
        by (unfold BANK_SIZE in *; lia).
      done.
    + lia.
    + subst thisLen. destruct (Z.gtb_spec len BANK_SIZE);
        unfold BANK_SIZE in *; lia.
    + by rewrite length_app, length_replicate.
Qed.

(** ** What [main] guarantees about the options *)

(** [maxTitleLen()] *)
Definition maxTitleLen (C : Config) : nat :=
  match gameID C with
  | Some _ => 11
  | None => match model C with DMG => 16 | _ => 15 end
  end.

Definition lenWithin (s : option (list Z)) (len : nat) : bool :=
  match s with
  | Some t => (len <=? length t)%nat
  | None => true
  end.

(** The lengths are those of the strings, cut to the size of the fields, and
    a byte option holds a byte or [UNSPECIFIED]. *)
Definition wfConfig (C : Config) : bool :=
  (titleLen C <=? maxTitleLen C)%nat && lenWithin (title C) (titleLen C)
  && (gameIDLen C <=? 4)%nat && lenWithin (gameID C) (gameIDLen C)
  && (newLicenseeLen C <=? 2)%nat
  && lenWithin (newLicensee C) (newLicenseeLen C)
  && (0 <=? padValue C) && (padValue C <=? UNSPECIFIED).

(** ** The header fields leave the rest of bank 0 alone *)

Definition inRange (i start len : nat) : bool :=
  ((start <=? i) && (i <? start + len))%nat.

Definition given {A} (o : option A) : bool :=
  match o with
  | Some _ => true
  | None => false
  end.

Definition isColour (m : Model) : bool :=
  match m with
  | DMG => false
  | BOTH | CGB => true
  end.

(** The offsets that [applyHeaderEdits] writes. *)
Definition editsTouch (C : Config) (i : nat) : bool :=
  (hasBit (fixSpec C) (Z.lor FIX_LOGO TRASH_LOGO)
     && inRange i 0x104 (length ninLogo))
  || (given (title C) && inRange i 0x134 (titleLen C))
  || (given (gameID C) && inRange i 0x13f (gameIDLen C))
  || (isColour (model C) && (i =? 0x143)%nat)
  || (given (newLicensee C)
        && inRange i 0x144 (newLicenseeLen C))
  || (sgb C && (i =? 0x146)%nat)
  || ((cartridgeType C <? MBC_NONE) && (i =? 0x147)%nat)
  || (negb (ramSize C =? UNSPECIFIED) && (i =? 0x149)%nat)
  || (negb (japanese C) && (i =? 0x14a)%nat)
  || (negb (oldLicensee C =? UNSPECIFIED) && (i =? 0x14b)%nat)
  || (negb (romVersion C =? UNSPECIFIED) && (i =? 0x14c)%nat).

Lemma memcpy_length buf off src len : length (memcpy buf off src len) = length buf.
Proof. apply length_inserts. Qed.

Lemma memcpy_lookup_out buf off src len i :
  inRange i off len = false → memcpy buf off src len !! i = buf !! i.
Proof.
  unfold inRange, memcpy. intros H.
  destruct (decide (i < off)%nat); [by apply list_lookup_inserts_lt|].
  apply list_lookup_inserts_ge. rewrite length_take.
  apply andb_false_iff in H as [H%Nat.leb_gt|H%Nat.ltb_ge]; lia.
Qed.

Lemma foldl_insert_length (g : nat → Z) off l : ∀ buf : list Z,
  length (foldl (λ buf i, <[(i + off)%nat := g i]> buf) buf l) = length buf.
Proof.
  induction l as [|i l IH]; intros buf; simpl; [done|].
  by rewrite IH, length_insert.
Qed.

Lemma foldl_insert_lookup_out (g : nat → Z) off l j : ∀ buf : list Z,
  (∀ i, i ∈ l → (i + off)%nat ≠ j) →
  foldl (λ buf i, <[(i + off)%nat := g i]> buf) buf l !! j = buf !! j.
Proof.
  induction l as [|i l IH]; intros buf Hl; simpl; [done|].
  rewrite IH by (intros; apply Hl; by right).
  apply list_lookup_insert_ne. apply Hl. left.
Qed.

Lemma fixLogo_length C rom0 : length (fixLogo C rom0) = length rom0.
Proof.
  unfold fixLogo. repeat case_match;
    auto using memcpy_length, foldl_insert_length.
Qed.

Lemma fixLogo_lookup_out C rom0 i :
  hasBit (fixSpec C) (Z.lor FIX_LOGO TRASH_LOGO)
    && inRange i 0x104 (length ninLogo) = false →
  fixLogo C rom0 !! i = rom0 !! i.
Proof.
  unfold fixLogo. intros H.
  destruct (hasBit _ (Z.lor _ _)); [rewrite andb_true_l in H|done].
  destruct (hasBit _ _).
  - by apply memcpy_lookup_out.
  - apply foldl_insert_lookup_out. intros k Hk%elem_of_seq.
    unfold inRange in H.
    apply andb_false_iff in H as [H%Nat.leb_gt|H%Nat.ltb_ge]; lia.
Qed.

Lemma setByte_length (c : bool) j v (X : list Z) :
  length (if c then <[j:=v]> X else X) = length X.
Proof. destruct c; [apply length_insert|done]. Qed.

Lemma setByte_lookup_out (c : bool) j v (X : list Z) i :
  c && (i =? j)%nat = false → (if c then <[j:=v]> X else X) !! i = X !! i.
Proof.
  destruct c; [|done]. rewrite andb_true_l. intros H%Nat.eqb_neq.
  apply list_lookup_insert_ne. lia.
Qed.

Lemma memcpyOpt_length (o : option (list Z)) off len (X : list Z) :
  length (match o with Some t => memcpy X off t len | None => X end)
  = length X.
Proof. destruct o; [apply memcpy_length|done]. Qed.

Lemma memcpyOpt_lookup_out (o : option (list Z)) off len (X : list Z) i :
  given o && inRange i off len = false →
  (match o with Some t => memcpy X off t len | None => X end) !! i = X !! i.
Proof. destruct o; [|done]. rewrite andb_true_l. apply memcpy_lookup_out. Qed.

Lemma setModel_length (m : Model) (X : list Z) :
  length (match m with
          | DMG => X
          | BOTH => <[0x143%nat := 0x80]> X
          | CGB => <[0x143%nat := 0xc0]> X
          end) = length X.
Proof. destruct m; [done|apply length_insert..]. Qed.

Lemma setModel_lookup_out (m : Model) (X : list Z) i :
  isColour m && (i =? 0x143)%nat = false →
  (match m with
   | DMG => X
   | BOTH => <[0x143%nat := 0x80]> X
   | CGB => <[0x143%nat := 0xc0]> X
   end) !! i = X !! i.
Proof.
  destruct m; [done|..]; rewrite andb_true_l; intros H%Nat.eqb_neq;
    apply list_lookup_insert_ne; lia.
Qed.

Lemma applyHeaderEdits_length C rom0 :
  length (applyHeaderEdits C rom0) = length rom0.
Proof.
  unfold applyHeaderEdits. cbv zeta.
  rewrite !setByte_length, memcpyOpt_length, setModel_length,
    !memcpyOpt_length.
  apply fixLogo_length.
Qed.

(** [applyHeaderEdits] changes the bytes at the offsets of [editsTouch]
    only. *)
Lemma applyHeaderEdits_lookup_out C rom0 i :
  editsTouch C i = false → applyHeaderEdits C rom0 !! i = rom0 !! i.
Proof.
  unfold applyHeaderEdits, editsTouch. cbv zeta. intros H.
  repeat (apply orb_false_iff in H as [H ?]).
  rewrite !setByte_lookup_out by assumption.
  rewrite memcpyOpt_lookup_out by assumption.
  rewrite setModel_lookup_out by assumption.
  rewrite !memcpyOpt_lookup_out by assumption.
  by apply fixLogo_lookup_out.
Qed.

(** ** The image that [processFile] is to leave behind *)

Definition padRequested (C : Config) : bool :=
  negb (padValue C =? UNSPECIFIED).

(** The number of banks after padding, from the number of banks of the
    image: the computation of [handlePadding]. *)
Definition targetBanks (nbBanks : Z) : Z :=
  let nbBanks := if nbBanks =? 1 then 2 else nbBanks in
  if negb (Z.land nbBanks (nbBanks - 1) =? 0)
  then Z.shiftl 1 (32 - clz nbBanks) mod 2 ^ 32
  else nbBanks.

(** Bank 0, with zeros in the place of the global checksum, once the sum
    [sum] of the image is known. *)
Definition storeSum (C : Config) (rom0 : list Z) (sum : Z) : list Z :=
  let sum :=
    if hasBit (fixSpec C) TRASH_GLOBAL_SUM
    then Z.lnot sum mod 65536 else sum in
  <[0x14f%nat := Z.land sum 0xff mod 256]>
    (<[0x14e%nat := Z.shiftr sum 8 mod 256]> rom0).

(** Bank 0 with its global checksum, for the bytes [body] that follow
    bank 0 in the image. *)
Definition storeGlobalSum (C : Config) (rom0 body : list Z) : list Z :=
  if hasBit (fixSpec C) (Z.lor FIX_GLOBAL_SUM TRASH_GLOBAL_SUM) then
    let rom0 := <[0x14f%nat := 0]> (<[0x14e%nat := 0]> rom0) in
    storeSum C rom0 ((total rom0 + total body) mod 65536)
  else rom0.

(** The bytes of the image after [processFile], from the bytes [img] of the
    image before: both the regular file and the pipe come to this
    ([processFile_regular], [processFile_pipe]). *)
Definition fixedImage (C : Config) (img : list Z) : list Z :=
  let rom0 := applyHeaderEdits C (take (Z.to_nat BANK_SIZE) img) in
  let rest := drop (Z.to_nat BANK_SIZE) img in
  if padRequested C then
    let nbBanks := targetBanks (banksOf (Z.of_nat (length img))) in
    let rom0 :=
      <[0x148%nat := ctz (nbBanks / 2) mod 256]>
        (rom0 ++ replicate (Z.to_nat BANK_SIZE - length rom0)
                           (padValue C mod 256)) in
    let body :=
      rest ++ replicate (Z.to_nat (paddingLen nbBanks (Z.of_nat (length rest))))
                        (padValue C mod 256) in
    storeGlobalSum C (fixHeaderSum C rom0) body ++ body
  else storeGlobalSum C (fixHeaderSum C rom0) rest ++ rest.

(** *** Rounding up to a power of two *)

Lemma land_pred_pow2 n :
  0 < n → Z.land n (n - 1) = 0 → n = 2 ^ Z.log2 n.
Proof.
  intros Hn Hland. pose proof (Z.log2_spec n Hn) as [Hlo Hhi].
  destruct (Z.eq_dec n (2 ^ Z.log2 n)) as [|Hne]; [done|exfalso].
  pose proof (Z.log2_nonneg n) as Hk.
  assert (Z.log2 (n - 1) = Z.log2 n) as Hlog.
  { apply Z.log2_unique; [done|]. lia. }
  assert (Z.testbit (Z.land n (n - 1)) (Z.log2 n) = true) as Hbit.
  { rewrite Z.land_spec, Z.bit_log2 by done.
    rewrite <- Hlog. rewrite Z.bit_log2; [done|].
    assert (0 < 2 ^ Z.log2 n) by (apply Z.pow_pos_nonneg; lia). lia. }
  rewrite Hland, Z.bits_0 in Hbit. discriminate.
Qed.

(** The target is a power of two, at least 2 and at least the number of
    banks of the image. *)
Lemma targetBanks_spec n :
  1 <= n <= 0x10000 →
  ∃ k, 1 <= k <= 16 ∧ targetBanks n = 2 ^ k ∧ n <= targetBanks n
       ∧ (n <= 2 ^ (k - 1) → n = 1).
Proof.
  intros Hn. unfold targetBanks. cbv zeta.
  set (m := if n =? 1 then 2 else n).
  assert (2 <= m <= 0x10000 ∧ n <= m ∧ (n ≠ 1 → m = n) ∧ (n = 1 → m = 2))
    as (Hm & Hnm & Hne & Heq).
  { subst m. destruct (Z.eqb_spec n 1); lia. }
  pose proof (Z.log2_spec m ltac:(lia)) as [Hlo Hhi].
  assert (1 <= Z.log2 m) as Hk1.
  { change 1 with (Z.log2 2). apply Z.log2_le_mono. lia. }
  assert (Z.log2 m <= 16) as Hk16.
  { change 16 with (Z.log2 0x10000). apply Z.log2_le_mono. lia. }
  destruct (Z.eqb_spec (Z.land m (m - 1)) 0) as [Hpow|Hnpow]; cbn [negb].
  - apply land_pred_pow2 in Hpow; [|lia].
    exists (Z.log2 m). repeat split; try lia.
    intros Hle. destruct (Z.eq_dec n 1) as [|Hn1]; [done|exfalso].
    specialize (Hne Hn1).
    assert (2 ^ (Z.log2 m - 1) < 2 ^ Z.log2 m)
      by (apply Z.pow_lt_mono_r; lia). lia.
  - assert (Z.log2 m < 16) as Hlt.
    { destruct (Z.eq_dec (Z.log2 m) 16) as [E|]; [|lia].
      rewrite E in Hlo. assert (m = 0x10000) as -> by lia.
      by vm_compute in Hnpow. }
    unfold clz. replace (32 - (31 - Z.log2 m)) with (Z.succ (Z.log2 m)) by lia.
    rewrite Z.shiftl_mul_pow2, Z.mul_1_l by lia.
    assert (2 ^ Z.succ (Z.log2 m) <= 2 ^ 17) by (apply Z.pow_le_mono_r; lia).
    rewrite Z.mod_small by lia.
    exists (Z.succ (Z.log2 m)). repeat split; try lia.
    replace (Z.succ (Z.log2 m) - 1) with (Z.log2 m) by lia.
    intros Hle. destruct (Z.eq_dec n 1) as [|Hn1]; [done|exfalso].
    specialize (Hne Hn1).
    assert (m = 2 ^ Z.log2 m) as Hpow by lia.
    apply Hnpow. rewrite Hpow.
    replace (2 ^ Z.log2 m - 1) with (Z.ones (Z.log2 m))
      by (rewrite Z.ones_equiv; lia).
    rewrite Z.land_ones by lia. apply Z.mod_same. lia.
Qed.

(** [ctz] of a power of two is its exponent. *)
Lemma ctzFrom_pow2 bits : ∀ k,
  0 <= k < Z.of_nat bits → ctzFrom bits (2 ^ k) = k.
Proof.
  induction bits as [|bits IH]; intros k Hk; [lia|]. cbn [ctzFrom].
  destruct (Z.eq_dec k 0) as [->|Hk0]; [done|].
  assert (2 ^ k = 2 * 2 ^ (k - 1)) as ->.
  { rewrite <- Z.pow_succ_r by lia. f_equal. lia. }
  rewrite Z.odd_mul. cbn [Z.odd andb].
  rewrite Z.mul_comm, Z.div_mul by lia. rewrite IH by lia. lia.
Qed.

Lemma ctz_pow2 k : 0 <= k < 32 → ctz (2 ^ k) = k.
Proof. intros Hk. apply ctzFrom_pow2. lia. Qed.

(** ** The pieces of [processFile], one by one *)

Lemma handlePadding_none C rom0 rom0Len r :
  padRequested C = false →
  handlePadding C rom0 rom0Len r
  = Done (mkPadded rom0 rom0Len (nbBanks r) (globalSum r)).
Proof. unfold handlePadding, padRequested. by intros ->. Qed.

Lemma handlePadding_spec C rom0 rom0Len r :
  padRequested C = true →
  rom0Len = Z.of_nat (length rom0) → rom0Len <= BANK_SIZE →
  1 <= nbBanks r <= 0x10000 →
  (nbBanks r ≠ 1 → rom0Len = BANK_SIZE) →
  handlePadding C rom0 rom0Len r
  = Done (mkPadded
            (<[0x148%nat := ctz (targetBanks (nbBanks r) / 2) mod 256]>
               (rom0 ++ replicate (Z.to_nat BANK_SIZE - length rom0)
                                  (padValue C mod 256)))
            BANK_SIZE (targetBanks (nbBanks r))
            ((globalSum r
              + padValue C * paddingLen (targetBanks (nbBanks r))
                                        (totalRomxLen r)) mod 65536)).
Proof.
  unfold handlePadding, padRequested, targetBanks.
  intros -> Hlen Hmax Hn Hfull. cbv zeta.
  destruct (Z.eqb_spec (nbBanks r) 1) as [H1|H1].
  - destruct (Z.eqb_spec rom0Len BANK_SIZE) as [HB|HB]; cbn [negb].
    + change (2 >=? 2) with true. cbv iota.
      replace (Z.to_nat BANK_SIZE - length rom0)%nat with 0%nat by lia.
      cbn [replicate]. by rewrite app_nil_r, HB.
    + change (2 >=? 2) with true. cbv iota.
      rewrite firstn_all2 by lia.
      by replace (Z.to_nat (BANK_SIZE - rom0Len))
        with (Z.to_nat BANK_SIZE - length rom0)%nat by lia.
  - specialize (Hfull H1). destruct (Z.eqb_spec rom0Len BANK_SIZE); [|done].
    destruct (Z.geb_spec (nbBanks r) 2); [|lia].
    replace (Z.to_nat BANK_SIZE - length rom0)%nat with 0%nat by lia.
    cbn [replicate]. by rewrite app_nil_r, Hfull.
Qed.

Lemma fixGlobalSum_pipe C inp out rom0 rom0Len gs :
  rom0Len = Z.of_nat (length rom0) →
  fixGlobalSum C (Pipe inp out) rom0 rom0Len gs
  = Done (Pipe inp out,
          if hasBit (fixSpec C) (Z.lor FIX_GLOBAL_SUM TRASH_GLOBAL_SUM)
          then let rom0 := <[0x14f%nat := 0]> (<[0x14e%nat := 0]> rom0) in
               storeSum C rom0 (sum16 gs rom0)
          else rom0).
Proof.
  intros Hlen. unfold fixGlobalSum.
  destruct (hasBit _ (Z.lor _ _)); [|done]. cbn [sameFd]. cbv zeta.
  replace (Z.to_nat rom0Len) with
    (length (<[0x14f%nat := 0]> (<[0x14e%nat := 0]> rom0)))
    by (rewrite !length_insert; lia).
  by rewrite sumBytes_all.
Qed.

Lemma restFuel_enough f :
  Z.of_nat (length (unread f)) < Z.of_nat (restFuel (SameFile f)) * BANK_SIZE.
Proof.
  unfold restFuel. cbn [inputFile].
  unfold BANK_SIZE. Z.div_mod_to_equations. lia.
Qed.

Lemma fixGlobalSum_regular C f rom0 rom0Len gs :
  rom0Len = Z.of_nat (length rom0) →
  ∃ p, fixGlobalSum C (SameFile f) rom0 rom0Len gs
  = Done (SameFile (mkFile (data f) p),
          if hasBit (fixSpec C) (Z.lor FIX_GLOBAL_SUM TRASH_GLOBAL_SUM)
          then let rom0 := <[0x14f%nat := 0]> (<[0x14e%nat := 0]> rom0) in
               storeSum C rom0 (sum16 (sum16 gs rom0) (unread f))
          else rom0).
Proof.
  intros Hlen. unfold fixGlobalSum.
  destruct (hasBit _ (Z.lor _ _)); [|by exists (pos f); destruct f].
  cbn [sameFd]. cbv zeta.
  replace (Z.to_nat rom0Len) with
    (length (<[0x14f%nat := 0]> (<[0x14e%nat := 0]> rom0)))
    by (rewrite !length_insert; lia).
  rewrite sumBytes_all, sumRomxBanks_spec by apply restFuel_enough.
  by eexists.
Qed.

(** The bytes of the ROMX buffer that [writeBack] writes. *)
Definition romxBytes (r : Romx) : list Z :=
  match romx r with
  | Some buf => take (Z.to_nat (totalRomxLen r)) buf
  | None => []
  end.

Definition paddingBytes (C : Config) (nbBanks totalRomxLen : Z) : list Z :=
  if padRequested C
  then replicate (Z.to_nat (paddingLen nbBanks totalRomxLen))
                 (padValue C mod 256)
  else [].

Lemma paddingLen_range n t : 0 <= paddingLen n t < 2 ^ 64.
Proof. unfold paddingLen. apply Z.mod_pos_bound. lia. Qed.

Lemma paddingFuel_enough len :
  0 <= len → len <= Z.of_nat (Z.to_nat (len / BANK_SIZE + 1)) * BANK_SIZE.
Proof. intros H. unfold BANK_SIZE. Z.div_mod_to_equations. lia. Qed.

Lemma writeBack_pipe C inp out rom0 rom0Len r nbBanks :
  pos out = length (data out) →
  rom0Len = Z.of_nat (length rom0) →
  ∃ p, writeBack C (Pipe inp out) rom0 rom0Len r nbBanks
  = Done (Pipe inp
            (mkFile (data out ++ rom0 ++ romxBytes r
                       ++ paddingBytes C nbBanks (totalRomxLen r)) p)).
Proof.
  intros Hpos Hlen. unfold writeBack, paddingBytes, padRequested, romxBytes.
  cbn [sameFd andb]. cbv zeta.
  rewrite firstn_all2 by lia.
  rewrite (writeBytes_end (Pipe inp out)) by done. cbn [outputFile withOutput data].
  set (h1 := Pipe inp _).
  assert (pos (outputFile h1) = length (data (outputFile h1))) as Hpos1.
  { subst h1. cbn [outputFile pos data]. by rewrite length_app. }
  assert (∃ h2 : Handles,
    h2 = match romx r with
         | Some buf => writeBytes h1 (take (Z.to_nat (totalRomxLen r)) buf)
         | None => h1
         end
    ∧ inputFile h2 = inp ∧ sameFd h2 = false
    ∧ pos (outputFile h2) = length (data (outputFile h2))
    ∧ data (outputFile h2)
      = data out ++ rom0
          ++ match romx r with
             | Some buf => take (Z.to_nat (totalRomxLen r)) buf
             | None => []
             end) as (h2 & <- & Hin & Hsame & Hpos2 & Hdata).
  { eexists. split; [done|]. destruct (romx r) as [buf|].
    - rewrite writeBytes_end by done. subst h1.
      cbn [inputFile sameFd outputFile withOutput pos data].
      by rewrite !length_app, <- app_assoc.
    - subst h1. cbn [inputFile sameFd outputFile pos data].
      by rewrite app_nil_r, length_app. }
  rewrite Hsame.
  destruct (negb (padValue C =? UNSPECIFIED)).
  - rewrite writePadding_spec;
      [|apply paddingLen_range|apply paddingFuel_enough, paddingLen_range|done].
    rewrite Hdata, <- !app_assoc.
    destruct h2 as [?|inp2 out2]; [done|]. cbn in Hin. subst inp2.
    by eexists.
  - destruct h2 as [?|inp2 out2]; [done|]. cbn in Hin, Hdata, Hpos2.
    subst inp2. destruct out2 as [d2 p2]. cbn in Hdata, Hpos2. subst d2.
    rewrite !app_nil_r. by eexists.
Qed.

Lemma writeBack_regular C f rom0 rom0Len r nbBanks :
  romx r = None →
  rom0Len = Z.of_nat (length rom0) → 0x150 <= rom0Len →
  let header :=
    take (if padRequested C then length rom0 else 0x150%nat) rom0 in
  ∃ p, writeBack C (SameFile f) rom0 rom0Len r nbBanks
  = Done (SameFile
            (mkFile ((header ++ drop (length header) (data f))
                       ++ paddingBytes C nbBanks (totalRomxLen r)) p)).
Proof.
  intros Hromx Hlen Hmin header.
  unfold writeBack, paddingBytes, padRequested in *.
  rewrite Hromx. cbn [sameFd andb lseekSet outputFile withOutput data].
  cbv zeta.
  assert (take (Z.to_nat (if padValue C =? UNSPECIFIED then 336 else rom0Len))
               rom0 = header) as ->.
  { subst header. destruct (padValue C =? UNSPECIFIED); cbn [negb];
      f_equal; lia. }
  assert (writeBytes (SameFile (mkFile (data f) 0)) header
          = SameFile (mkFile (header ++ drop (length header) (data f))
                             (length header))) as ->.
  { unfold writeBytes. cbn [outputFile withOutput data pos].
    by rewrite take_0, app_nil_l, Nat.add_0_l. }
  cbn [sameFd].
  destruct (negb (padValue C =? UNSPECIFIED)).
  - unfold lseekEnd. cbn [outputFile withOutput data].
    rewrite writePadding_spec;
      [|apply paddingLen_range|apply paddingFuel_enough, paddingLen_range|done].
    cbn [outputFile withOutput data]. by eexists.
  - rewrite app_nil_r. by eexists.
Qed.

(** *** The checksums leave the rest of bank 0 alone *)

Definition sumsTouch (C : Config) (i : nat) : bool :=
  (hasBit (fixSpec C) (Z.lor FIX_HEADER_SUM TRASH_HEADER_SUM)
     && (i =? 0x14d)%nat)
  || (hasBit (fixSpec C) (Z.lor FIX_GLOBAL_SUM TRASH_GLOBAL_SUM)
        && ((i =? 0x14e)%nat || (i =? 0x14f)%nat)).

Lemma fixHeaderSum_length C rom0 : length (fixHeaderSum C rom0) = length rom0.
Proof. unfold fixHeaderSum. apply setByte_length. Qed.

Lemma fixHeaderSum_lookup_out C rom0 i :
  hasBit (fixSpec C) (Z.lor FIX_HEADER_SUM TRASH_HEADER_SUM)
    && (i =? 0x14d)%nat = false →
  fixHeaderSum C rom0 !! i = rom0 !! i.
Proof. unfold fixHeaderSum. apply setByte_lookup_out. Qed.

Lemma storeSum_length C rom0 sum : length (storeSum C rom0 sum) = length rom0.
Proof. unfold storeSum. by rewrite !length_insert. Qed.

Lemma storeGlobalSum_length C rom0 body :
  length (storeGlobalSum C rom0 body) = length rom0.
Proof.
  unfold storeGlobalSum. destruct (hasBit _ _); [|done].
  cbv zeta. by rewrite storeSum_length, !length_insert.
Qed.

Lemma storeGlobalSum_lookup_out C rom0 body i :
  hasBit (fixSpec C) (Z.lor FIX_GLOBAL_SUM TRASH_GLOBAL_SUM)
    && ((i =? 0x14e)%nat || (i =? 0x14f)%nat) = false →
  storeGlobalSum C rom0 body !! i = rom0 !! i.
Proof.
  unfold storeGlobalSum, storeSum. destruct (hasBit _ (Z.lor _ _)); [|done].
  rewrite andb_true_l. intros [H1%Nat.eqb_neq H2%Nat.eqb_neq]%orb_false_iff.
  cbv zeta. by rewrite !list_lookup_insert_ne by lia.
Qed.

(** Under the lengths that [main] enforces, the header fields lie below
    0x150. *)
Lemma editsTouch_header C i :
  wfConfig C = true → editsTouch C i = true → (i < 0x150)%nat.
Proof.
  unfold wfConfig, editsTouch, inRange, maxTitleLen.
  intros Hwf H.
  repeat (apply andb_true_iff in Hwf as [Hwf ?]).
  apply Nat.leb_le in Hwf.
  repeat match goal with
  | H : (_ <=? _)%nat = true |- _ => apply Nat.leb_le in H
  end.
  change (length ninLogo) with 48%nat in H.
  assert (titleLen C <= 16)%nat
    by (destruct (gameID C), (model C); lia).
  repeat (apply orb_true_iff in H as [H|H]);
    apply andb_true_iff in H as [_ H];
    first [ apply Nat.eqb_eq in H; lia
          | apply andb_true_iff in H as [?%Nat.leb_le ?%Nat.ltb_lt]; lia ].
Qed.

Lemma sumsTouch_header C i : sumsTouch C i = true → (i < 0x150)%nat.
Proof.
  unfold sumsTouch. intros H.
  repeat (apply orb_true_iff in H as [H|H]);
    apply andb_true_iff in H as [_ H];
    repeat (apply orb_true_iff in H as [H|H]); apply Nat.eqb_eq in H; lia.
Qed.

(** *** ROMX, from a pipe and from a regular file *)

Lemma banksOf_split len :
  BANK_SIZE <= len → banksOf len = 1 + banksOf (len - BANK_SIZE).
Proof. unfold banksOf, BANK_SIZE. intros H. Z.div_mod_to_equations. lia. Qed.

Lemma banksOf_one len : 0 < len <= BANK_SIZE → banksOf len = 1.
Proof. unfold banksOf, BANK_SIZE. intros H. Z.div_mod_to_equations. lia. Qed.

Lemma banksOf_range len :
  0 < len <= 0x10000 * BANK_SIZE → 1 <= banksOf len <= 0x10000.
Proof. unfold banksOf, BANK_SIZE. intros H. Z.div_mod_to_equations. lia. Qed.

Lemma handleRomx_pipe inp out img :
  let rom0 := take (Z.to_nat BANK_SIZE) img in
  let rest := drop (Z.to_nat BANK_SIZE) img in
  let inp1 := mkFile (data inp) (pos inp + length rom0) in
  img = unread inp →
  (0 < length img)%nat →
  Z.of_nat (length img) <= 0x10000 * BANK_SIZE →
  ∃ inp' r,
    handleRomx (Pipe inp1 out) 0 (Z.of_nat (length rom0))
    = Done (Pipe inp' out, r)
    ∧ romxBytes r = rest
    ∧ nbBanks r = banksOf (Z.of_nat (length img))
    ∧ totalRomxLen r = Z.of_nat (length rest)
    ∧ globalSum r = sum16 0 rest.
Proof.
  intros rom0 rest inp1 Himg Hpos Hmax. unfold handleRomx. cbn [sameFd].
  assert (unread inp1 = rest) as Hrest.
  { subst inp1 rest rom0. unfold unread. cbn [data pos].
    rewrite <- drop_drop. fold (unread inp). rewrite <- Himg.
    rewrite length_take.
    destruct (Nat.min_spec (Z.to_nat BANK_SIZE) (length img)) as [[_ ->]|[H ->]];
      [done|]. by rewrite !drop_ge by lia. }
  assert (length rom0 = Z.to_nat BANK_SIZE `min` length img)%nat as Hrom0
    by apply length_take.
  assert (length rest = length img - Z.to_nat BANK_SIZE)%nat as Hlrest
    by apply length_drop.
  destruct (Z.eqb_spec (Z.of_nat (length rom0)) BANK_SIZE) as [Hfull|Hpart].
  - destruct (readRomxBanks_spec romxFuel inp1 out [] 1 0 0) as [_ Hdone];
      try (unfold romxFuel, BANK_SIZE in *; simpl length; lia).
    rewrite Hdone by (rewrite Hrest; unfold BANK_SIZE in *; lia).
    rewrite Hrest. eexists _, _. split; [done|].
    unfold romxBytes. cbn [romx nbBanks totalRomxLen globalSum app].
    split; [|split; [|split]]; try done.
    + apply firstn_all2. lia.
    + rewrite (banksOf_split (Z.of_nat (length img))) by lia.
      do 2 f_equal. lia.
  - eexists _, _. split; [done|].
    unfold romxBytes. cbn [romx nbBanks totalRomxLen globalSum].
    assert (rest = []) as ->.
    { apply length_zero_iff_nil. lia. }
    split; [|split; [|split]]; try done.
    symmetry. apply banksOf_one. lia.
Qed.

Lemma handleRomx_regular f (img : list Z) :
  let rom0 := take (Z.to_nat BANK_SIZE) img in
  let rest := drop (Z.to_nat BANK_SIZE) img in
  (0 < length img)%nat →
  Z.of_nat (length img) < 0x10000 * BANK_SIZE →
  ∃ r,
    handleRomx (SameFile f) (Z.of_nat (length img)) (Z.of_nat (length rom0))
    = Done (SameFile f, r)
    ∧ romx r = None
    ∧ nbBanks r = banksOf (Z.of_nat (length img))
    ∧ totalRomxLen r = Z.of_nat (length rest)
    ∧ globalSum r = 0.
Proof.
  intros rom0 rest Hpos Hmax. unfold handleRomx. cbn [sameFd].
  destruct (Z.geb_spec (Z.of_nat (length img)) (65536 * BANK_SIZE)); [lia|].
  eexists. split; [done|]. cbn [romx nbBanks totalRomxLen globalSum].
  pose proof (banksOf_range (Z.of_nat (length img)) ltac:(lia)).
  split; [done|]. split; [|split; [|done]].
  - fold (banksOf (Z.of_nat (length img))). apply Z.mod_small. lia.
  - subst rest. rewrite length_drop.
    destruct (Z.geb_spec (Z.of_nat (length img)) BANK_SIZE); lia.
Qed.

(** *** The running sum is the sum of the image *)

Lemma sum16_0_range l : 0 <= sum16 0 l < 65536.
Proof. apply sum16_range. lia. Qed.

Lemma padValue_byte C :
  wfConfig C = true → padRequested C = true → padValue C mod 256 = padValue C.
Proof.
  unfold wfConfig, padRequested, UNSPECIFIED. intros Hwf Hpad.
  repeat (apply andb_true_iff in Hwf as [Hwf ?]).
  apply Z.mod_small. lia.
Qed.

(** *** [processFile] on a pipe *)

Lemma take_bank_length (img : list Z) :
  (0x150 <= length img)%nat →
  (0x150 <= length (take (Z.to_nat BANK_SIZE) img) <= Z.to_nat BANK_SIZE)%nat.
Proof. intros H. rewrite length_take. unfold BANK_SIZE. lia. Qed.

Theorem processFile_pipe C inp out e rep :
  wfConfig C = true →
  pos out = length (data out) →
  (0x150 <= length (unread inp))%nat →
  Z.of_nat (length (unread inp)) <= 0x10000 * BANK_SIZE →
  ∃ inp' p,
    processFile C 0 (mkState (Pipe inp out) e rep)
    = Done (mkState
              (Pipe inp' (mkFile (data out ++ fixedImage C (unread inp)) p))
              e rep).
Proof.
  intros Hwf Hpos Hmin Hmax. unfold processFile, readBytes, withHandles.
  cbn [handles sameFd inputFile withInput nbErrors reported].
  change (Bool.eqb false (0 =? 0)) with false. cbv iota.
  set (img := unread inp) in *.
  pose proof (take_bank_length img Hmin) as Hrom0.
  set (rom0 := take (Z.to_nat BANK_SIZE) img) in *.
  destruct (Z.ltb_spec (Z.of_nat (length rom0)) 336); [lia|].
  destruct (handleRomx_pipe inp out img eq_refl ltac:(lia) Hmax)
    as (inp' & r & Hromx & Hbytes & Hnb & Htot & Hgs).
  fold rom0 in Hromx. rewrite Hromx. clear Hromx.
  pose proof (applyHeaderEdits_length C rom0) as Hedit.
  pose proof (banksOf_range (Z.of_nat (length img)) ltac:(lia)) as Hbanks.
  unfold fixedImage. fold img rom0. cbv zeta.
  set (rest := drop (Z.to_nat BANK_SIZE) img) in *.
  destruct (padRequested C) eqn:Hpad.
  - rewrite handlePadding_spec; try (unfold BANK_SIZE in *; lia); try done.
    2:{ rewrite Hnb. intros Hne. subst rom0.
        rewrite length_take in *.
        destruct (decide (Z.of_nat (length img) < BANK_SIZE));
          [|unfold BANK_SIZE in *; lia].
        rewrite banksOf_one in Hne; unfold BANK_SIZE in *; lia. }
    cbn [padRom0 padRom0Len padNbBanks padGlobalSum].
    rewrite Hnb, Htot, Hgs, Hedit.
    set (rom0h := fixHeaderSum C _).
    assert (length rom0h = Z.to_nat BANK_SIZE) as Hlen.
    { subst rom0h. rewrite fixHeaderSum_length, length_insert, length_app,
        length_replicate. lia. }
    rewrite fixGlobalSum_pipe by lia.
    destruct (writeBack_pipe C inp' out
                (if hasBit (fixSpec C) (Z.lor FIX_GLOBAL_SUM TRASH_GLOBAL_SUM)
                 then let z := <[0x14f%nat := 0]> (<[0x14e%nat := 0]> rom0h) in
                      storeSum C z (sum16 ((sum16 0 rest
                        + padValue C
                          * paddingLen (targetBanks (banksOf (Z.of_nat (length img))))
                              (Z.of_nat (length rest))) mod 65536) z)
                 else rom0h)
                BANK_SIZE r
                (targetBanks (banksOf (Z.of_nat (length img)))) Hpos)
      as [p ->].
    { destruct (hasBit _ _); cbv zeta;
        rewrite ?storeSum_length, ?length_insert; lia. }
    exists inp', p. unfold paddingBytes. rewrite Hpad, Hbytes, Htot.
    do 6 f_equal. unfold storeGlobalSum.
    destruct (hasBit _ _); [|done]. cbv zeta. f_equal.
    rewrite sum16_eq by (apply Z.mod_pos_bound; lia).
    rewrite (sum16_eq rest 0) by lia. rewrite Z.add_0_l.
    rewrite Zplus_mod_idemp_l.
    assert (0 <= paddingLen (targetBanks (banksOf (Z.of_nat (length img))))
                            (Z.of_nat (length rest))) by apply paddingLen_range.
    rewrite padValue_byte by done.
    rewrite total_app, total_replicate, Z2Nat.id by done.
    rewrite <- !Z.add_assoc, Zplus_mod_idemp_l. f_equal. lia.
  - rewrite handlePadding_none by done.
    cbn [padRom0 padRom0Len padNbBanks padGlobalSum].
    rewrite Hgs.
    set (rom0h := fixHeaderSum C _).
    assert (length rom0h = length rom0) as Hlen.
    { subst rom0h. by rewrite fixHeaderSum_length. }
    rewrite fixGlobalSum_pipe by lia.
    destruct (writeBack_pipe C inp' out
                (if hasBit (fixSpec C) (Z.lor FIX_GLOBAL_SUM TRASH_GLOBAL_SUM)
                 then let z := <[0x14f%nat := 0]> (<[0x14e%nat := 0]> rom0h) in
                      storeSum C z (sum16 (sum16 0 rest) z)
                 else rom0h)
                (Z.of_nat (length rom0)) r (nbBanks r) Hpos)
      as [p ->].
    { destruct (hasBit _ _); cbv zeta;
        rewrite ?storeSum_length, ?length_insert; lia. }
    exists inp', p. unfold paddingBytes. rewrite Hpad, Hbytes, app_nil_r.
    do 6 f_equal. unfold storeGlobalSum.
    destruct (hasBit _ _); [|done]. cbv zeta. f_equal.
    rewrite sum16_eq by apply sum16_0_range.
    rewrite (sum16_eq rest 0) by lia. rewrite Z.add_0_l.
    rewrite Zplus_mod_idemp_l. f_equal. lia.
Qed.

(** *** [processFile] on a regular file *)

Lemma nat_eqb_false_high (i j : nat) : (j < i)%nat → (i =? j)%nat = false.
Proof. intros H. apply Nat.eqb_neq. lia. Qed.

(** Without padding, bank 0 is as read from 0x150 on. *)
Lemma finalRom0_lookup_high C rom0 body i :
  wfConfig C = true → (0x150 <= i)%nat →
  storeGlobalSum C (fixHeaderSum C (applyHeaderEdits C rom0)) body !! i
  = rom0 !! i.
Proof.
  intros Hwf Hi.
  rewrite storeGlobalSum_lookup_out
    by (rewrite !nat_eqb_false_high by lia; apply andb_false_r).
  rewrite fixHeaderSum_lookup_out
    by (rewrite !nat_eqb_false_high by lia; apply andb_false_r).
  apply applyHeaderEdits_lookup_out.
  destruct (editsTouch C i) eqn:Ht; [|done].
  apply editsTouch_header in Ht; [lia|done].
Qed.

Lemma finalRom0_length C rom0 body :
  length (storeGlobalSum C (fixHeaderSum C (applyHeaderEdits C rom0)) body)
  = length rom0.
Proof.
  by rewrite storeGlobalSum_length, fixHeaderSum_length,
    applyHeaderEdits_length.
Qed.

(** Writing the first 0x150 bytes of the new bank 0 over the image gives the
    new bank 0 followed by the rest of the image. *)
Lemma header_splice C (img body : list Z) :
  wfConfig C = true → (0x150 <= length img)%nat →
  let rom0 := take (Z.to_nat BANK_SIZE) img in
  let rom0' :=
    storeGlobalSum C (fixHeaderSum C (applyHeaderEdits C rom0)) body in
  take 0x150 rom0' ++ drop 0x150 img
  = rom0' ++ drop (Z.to_nat BANK_SIZE) img.
Proof.
  intros Hwf Hmin rom0 rom0'.
  pose proof (take_bank_length img Hmin) as Hrom0. fold rom0 in Hrom0.
  assert (length rom0' = length rom0) as Hlen by apply finalRom0_length.
  rewrite <- (take_drop 0x150 rom0') at 2. rewrite <- app_assoc. f_equal.
  assert (drop 0x150 rom0' = drop 0x150 rom0) as ->.
  { apply list_eq. intros i. rewrite !lookup_drop.
    apply finalRom0_lookup_high; [done|lia]. }
  rewrite <- (take_drop (Z.to_nat BANK_SIZE) img) at 1. fold rom0.
  by rewrite drop_app_le by lia.
Qed.

Theorem processFile_regular C f e rep :
  wfConfig C = true →
  pos f = 0%nat →
  (0x150 <= length (data f))%nat →
  Z.of_nat (length (data f)) < 0x10000 * BANK_SIZE →
  ∃ p,
    processFile C (Z.of_nat (length (data f))) (mkState (SameFile f) e rep)
    = Done (mkState (SameFile (mkFile (fixedImage C (data f)) p)) e rep).
Proof.
  intros Hwf Hpos Hmin Hmax. unfold processFile, readBytes, withHandles.
  cbn [handles sameFd inputFile withInput nbErrors reported].
  destruct (Z.eqb_spec (Z.of_nat (length (data f))) 0); [lia|].
  cbn [Bool.eqb].
  assert (unread f = data f) as -> by (unfold unread; by rewrite Hpos).
  rewrite Hpos, Nat.add_0_l.
  set (img := data f) in *.
  pose proof (take_bank_length img Hmin) as Hrom0.
  set (rom0 := take (Z.to_nat BANK_SIZE) img) in *.
  destruct (Z.ltb_spec (Z.of_nat (length rom0)) 336); [lia|].
  set (f1 := mkFile img (length rom0)).
  destruct (handleRomx_regular f1 img ltac:(lia) Hmax)
    as (r & Hromx & Hnull & Hnb & Htot & Hgs).
  fold rom0 in Hromx. rewrite Hromx. clear Hromx.
  pose proof (applyHeaderEdits_length C rom0) as Hedit.
  pose proof (banksOf_range (Z.of_nat (length img)) ltac:(lia)) as Hbanks.
  unfold fixedImage. fold rom0. cbv zeta.
  set (rest := drop (Z.to_nat BANK_SIZE) img) in *.
  assert (unread f1 = rest) as Hrest.
  { subst f1 rest rom0. unfold unread. cbn [data pos].
    rewrite length_take.
    destruct (Nat.min_spec (Z.to_nat BANK_SIZE) (length img)) as [[_ ->]|[? ->]];
      [done|]. by rewrite !drop_ge by lia. }
  destruct (padRequested C) eqn:Hpad.
  - rewrite handlePadding_spec; try (unfold BANK_SIZE in *; lia); try done.
    2:{ rewrite Hnb. intros Hne. subst rom0.
        rewrite length_take in *.
        destruct (decide (Z.of_nat (length img) < BANK_SIZE));
          [|unfold BANK_SIZE in *; lia].
        rewrite banksOf_one in Hne; unfold BANK_SIZE in *; lia. }
    cbn [padRom0 padRom0Len padNbBanks padGlobalSum].
    rewrite Hnb, Htot, Hgs, Hedit.
    set (rom0h := fixHeaderSum C _).
    assert (length rom0h = Z.to_nat BANK_SIZE) as Hlen.
    { subst rom0h. rewrite fixHeaderSum_length, length_insert, length_app,
        length_replicate. lia. }
    set (N := targetBanks (banksOf (Z.of_nat (length img)))).
    set (body := rest ++ replicate _ _).
    destruct (fixGlobalSum_regular C f1 rom0h BANK_SIZE
                ((0 + padValue C * paddingLen N (Z.of_nat (length rest)))
                   mod 65536) ltac:(lia)) as [p1 ->].
    rewrite Hrest.
    assert ((if hasBit (fixSpec C) (Z.lor FIX_GLOBAL_SUM TRASH_GLOBAL_SUM)
             then let z := <[0x14f%nat := 0]> (<[0x14e%nat := 0]> rom0h) in
                  storeSum C z (sum16 (sum16
                    ((0 + padValue C * paddingLen N (Z.of_nat (length rest)))
                       mod 65536) z) rest)
             else rom0h) = storeGlobalSum C rom0h body) as ->.
    { unfold storeGlobalSum. destruct (hasBit _ _); [|done]. cbv zeta. f_equal.
      rewrite (sum16_eq rest) by (apply sum16_range, Z.mod_pos_bound; lia).
      rewrite sum16_eq by (apply Z.mod_pos_bound; lia).
      assert (0 <= paddingLen N (Z.of_nat (length rest)))
        by apply paddingLen_range.
      subst body. rewrite padValue_byte by done.
      rewrite total_app, total_replicate, Z2Nat.id by done.
      rewrite Z.add_0_l, Zplus_mod_idemp_l, <- Z.add_assoc,
        Zplus_mod_idemp_l.
      f_equal. lia. }
    destruct (writeBack_regular C (mkFile (data f1) p1)
                (storeGlobalSum C rom0h body) BANK_SIZE r N Hnull)
      as [p ->].
    { rewrite storeGlobalSum_length. lia. }
    { unfold BANK_SIZE. lia. }
    exists p. unfold paddingBytes. rewrite Hpad, Htot. cbn [data].
    do 4 f_equal. rewrite firstn_all, storeGlobalSum_length, Hlen.
    by rewrite <- app_assoc.
  - rewrite handlePadding_none by done.
    cbn [padRom0 padRom0Len padNbBanks padGlobalSum].
    rewrite Hgs.
    set (rom0h := fixHeaderSum C _).
    assert (length rom0h = length rom0) as Hlen.
    { subst rom0h. by rewrite fixHeaderSum_length. }
    destruct (fixGlobalSum_regular C f1 rom0h (Z.of_nat (length rom0)) 0
                ltac:(lia)) as [p1 ->].
    rewrite Hrest.
    assert ((if hasBit (fixSpec C) (Z.lor FIX_GLOBAL_SUM TRASH_GLOBAL_SUM)
             then let z := <[0x14f%nat := 0]> (<[0x14e%nat := 0]> rom0h) in
                  storeSum C z (sum16 (sum16 0 z) rest)
             else rom0h) = storeGlobalSum C rom0h rest) as ->.
    { unfold storeGlobalSum. destruct (hasBit _ _); [|done]. cbv zeta. f_equal.
      rewrite (sum16_eq rest) by apply sum16_0_range.
      rewrite sum16_eq by lia.
      rewrite Z.add_0_l, Zplus_mod_idemp_l. done. }
    destruct (writeBack_regular C (mkFile (data f1) p1)
                (storeGlobalSum C rom0h rest) (Z.of_nat (length rom0)) r
                (nbBanks r) Hnull)
      as [p ->].
    { rewrite storeGlobalSum_length. lia. }
    { lia. }
    exists p. unfold paddingBytes. rewrite Hpad, app_nil_r. cbn [data].
    do 4 f_equal.
    rewrite length_take, storeGlobalSum_length, Hlen.
    replace (336 `min` length rom0)%nat with 336%nat by lia.
    subst rom0h. by apply header_splice.
Qed.

(** ** One statement for both kinds of descriptors *)

(** The image that [processFile] is given, the [fileSize] that
    [processFilename] passes for it, and the image that it leaves. *)
Definition imageOf (h : Handles) : list Z := unread (inputFile h).

Definition fileSizeOf (h : Handles) : Z :=
  if sameFd h then Z.of_nat (length (data (inputFile h))) else 0.

Definition written (h : Handles) : list Z := data (outputFile h).

(** The descriptors as [processFilename] hands them over: a regular file at
    its beginning, or an output that nothing was written to yet. *)
Definition fresh (h : Handles) : bool :=
  match h with
  | SameFile f => (pos f =? 0)%nat
  | Pipe _ out => (pos out =? 0)%nat && (length (data out) =? 0)%nat
  end.

(** The image holds the header, and is below the size at which
    [processFile] gives up. *)
Definition sizeOk (h : Handles) : bool :=
  (0x150 <=? length (imageOf h))%nat
  && (if sameFd h
      then Z.of_nat (length (imageOf h)) <? 0x10000 * BANK_SIZE
      else Z.of_nat (length (imageOf h)) <=? 0x10000 * BANK_SIZE).

(** [processFile] returns, without an error, and leaves [fixedImage]. *)
Theorem processFile_fixedImage C h e rep :
  wfConfig C = true → fresh h = true → sizeOk h = true →
  ∃ h', processFile C (fileSizeOf h) (mkState h e rep)
        = Done (mkState h' e rep)
        ∧ written h' = fixedImage C (imageOf h).
Proof.
  intros Hwf Hfresh Hsize. unfold sizeOk in Hsize.
  apply andb_true_iff in Hsize as [Hmin%Nat.leb_le Hmax].
  destruct h as [f|inp out]; cbn [sameFd] in Hmax;
    unfold fileSizeOf, imageOf in *; cbn [sameFd inputFile] in *.
  - apply Nat.eqb_eq in Hfresh. apply Z.ltb_lt in Hmax.
    assert (unread f = data f) as Himg by (unfold unread; by rewrite Hfresh).
    rewrite Himg in *.
    destruct (processFile_regular C f e rep Hwf Hfresh Hmin Hmax) as [p ->].
    by eexists.
  - apply andb_true_iff in Hfresh as [Hpos%Nat.eqb_eq Hlen%Nat.eqb_eq].
    apply Z.leb_le in Hmax.
    destruct (processFile_pipe C inp out e rep Hwf ltac:(lia) Hmin Hmax)
      as (inp' & p & ->).
    eexists. split; [done|]. unfold written. cbn [outputFile data].
    apply length_zero_iff_nil in Hlen. by rewrite Hlen.
Qed.

(** ** The shape of the fixed image *)

Definition editedRom0 (C : Config) (img : list Z) : list Z :=
  applyHeaderEdits C (take (Z.to_nat BANK_SIZE) img).

Definition paddedRom0 (C : Config) (img : list Z) : list Z :=
  if padRequested C then
    <[0x148%nat :=
        ctz (targetBanks (banksOf (Z.of_nat (length img))) / 2) mod 256]>
      (editedRom0 C img
         ++ replicate (Z.to_nat BANK_SIZE - length (editedRom0 C img))
                      (padValue C mod 256))
  else editedRom0 C img.

Definition bodyOf (C : Config) (img : list Z) : list Z :=
  drop (Z.to_nat BANK_SIZE) img
    ++ paddingBytes C (targetBanks (banksOf (Z.of_nat (length img))))
         (Z.of_nat (length (drop (Z.to_nat BANK_SIZE) img))).

Lemma fixedImage_eq C img :
  fixedImage C img
  = storeGlobalSum C (fixHeaderSum C (paddedRom0 C img)) (bodyOf C img)
      ++ bodyOf C img.
Proof.
  unfold fixedImage, paddedRom0, bodyOf, paddingBytes, editedRom0.
  destruct (padRequested C); [done|]. by rewrite app_nil_r.
Qed.

Lemma editedRom0_length C (img : list Z) :
  length (editedRom0 C img) = (Z.to_nat BANK_SIZE `min` length img)%nat.
Proof. unfold editedRom0. by rewrite applyHeaderEdits_length, length_take. Qed.

Lemma paddedRom0_length C (img : list Z) :
  length (paddedRom0 C img)
  = if padRequested C then Z.to_nat BANK_SIZE
    else (Z.to_nat BANK_SIZE `min` length img)%nat.
Proof.
  unfold paddedRom0. destruct (padRequested C).
  - rewrite length_insert, length_app, length_replicate, editedRom0_length. lia.
  - apply editedRom0_length.
Qed.

Lemma paddedRom0_header C (img : list Z) :
  (0x150 <= length img)%nat → (0x150 <= length (paddedRom0 C img))%nat.
Proof.
  intros H. rewrite paddedRom0_length.
  destruct (padRequested C); unfold BANK_SIZE; lia.
Qed.

(** ** The global checksum *)

Lemma lnot_mod_16 s : 0 <= s < 65536 → Z.lnot s mod 65536 = 65535 - s.
Proof. intros H. unfold Z.lnot. Z.div_mod_to_equations. lia. Qed.

Lemma bytes_of_sum s :
  0 <= s < 65536 →
  (Z.shiftr s 8 mod 256) * 256 + Z.land s 0xff mod 256 = s.
Proof.
  intros H. rewrite Z.shiftr_div_pow2 by lia.
  change 0xff with (Z.ones 8). rewrite Z.land_ones by lia.
  change (2 ^ 8) with 256. Z.div_mod_to_equations. lia.
Qed.

Lemma storeGlobalSum_checksum C (rom0 body : list Z) :
  (0x150 <= length rom0)%nat →
  hasBit (fixSpec C) (Z.lor FIX_GLOBAL_SUM TRASH_GLOBAL_SUM) = true →
  let out := storeGlobalSum C rom0 body ++ body in
  let sum := total (<[0x14f%nat := 0]> (<[0x14e%nat := 0]> out)) mod 65536 in
  byteAt out 0x14e * 256 + byteAt out 0x14f
  = if hasBit (fixSpec C) TRASH_GLOBAL_SUM then Z.lnot sum mod 65536 else sum.
Proof.
  intros Hlen Hbit out sum. subst out sum.
  unfold storeGlobalSum. rewrite Hbit. cbv zeta.
  set (z := <[0x14f%nat := 0]> (<[0x14e%nat := 0]> rom0)).
  assert (length z = length rom0) as Hz
    by (subst z; by rewrite !length_insert).
  set (s := (total z + total body) mod 65536).
  assert (0 <= s < 65536) as Hs by (apply Z.mod_pos_bound; lia).
  assert (<[0x14f%nat := 0]> (<[0x14e%nat := 0]> (storeSum C z s ++ body))
          = z ++ body) as ->.
  { unfold storeSum. cbv zeta.
    rewrite !insert_app_l by (rewrite ?length_insert; lia). f_equal.
    apply list_eq. intros i. subst z.
    rewrite !list_lookup_insert, !length_insert.
    repeat case_decide; try done; lia. }
  rewrite total_app. fold s.
  rewrite !byteAt_app_l by (rewrite storeSum_length; lia).
  unfold storeSum. cbv zeta.
  rewrite byteAt_insert_ne by lia.
  rewrite !byteAt_insert_eq by (rewrite ?length_insert; lia).
  set (s' := if hasBit (fixSpec C) TRASH_GLOBAL_SUM
             then Z.lnot s mod 65536 else s).
  apply bytes_of_sum. subst s'.
  destruct (hasBit (fixSpec C) TRASH_GLOBAL_SUM); [|done].
  apply Z.mod_pos_bound. lia.
Qed.

(** C5: when the global checksum is to be fixed or trashed, the 16-bit
    value that [processFile] leaves big-endian at 0x14E and 0x14F is the sum
    modulo 65536 of all the bytes of the image it leaves, padding included,
    with zeros in the place of these two bytes; a trash request leaves the
    complement of that sum on 16 bits.  This holds for a regular file
    processed in place and for a pipe alike. *)
Theorem processFile_global_checksum C h e rep :
  wfConfig C = true → fresh h = true → sizeOk h = true →
  hasBit (fixSpec C) (Z.lor FIX_GLOBAL_SUM TRASH_GLOBAL_SUM) = true →
  ∃ h', processFile C (fileSizeOf h) (mkState h e rep)
        = Done (mkState h' e rep)
    ∧ let out := written h' in
      let sum :=
        total (<[0x14f%nat := 0]> (<[0x14e%nat := 0]> out)) mod 65536 in
      byteAt out 0x14e * 256 + byteAt out 0x14f
      = (if hasBit (fixSpec C) TRASH_GLOBAL_SUM then 0xFFFF - sum else sum)
      ∧ 0xFFFF - sum = Z.lnot sum mod 65536.
Proof.
  intros Hwf Hfresh Hsize Hbit.
  destruct (processFile_fixedImage C h e rep Hwf Hfresh Hsize)
    as (h' & Hrun & Hout).
  exists h'. split; [done|]. rewrite Hout, fixedImage_eq. cbv zeta.
  assert (336 <= length (imageOf h))%nat as Hmin.
  { unfold sizeOk in Hsize.
    by apply andb_true_iff in Hsize as [?%Nat.leb_le _]. }
  pose proof (storeGlobalSum_checksum C
                (fixHeaderSum C (paddedRom0 C (imageOf h)))
                (bodyOf C (imageOf h))) as Hsum.
  cbv zeta in Hsum. rewrite Hsum; [|rewrite fixHeaderSum_length;
    by apply paddedRom0_header|done].
  rewrite lnot_mod_16 by (apply Z.mod_pos_bound; lia). done.
Qed.

(** ** The header checksum *)

Lemma fixedRom0_byteAt C (rom0 body : list Z) i :
  (i < 0x14d)%nat → (i < length rom0)%nat →
  byteAt (storeGlobalSum C (fixHeaderSum C rom0) body ++ body) i
  = byteAt rom0 i.
Proof.
  intros Hi Hlen.
  rewrite byteAt_app_l
    by (rewrite storeGlobalSum_length, fixHeaderSum_length; lia).
  unfold byteAt.
  rewrite storeGlobalSum_lookup_out
    by (rewrite !(proj2 (Nat.eqb_neq _ _)) by lia; apply andb_false_r).
  by rewrite fixHeaderSum_lookup_out
    by (rewrite !(proj2 (Nat.eqb_neq _ _)) by lia; apply andb_false_r).
Qed.

Lemma fixedRom0_headerSum C (rom0 body : list Z) :
  (0x150 <= length rom0)%nat →
  headerSum (storeGlobalSum C (fixHeaderSum C rom0) body ++ body)
  = headerSum rom0.
Proof.
  intros Hlen. apply headerSum_ext. intros i Hi.
  apply fixedRom0_byteAt; lia.
Qed.

Lemma fixedRom0_header_checksum C (rom0 body : list Z) :
  (0x150 <= length rom0)%nat →
  hasBit (fixSpec C) (Z.lor FIX_HEADER_SUM TRASH_HEADER_SUM) = true →
  byteAt (storeGlobalSum C (fixHeaderSum C rom0) body ++ body) 0x14d
  = if hasBit (fixSpec C) TRASH_HEADER_SUM
    then Z.lnot (headerSum rom0) mod 256 else headerSum rom0.
Proof.
  intros Hlen Hbit.
  rewrite byteAt_app_l
    by (rewrite storeGlobalSum_length, fixHeaderSum_length; lia).
  unfold byteAt at 1.
  rewrite storeGlobalSum_lookup_out by apply andb_false_r.
  unfold fixHeaderSum. rewrite Hbit. cbv zeta.
  fold (byteAt (<[0x14d%nat :=
    if hasBit (fixSpec C) TRASH_HEADER_SUM
    then Z.lnot (headerSum rom0) mod 256 else headerSum rom0]> rom0) 0x14d).
  apply byteAt_insert_eq. lia.
Qed.

Lemma lnot_mod_8_bits s n :
  0 <= n < 8 → Z.testbit (Z.lnot s mod 256) n = negb (Z.testbit s n).
Proof.
  intros Hn. change 256 with (2 ^ 8).
  rewrite Z.mod_pow2_bits_low by lia. apply Z.lnot_spec. lia.
Qed.

Lemma lnot_mod_8 s : 0 <= s < 256 → Z.lnot s mod 256 = 255 - s.
Proof. intros H. unfold Z.lnot. Z.div_mod_to_equations. lia. Qed.

(** The bytes that the header checksum is computed over: offsets 0x134 to
    0x14C of the image. *)
Definition headerBytes (image : list Z) : list Z :=
  take (0x14d - 0x134) (drop 0x134 image).

Lemma headerSum_loop (l : list Z) : ∀ n start a,
  (start + n <= length l)%nat →
  foldl (λ sum i, (sum - (byteAt l i + 1)) mod 256) a (seq start n) mod 256
  = (a - (total (take n (drop start l)) + Z.of_nat n)) mod 256.
Proof.
  induction n as [|n IH]; intros start a Hlen.
  - simpl. f_equal. unfold total. simpl. lia.
  - destruct (l !! start) as [x|] eqn:Hx;
      [|apply lookup_ge_None in Hx; lia].
    cbn [seq foldl]. rewrite IH by lia.
    rewrite (drop_S l x start Hx). cbn [take]. unfold byteAt at 1.
    rewrite Hx. cbn [default]. unfold total at 2. cbn [foldr].
    fold (total (take n (drop (S start) l))).
    rewrite Zminus_mod_idemp_l. unfold id. f_equal. lia.
Qed.

(** The loop of the header checksum, in one formula: minus the sum of the
    bytes at 0x134 to 0x14C, each counted with one more, modulo 256. *)
Lemma headerSum_total (l : list Z) :
  (0x14d <= length l)%nat →
  headerSum l = (- (total (headerBytes l) + 25)) mod 256.
Proof.
  intros Hlen. rewrite <- (Z.mod_small (headerSum l) 256)
    by apply headerSum_range.
  unfold headerSum, headerBytes. rewrite headerSum_loop by lia.
  f_equal.
Qed.

(** C6: when the header checksum is to be fixed or trashed, the byte that
    [processFile] leaves at 0x14D is computed from the 25 bytes at 0x134 to
    0x14C of the image it leaves: zero minus each of these bytes plus one,
    modulo 256, that is minus their sum and 25, modulo 256.  A fix request
    stores that value, a trash request its complement, bit for bit. *)
Theorem processFile_header_checksum C h e rep :
  wfConfig C = true → fresh h = true → sizeOk h = true →
  hasBit (fixSpec C) (Z.lor FIX_HEADER_SUM TRASH_HEADER_SUM) = true →
  ∃ h', processFile C (fileSizeOf h) (mkState h e rep)
        = Done (mkState h' e rep)
    ∧ let out := written h' in
      let sum := (- (total (headerBytes out) + 25)) mod 256 in
      length (headerBytes out) = 25%nat
      ∧ (∀ i, (i < 25)%nat → headerBytes out !! i = out !! (0x134 + i)%nat)
      ∧ byteAt out 0x14d
        = (if hasBit (fixSpec C) TRASH_HEADER_SUM
           then Z.lnot sum mod 256 else sum)
      ∧ Z.lnot sum mod 256 = 255 - sum
      ∧ ∀ n, 0 <= n < 8 →
          Z.testbit (Z.lnot sum mod 256) n = negb (Z.testbit sum n).
Proof.
  intros Hwf Hfresh Hsize Hbit.
  destruct (processFile_fixedImage C h e rep Hwf Hfresh Hsize)
    as (h' & Hrun & Hout).
  exists h'. split; [done|]. rewrite Hout. cbv zeta.
  assert (336 <= length (paddedRom0 C (imageOf h)))%nat as Hmin.
  { apply paddedRom0_header. unfold sizeOk in Hsize.
    by apply andb_true_iff in Hsize as [?%Nat.leb_le _]. }
  assert (0x14d <= length (fixedImage C (imageOf h)))%nat as Hlen.
  { rewrite fixedImage_eq, length_app, storeGlobalSum_length,
      fixHeaderSum_length. lia. }
  rewrite <- (headerSum_total _ Hlen).
  split; [unfold headerBytes; rewrite length_take, length_drop; lia|].
  split.
  { intros i Hi. unfold headerBytes.
    rewrite lookup_take_lt by lia. apply lookup_drop. }
  rewrite fixedImage_eq.
  rewrite fixedRom0_headerSum, fixedRom0_header_checksum by done.
  split; [done|]. split; [|intros n Hn; by apply lnot_mod_8_bits].
  apply lnot_mod_8, headerSum_range.
Qed.

(** ** Padding *)

Lemma paddingLen_exact N (len : Z) :
  1 <= N <= 0x10000 → 0 <= len <= (N - 1) * BANK_SIZE →
  paddingLen N len = (N - 1) * BANK_SIZE - len.
Proof.
  intros HN Hlen. unfold paddingLen, BANK_SIZE in *.
  rewrite (Z.mod_small ((N - 1) * 16384)) by lia.
  apply Z.mod_small. lia.
Qed.

Lemma banksOf_bounds len :
  0 <= len → (banksOf len - 1) * BANK_SIZE < len <= banksOf len * BANK_SIZE
             ∨ len = 0.
Proof. intros H. unfold banksOf, BANK_SIZE. Z.div_mod_to_equations. lia. Qed.

(** The fixed image of a padded run is [targetBanks] banks long. *)
Lemma fixedImage_padded_length C (img : list Z) :
  padRequested C = true → (0x150 <= length img)%nat →
  Z.of_nat (length img) <= 0x10000 * BANK_SIZE →
  Z.of_nat (length (fixedImage C img))
  = targetBanks (banksOf (Z.of_nat (length img))) * BANK_SIZE.
Proof.
  intros Hpad Hmin Hmax.
  pose proof (banksOf_range (Z.of_nat (length img)) ltac:(lia)) as Hbanks.
  destruct (targetBanks_spec _ Hbanks) as (k & Hk & HN & Hle & _).
  assert (targetBanks (banksOf (Z.of_nat (length img))) <= 0x10000) as HN16.
  { rewrite HN. change 0x10000 with (2 ^ 16). apply Z.pow_le_mono_r; lia. }
  destruct (banksOf_bounds (Z.of_nat (length img)) ltac:(lia)) as [Hb|]; [|lia].
  rewrite fixedImage_eq, length_app, storeGlobalSum_length,
    fixHeaderSum_length, paddedRom0_length, Hpad.
  unfold bodyOf, paddingBytes. rewrite Hpad, length_app, length_replicate.
  rewrite length_drop.
  rewrite paddingLen_exact; unfold BANK_SIZE in *; lia.
Qed.

Lemma fixedImage_rom_size C (img : list Z) :
  padRequested C = true → (0x150 <= length img)%nat →
  byteAt (fixedImage C img) 0x148
  = ctz (targetBanks (banksOf (Z.of_nat (length img))) / 2) mod 256.
Proof.
  intros Hpad Hmin. rewrite fixedImage_eq.
  pose proof (paddedRom0_header C img Hmin).
  rewrite fixedRom0_byteAt by lia.
  unfold paddedRom0. rewrite Hpad. apply byteAt_insert_eq.
  rewrite length_app, length_replicate, editedRom0_length.
  unfold BANK_SIZE. lia.
Qed.

Lemma pow2_half k : 1 <= k → 2 ^ k / 2 = 2 ^ (k - 1).
Proof.
  intros Hk. replace k with (Z.succ (k - 1)) at 1 by lia.
  rewrite Z.pow_succ_r by lia. rewrite Z.mul_comm. apply Z.div_mul. lia.
Qed.

(** C7: when padding is requested, the image that [processFile] leaves is
    a power of two of banks long, two at least, the least that holds the
    image, and the byte at 0x148 is the binary logarithm of half that
    number of banks.  An image of three banks is padded to four banks with
    ROM size code 1, and an image of one bank or less to two banks. *)
Theorem processFile_padding C h e rep :
  wfConfig C = true → fresh h = true → sizeOk h = true →
  padRequested C = true →
  ∃ h', processFile C (fileSizeOf h) (mkState h e rep)
        = Done (mkState h' e rep)
    ∧ let out := written h' in
      let len := Z.of_nat (length (imageOf h)) in
      ∃ N k, 1 <= k ∧ N = 2 ^ k
        ∧ Z.of_nat (length out) = N * BANK_SIZE
        ∧ byteAt out 0x148 = Z.log2 (N / 2)
        ∧ len <= N * BANK_SIZE
        ∧ (N = 2 ∨ N / 2 * BANK_SIZE < len)
        ∧ (len <= BANK_SIZE → N = 2 ∧ byteAt out 0x148 = 0)
        ∧ (2 * BANK_SIZE < len <= 3 * BANK_SIZE →
           N = 4 ∧ byteAt out 0x148 = 1).
Proof.
  intros Hwf Hfresh Hsize Hpad.
  destruct (processFile_fixedImage C h e rep Hwf Hfresh Hsize)
    as (h' & Hrun & Hout).
  exists h'. split; [done|]. rewrite Hout. cbv zeta.
  set (img := imageOf h) in *.
  assert ((0x150 <= length img)%nat ∧
          Z.of_nat (length img) <= 0x10000 * BANK_SIZE) as [Hmin Hmax].
  { unfold sizeOk in Hsize. fold img in Hsize.
    apply andb_true_iff in Hsize as [?%Nat.leb_le Hmax]. split; [done|].
    destruct (sameFd h); [apply Z.ltb_lt in Hmax|apply Z.leb_le in Hmax]; lia. }
  pose proof (banksOf_range (Z.of_nat (length img)) ltac:(lia)) as Hbanks.
  destruct (targetBanks_spec _ Hbanks) as (k & Hk & HN & Hle & Hleast).
  destruct (banksOf_bounds (Z.of_nat (length img)) ltac:(lia)) as [Hb|]; [|lia].
  rewrite fixedImage_padded_length, fixedImage_rom_size by done.
  set (N := targetBanks (banksOf (Z.of_nat (length img)))) in *.
  assert (ctz (N / 2) mod 256 = Z.log2 (N / 2) ∧ Z.log2 (N / 2) = k - 1)
    as [Hctz Hlog].
  { rewrite HN, pow2_half by lia. rewrite ctz_pow2, Z.log2_pow2 by lia.
    split; [|done]. apply Z.mod_small. lia. }
  assert (0 < 2 ^ (k - 1)) as Hpos by (apply Z.pow_pos_nonneg; lia).
  assert (N = 2 * 2 ^ (k - 1)) as Hdouble.
  { rewrite HN. rewrite <- Z.pow_succ_r by lia. f_equal. lia. }
  exists N, k. rewrite Hctz.
  split; [lia|]. split; [done|]. split; [done|]. split; [done|].
  split; [unfold BANK_SIZE in *; lia|].
  split; [|split].
  - rewrite HN, pow2_half by lia.
    destruct (decide (banksOf (Z.of_nat (length img)) <= 2 ^ (k - 1)))
      as [Hsmall|Hbig].
    + left. apply Hleast in Hsmall. rewrite <- HN. unfold N.
      by rewrite Hsmall.
    + right. unfold BANK_SIZE in *. lia.
  - intros Hone.
    assert (banksOf (Z.of_nat (length img)) = 1) as H1
      by (apply banksOf_one; lia).
    assert (N = 2) as HN2 by (unfold N; by rewrite H1).
    split; [done|]. by rewrite HN2.
  - intros Hthree.
    assert (banksOf (Z.of_nat (length img)) = 3) as H3.
    { unfold banksOf, BANK_SIZE in *. Z.div_mod_to_equations. lia. }
    assert (N = 4) as HN4 by (unfold N; by rewrite H3).
    split; [done|]. by rewrite HN4.
Qed.

(** ** What [processFile] leaves as it was *)

(** The offsets of the image that [processFile] may write: those of the
    header fields that are configured, the ROM size when padding is
    requested, and the checksums that are requested. *)
Definition imageTouch (C : Config) (i : nat) : bool :=
  editsTouch C i || (padRequested C && (i =? 0x148)%nat) || sumsTouch C i.

Lemma imageTouch_header C i :
  wfConfig C = true → imageTouch C i = true → (i < 0x150)%nat.
Proof.
  unfold imageTouch. intros Hwf H.
  apply orb_true_iff in H as [H|H]; [|by apply sumsTouch_header in H].
  apply orb_true_iff in H as [H|H]; [by apply editsTouch_header in H|].
  apply andb_true_iff in H as [_ H%Nat.eqb_eq]. lia.
Qed.

Lemma paddedRom0_lookup_out C (img : list Z) i :
  (i < length img)%nat → (i < Z.to_nat BANK_SIZE)%nat →
  editsTouch C i = false → padRequested C && (i =? 0x148)%nat = false →
  paddedRom0 C img !! i = img !! i.
Proof.
  intros Hi HB Hedit Hpad. unfold paddedRom0.
  assert (editedRom0 C img !! i = img !! i) as Hed.
  { unfold editedRom0. rewrite applyHeaderEdits_lookup_out by done.
    rewrite lookup_take. by case_decide. }
  destruct (padRequested C); [|done].
  rewrite andb_true_l in Hpad. apply Nat.eqb_neq in Hpad.
  rewrite list_lookup_insert_ne by lia.
  rewrite lookup_app_l by (rewrite editedRom0_length; lia). done.
Qed.

Lemma fixedImage_lookup_out C (img : list Z) i :
  (0x150 <= length img)%nat → (i < length img)%nat →
  imageTouch C i = false → fixedImage C img !! i = img !! i.
Proof.
  intros Hmin Hi Htouch. unfold imageTouch in Htouch.
  apply orb_false_iff in Htouch as [Htouch Hsums].
  apply orb_false_iff in Htouch as [Hedit Hpad].
  unfold sumsTouch in Hsums. apply orb_false_iff in Hsums as [Hhdr Hglob].
  rewrite fixedImage_eq.
  pose proof (paddedRom0_length C img) as Hlen.
  destruct (decide (i < Z.to_nat BANK_SIZE)%nat) as [Hlow|Hhigh].
  - rewrite lookup_app_l
      by (rewrite storeGlobalSum_length, fixHeaderSum_length, Hlen;
          destruct (padRequested C); lia).
    rewrite storeGlobalSum_lookup_out, fixHeaderSum_lookup_out by done.
    by apply paddedRom0_lookup_out.
  - assert (length (paddedRom0 C img) = Z.to_nat BANK_SIZE) as HlenB
      by (rewrite Hlen; destruct (padRequested C); lia).
    rewrite lookup_app_r
      by (rewrite storeGlobalSum_length, fixHeaderSum_length; lia).
    rewrite storeGlobalSum_length, fixHeaderSum_length, HlenB.
    unfold bodyOf. rewrite lookup_app_l by (rewrite length_drop; lia).
    rewrite lookup_drop. f_equal. lia.
Qed.

Lemma fixedImage_length_ge C (img : list Z) :
  (length img <= length (fixedImage C img))%nat.
Proof.
  rewrite fixedImage_eq, length_app, storeGlobalSum_length,
    fixHeaderSum_length, paddedRom0_length.
  unfold bodyOf. rewrite length_app, length_drop.
  destruct (padRequested C); lia.
Qed.

(** Past the end of the image there is nothing but padding. *)
Lemma fixedImage_lookup_appended C (img : list Z) i x :
  (0x150 <= length img)%nat → (length img <= i)%nat →
  fixedImage C img !! i = Some x →
  padRequested C = true ∧ x = padValue C mod 256.
Proof.
  intros Hmin Hi. rewrite fixedImage_eq.
  pose proof (paddedRom0_length C img) as Hlen.
  unfold bodyOf, paddingBytes. unfold paddedRom0 in *.
  pose proof (editedRom0_length C img) as Hed.
  destruct (padRequested C) eqn:Hpad.
  - intros H. split; [done|].
    destruct (decide (i < Z.to_nat BANK_SIZE)%nat) as [Hlow|Hhigh].
    + rewrite lookup_app_l in H
        by (rewrite storeGlobalSum_length, fixHeaderSum_length, Hlen; lia).
      rewrite storeGlobalSum_lookup_out, fixHeaderSum_lookup_out in H
        by (rewrite !nat_eqb_false_high by lia; apply andb_false_r).
      rewrite list_lookup_insert_ne in H by lia.
      rewrite lookup_app_r in H by lia.
      by apply lookup_replicate in H as [-> _].
    + rewrite lookup_app_r in H
        by (rewrite storeGlobalSum_length, fixHeaderSum_length, Hlen; lia).
      rewrite lookup_app_r in H
        by (rewrite storeGlobalSum_length, fixHeaderSum_length, Hlen,
              length_drop; lia).
      by apply lookup_replicate in H as [-> _].
  - rewrite app_nil_r. intros H%lookup_lt_Some.
    rewrite length_app, storeGlobalSum_length, fixHeaderSum_length, Hlen,
      length_drop in H. lia.
Qed.

(** C9, as amended: the image that [processFile] leaves is at least as long
    as the image it was given and differs from it only at the offsets of
    [imageTouch] (the logo when its fix or trash is requested, the header
    fields that are configured, where a title of more than 11 characters
    reaches into the offsets of the game ID and of the colour flag, the ROM
    size when padding is requested, the checksums that are requested), all
    of them below 0x150; what it adds past the end is the pad value.  The
    bytes of ROMX are therefore left as they were. *)
Theorem processFile_frame C h e rep :
  wfConfig C = true → fresh h = true → sizeOk h = true →
  ∃ h', processFile C (fileSizeOf h) (mkState h e rep)
        = Done (mkState h' e rep)
    ∧ let out := written h' in
      let img := imageOf h in
      (length img <= length out)%nat
      ∧ (∀ i, (i < length img)%nat → imageTouch C i = false →
           out !! i = img !! i)
      ∧ (∀ i, imageTouch C i = true → (i < 0x150)%nat)
      ∧ (∀ i, (Z.to_nat BANK_SIZE <= i < length img)%nat →
           out !! i = img !! i)
      ∧ (∀ i x, (length img <= i)%nat → out !! i = Some x →
           padRequested C = true ∧ x = padValue C mod 256).
Proof.
  intros Hwf Hfresh Hsize.
  destruct (processFile_fixedImage C h e rep Hwf Hfresh Hsize)
    as (h' & Hrun & Hout).
  exists h'. split; [done|]. rewrite Hout. cbv zeta.
  assert (336 <= length (imageOf h))%nat as Hmin.
  { unfold sizeOk in Hsize.
    by apply andb_true_iff in Hsize as [?%Nat.leb_le _]. }
  split; [apply fixedImage_length_ge|].
  split; [intros i; by apply fixedImage_lookup_out|].
  split; [intros i; by apply imageTouch_header|].
  split; [|intros i x; by apply fixedImage_lookup_appended].
  intros i [HB Hi]. apply fixedImage_lookup_out; [done..|].
  destruct (imageTouch C i) eqn:Ht; [|done].
  apply imageTouch_header in Ht; [|done]. unfold BANK_SIZE in *. lia.
Qed.

(** ** Images that are refused *)

(** C8: an image of less than 0x150 bytes is refused with the too-short
    error, and nothing is written: the output holds what it held. *)
Theorem processFile_too_short C h fileSize e rep :
  Bool.eqb (sameFd h) (fileSize =? 0) = false →
  (length (imageOf h) < 0x150)%nat →
  ∃ h', processFile C fileSize (mkState h e rep)
        = Done (mkState h' (nbErrors (report TooShort (mkState h e rep)))
                        (rep ++ [TooShort]))
    ∧ written h' = written h
    ∧ (sameFd h = false → outputFile h' = outputFile h).
Proof.
  intros Hassert Hlen. unfold processFile, readBytes, withHandles.
  cbn [handles nbErrors reported]. rewrite Hassert.
  fold (imageOf h).
  assert (length (take (Z.to_nat BANK_SIZE) (imageOf h)) < 336)%nat as Hshort
    by (rewrite length_take; lia).
  destruct (Z.ltb_spec (Z.of_nat (length (take (Z.to_nat BANK_SIZE)
                                            (imageOf h)))) 336); [|lia].
  eexists. split; [reflexivity|]. by destruct h.
Qed.

Lemma processFile_regular_reject C f fileSize e rep :
  (0x150 <= length (unread f))%nat →
  0x10000 * BANK_SIZE <= fileSize →
  ∃ h', processFile C fileSize (mkState (SameFile f) e rep)
        = Done (report TooManyBanks (mkState h' e rep))
    ∧ written h' = data f.
Proof.
  intros Hmin Hsize. unfold processFile, readBytes, withHandles.
  cbn [handles nbErrors reported sameFd inputFile withInput].
  destruct (Z.eqb_spec fileSize 0); [unfold BANK_SIZE in *; lia|].
  cbn [Bool.eqb].
  pose proof (take_bank_length (unread f) Hmin) as Hrom0.
  destruct (Z.ltb_spec (Z.of_nat (length (take (Z.to_nat BANK_SIZE)
                                            (unread f)))) 336); [lia|].
  unfold handleRomx. cbn [sameFd].
  destruct (Z.geb_spec fileSize (65536 * BANK_SIZE)); [|lia].
  by eexists.
Qed.

(** C4 (the code contradicts the claim): a regular file of exactly
    65536 banks, processed in place, is refused as having more than 65536
    banks, and left as it was. *)
Theorem processFile_regular_65536_banks_refused C f e rep :
  (0x150 <= length (unread f))%nat →
  banksOf (0x10000 * BANK_SIZE) = 0x10000
  ∧ ∃ h', processFile C (0x10000 * BANK_SIZE) (mkState (SameFile f) e rep)
          = Done (report TooManyBanks (mkState h' e rep))
      ∧ written h' = data f.
Proof.
  intros Hmin. split; [reflexivity|].
  apply processFile_regular_reject; [done|lia].
Qed.

(** A pipe is refused only past 65536 banks: an image of exactly
    65536 banks goes through ([processFile_fixedImage], whose [sizeOk]
    admits it), one byte more does not. *)
Lemma processFile_pipe_reject C inp out e rep :
  0x10000 * BANK_SIZE < Z.of_nat (length (unread inp)) →
  ∃ h', processFile C 0 (mkState (Pipe inp out) e rep)
        = Done (report TooManyBanks (mkState h' e rep))
    ∧ outputFile h' = out.
Proof.
  intros Hsize. unfold processFile, readBytes, withHandles.
  cbn [handles nbErrors reported sameFd inputFile withInput].
  change (Bool.eqb false (0 =? 0)) with false. cbv iota.
  set (img := unread inp) in *.
  assert (length (take (Z.to_nat BANK_SIZE) img) = Z.to_nat BANK_SIZE) as Hrom0
    by (rewrite length_take; unfold BANK_SIZE in *; lia).
  rewrite Hrom0.
  destruct (Z.ltb_spec (Z.of_nat (Z.to_nat BANK_SIZE)) 336);
    [unfold BANK_SIZE in *; lia|].
  unfold handleRomx. cbn [sameFd].
  destruct (Z.eqb_spec (Z.of_nat (Z.to_nat BANK_SIZE)) BANK_SIZE);
    [|unfold BANK_SIZE in *; lia].
  set (inp1 := mkFile _ _).
  assert (length (unread inp1) = length img - Z.to_nat BANK_SIZE)%nat as Hrest.
  { subst inp1. unfold unread. cbn [data pos]. rewrite <- drop_drop.
    fold (unread inp). fold img. apply length_drop. }
  destruct (readRomxBanks_spec romxFuel inp1 out [] 1 0 0) as [Hfatal _];
    try (unfold romxFuel, BANK_SIZE in *; simpl length; lia).
  destruct Hfatal as [inp' ->]; [unfold BANK_SIZE in *; lia|].
  eexists. split; reflexivity.
Qed.

(** ** The error counter *)

(** The counter holds the number of messages, up to 255. *)
Definition counterOk (st : State) : Prop :=
  nbErrors st = Z.min (Z.of_nat (length (reported st))) 255.

Lemma report_counterOk msg st : counterOk st → counterOk (report msg st).
Proof.
  unfold counterOk, report, UINT8_MAX. cbn [nbErrors reported].
  rewrite length_app. simpl length. intros ->.
  destruct (Z.eqb_spec (Z.min (Z.of_nat (length (reported st))) 255) 255);
    cbn [negb]; [lia|].
  rewrite Z.mod_small; lia.
Qed.


(** [processFile] changes the counter through [report] only, and reports
    once at most. *)
Lemma processFile_reports C fileSize st st' :
  processFile C fileSize st = Done st' →
  (∃ h, st' = withHandles st h) ∨ (∃ d h, st' = report d (withHandles st h)).
Proof.
  unfold processFile. intros H.
  repeat match type of H with
  | (if ?b then _ else _) = _ => destruct b
  | (let '(_, _) := ?p in _) = _ => destruct p
  | match ?o with Done _ => _ | Fatal _ _ => _ | AssertFailed => _
                | NoFuel => _ end = _ => destruct o
  end;
  try discriminate; injection H as <-; eauto.
Qed.

Lemma processFile_counterOk C fileSize st st' :
  processFile C fileSize st = Done st' → counterOk st → counterOk st'.
Proof.
  intros [[h ->]|(d & h & ->)]%processFile_reports Hst; [done|].
  by apply report_counterOk.
Qed.


(** ** Examples *)

(** [rgbfix -v]: fix the logo and both checksums. *)
Definition validateConfig : Config :=
  mkConfig DMG (Z.lor (Z.lor FIX_LOGO FIX_HEADER_SUM) FIX_GLOBAL_SUM)
           None 0 true None 0 UNSPECIFIED MBC_NONE UNSPECIFIED UNSPECIFIED
           UNSPECIFIED false None 0.

(** [rgbfix -v -p 0xFF] *)
Definition padConfig : Config :=
  mkConfig DMG (Z.lor (Z.lor FIX_LOGO FIX_HEADER_SUM) FIX_GLOBAL_SUM)
           None 0 true None 0 UNSPECIFIED MBC_NONE UNSPECIFIED 0xFF
           UNSPECIFIED false None 0.

(** [rgbfix -t AAAAAAAAAAAAAAAA]: a title of 16 characters, no game ID. *)
Definition titleConfig : Config :=
  mkConfig DMG 0 None 0 true None 0 UNSPECIFIED MBC_NONE UNSPECIFIED
           UNSPECIFIED UNSPECIFIED false (Some (replicate 16 0x41)) 16.

(** A smallest image, 0x150 zero bytes, as a regular file and on a pipe. *)
Definition smallImage : File := mkFile (replicate 0x150 0) 0.

Definition smallFile : Handles := SameFile smallImage.

Definition smallPipe : Handles := Pipe smallImage (mkFile [] 0).

(** An image one byte short of the header. *)
Definition shortImage : File := mkFile (replicate 335 0) 0.

Lemma processFile_global_checksum_witness :
  wfConfig validateConfig = true ∧ fresh smallPipe = true
  ∧ sizeOk smallPipe = true
  ∧ hasBit (fixSpec validateConfig) (Z.lor FIX_GLOBAL_SUM TRASH_GLOBAL_SUM)
    = true
  ∧ ∃ h', processFile validateConfig (fileSizeOf smallPipe)
                      (mkState smallPipe 0 [])
          = Done (mkState h' 0 [])
      ∧ let out := written h' in
        let sum :=
          total (<[0x14f%nat := 0]> (<[0x14e%nat := 0]> out)) mod 65536 in
        byteAt out 0x14e * 256 + byteAt out 0x14f
        = (if hasBit (fixSpec validateConfig) TRASH_GLOBAL_SUM
           then 0xFFFF - sum else sum)
        ∧ 0xFFFF - sum = Z.lnot sum mod 65536.
Proof.
  split; [reflexivity|]. split; [reflexivity|]. split; [reflexivity|].
  split; [reflexivity|].
  apply (processFile_global_checksum validateConfig smallPipe 0 []);
    reflexivity.
Defined.

Lemma processFile_header_checksum_witness :
  wfConfig validateConfig = true ∧ fresh smallFile = true
  ∧ sizeOk smallFile = true
  ∧ hasBit (fixSpec validateConfig) (Z.lor FIX_HEADER_SUM TRASH_HEADER_SUM)
    = true
  ∧ ∃ h', processFile validateConfig (fileSizeOf smallFile)
                      (mkState smallFile 0 [])
          = Done (mkState h' 0 [])
      ∧ let out := written h' in
        let sum := (- (total (headerBytes out) + 25)) mod 256 in
        length (headerBytes out) = 25%nat
        ∧ (∀ i, (i < 25)%nat →
             headerBytes out !! i = out !! (0x134 + i)%nat)
        ∧ byteAt out 0x14d
          = (if hasBit (fixSpec validateConfig) TRASH_HEADER_SUM
             then Z.lnot sum mod 256 else sum)
        ∧ Z.lnot sum mod 256 = 255 - sum
        ∧ ∀ n, 0 <= n < 8 →
            Z.testbit (Z.lnot sum mod 256) n = negb (Z.testbit sum n).
Proof.
  split; [reflexivity|]. split; [reflexivity|]. split; [reflexivity|].
  split; [reflexivity|].
  apply (processFile_header_checksum validateConfig smallFile 0 []);
    reflexivity.
Defined.

Lemma processFile_padding_witness :
  wfConfig padConfig = true ∧ fresh smallFile = true
  ∧ sizeOk smallFile = true ∧ padRequested padConfig = true
  ∧ ∃ h', processFile padConfig (fileSizeOf smallFile)
                      (mkState smallFile 0 [])
          = Done (mkState h' 0 [])
      ∧ let out := written h' in
        let len := Z.of_nat (length (imageOf smallFile)) in
        ∃ N k, 1 <= k ∧ N = 2 ^ k
          ∧ Z.of_nat (length out) = N * BANK_SIZE
          ∧ byteAt out 0x148 = Z.log2 (N / 2)
          ∧ len <= N * BANK_SIZE
          ∧ (N = 2 ∨ N / 2 * BANK_SIZE < len)
          ∧ (len <= BANK_SIZE → N = 2 ∧ byteAt out 0x148 = 0)
          ∧ (2 * BANK_SIZE < len <= 3 * BANK_SIZE →
             N = 4 ∧ byteAt out 0x148 = 1).
Proof.
  split; [reflexivity|]. split; [reflexivity|]. split; [reflexivity|].
  split; [reflexivity|].
  apply (processFile_padding padConfig smallFile 0 []); reflexivity.
Defined.

Lemma processFile_frame_witness :
  wfConfig titleConfig = true ∧ fresh smallPipe = true
  ∧ sizeOk smallPipe = true
  ∧ ∃ h', processFile titleConfig (fileSizeOf smallPipe)
                      (mkState smallPipe 0 [])
          = Done (mkState h' 0 [])
      ∧ let out := written h' in
        let img := imageOf smallPipe in
        (length img <= length out)%nat
        ∧ (∀ i, (i < length img)%nat → imageTouch titleConfig i = false →
             out !! i = img !! i)
        ∧ (∀ i, imageTouch titleConfig i = true → (i < 0x150)%nat)
        ∧ (∀ i, (Z.to_nat BANK_SIZE <= i < length img)%nat →
             out !! i = img !! i)
        ∧ (∀ i x, (length img <= i)%nat → out !! i = Some x →
             padRequested titleConfig = true
             ∧ x = padValue titleConfig mod 256).
Proof.
  split; [reflexivity|]. split; [reflexivity|]. split; [reflexivity|].
  apply (processFile_frame titleConfig smallPipe 0 []); reflexivity.
Defined.

(** C9 (the claim fails here): with a title of 16 characters and no game
    ID, the byte at 0x13F, the first of the game ID, is the twelfth
    character of the title, not the byte of the input. *)
Lemma processFile_title_overwrites_gameID :
  wfConfig titleConfig = true ∧ gameID titleConfig = None
  ∧ fresh smallPipe = true ∧ sizeOk smallPipe = true
  ∧ ∃ h', processFile titleConfig (fileSizeOf smallPipe)
                      (mkState smallPipe 0 [])
          = Done (mkState h' 0 [])
      ∧ imageOf smallPipe !! 0x13f%nat = Some 0
      ∧ written h' !! 0x13f%nat = Some 0x41
      ∧ written h' !! 0x13f%nat ≠ imageOf smallPipe !! 0x13f%nat.
Proof.
  split; [reflexivity|]. split; [reflexivity|]. split; [reflexivity|].
  split; [reflexivity|].
  eexists. split; [vm_compute; reflexivity|].
  split; [reflexivity|]. split; [reflexivity|]. discriminate.
Qed.

Lemma processFile_too_short_witness :
  (length (imageOf (Pipe shortImage (mkFile [] 0))) < 0x150)%nat
  ∧ ∃ h', processFile validateConfig 0
                      (mkState (Pipe shortImage (mkFile [] 0)) 0 [])
          = Done (mkState h' 1 [TooShort])
      ∧ written h' = [].
Proof.
  split; [vm_compute; lia|].
  destruct (processFile_too_short validateConfig
              (Pipe shortImage (mkFile [] 0)) 0 0 [])
    as (h' & Hrun & Hout & _); [reflexivity|vm_compute; lia|].
  exists h'. split; [exact Hrun|exact Hout].
Defined.

Lemma processFile_regular_65536_banks_refused_witness :
  (0x150 <= length (unread smallImage))%nat
  ∧ ∃ h', processFile validateConfig (0x10000 * BANK_SIZE)
                      (mkState smallFile 0 [])
          = Done (report TooManyBanks (mkState h' 0 [])).
Proof.
  split; [vm_compute; lia|].
  destruct (processFile_regular_65536_banks_refused validateConfig
              smallImage 0 [])
    as (_ & h' & Hrun & _); [vm_compute; lia|].
  exists h'. exact Hrun.
Defined.


(** ** The bytes of the header after [processFile] *)

Lemma hasBit_lor x a b : hasBit x (Z.lor a b) = hasBit x a || hasBit x b.
Proof.
  unfold hasBit. rewrite Z.land_lor_distr_r, <- negb_andb. f_equal.
  destruct (Z.eqb_spec (Z.land x a) 0) as [->|Ha]; simpl.
  - by rewrite Z.lor_0_l.
  - apply Z.eqb_neq. intros [? ?]%Z.lor_eq_0_iff. done.
Qed.

Lemma memcpy_lookup_in (buf : list Z) off src len k :
  (k < len)%nat → (len <= length src)%nat → (off + len <= length buf)%nat →
  memcpy buf off src len !! (off + k)%nat = src !! k.
Proof.
  intros Hk Hsrc Hbuf. unfold memcpy.
  rewrite list_lookup_inserts by (rewrite ?length_take; lia).
  rewrite lookup_take_lt by lia. f_equal. lia.
Qed.

Lemma foldl_insert_lookup_in (g : nat → Z) off n k (buf : list Z) :
  (k < n)%nat → (n + off <= length buf)%nat →
  foldl (λ buf i, <[(i + off)%nat := g i]> buf) buf (seq 0 n)
    !! (k + off)%nat = Some (g k).
Proof.
  induction n as [|n IH]; intros Hk Hlen; [lia|].
  rewrite seq_S, foldl_snoc. simpl.
  destruct (decide (k = n)) as [->|Hne].
  - apply list_lookup_insert_eq. rewrite foldl_insert_length. lia.
  - rewrite list_lookup_insert_ne by lia. apply IH; lia.
Qed.

Lemma setByte_lookup_in (c : bool) j v (X : list Z) :
  c = true → (j < length X)%nat →
  (if c then <[j:=v]> X else X) !! j = Some v.
Proof. intros -> Hj. by apply list_lookup_insert_eq. Qed.

(** Below the header checksum, and but for the ROM size byte, the image
    holds what [applyHeaderEdits] left in bank 0. *)
Lemma fixedImage_lookup_header C (img : list Z) i :
  (0x150 <= length img)%nat → (i < 0x14d)%nat → i ≠ 0x148%nat →
  fixedImage C img !! i
  = applyHeaderEdits C (take (Z.to_nat BANK_SIZE) img) !! i.
Proof.
  intros Hmin Hi Hne. rewrite fixedImage_eq.
  pose proof (paddedRom0_header C img Hmin) as Hlen.
  pose proof (editedRom0_length C img) as Hed.
  rewrite lookup_app_l
    by (rewrite storeGlobalSum_length, fixHeaderSum_length; lia).
  rewrite storeGlobalSum_lookup_out
    by (apply andb_false_intro2, orb_false_iff;
        split; apply Nat.eqb_neq; lia).
  rewrite fixHeaderSum_lookup_out
    by (apply andb_false_intro2, Nat.eqb_neq; lia).
  unfold paddedRom0. fold (editedRom0 C img).
  destruct (padRequested C); [|done].
  rewrite list_lookup_insert_ne by lia.
  apply lookup_app_l. unfold BANK_SIZE in *. lia.
Qed.

Ltac off_byte := apply andb_false_intro2, Nat.eqb_neq; lia.

Ltac off_range :=
  apply andb_false_intro2; unfold inRange; apply andb_false_iff;
  first [left; apply Nat.leb_gt; lia | right; apply Nat.ltb_ge; lia].

Ltac skip_edits :=
  repeat first
    [ rewrite setByte_lookup_out by off_byte
    | rewrite setModel_lookup_out by off_byte
    | rewrite memcpyOpt_lookup_out by first [assumption | off_range] ].

Lemma wfConfig_title C :
  wfConfig C = true →
  (titleLen C <= 16)%nat
  ∧ (given (gameID C) = true → titleLen C <= 11)%nat
  ∧ (isColour (model C) = true → titleLen C <= 15)%nat
  ∧ (gameIDLen C <= 4)%nat ∧ (newLicenseeLen C <= 2)%nat
  ∧ lenWithin (title C) (titleLen C) = true
  ∧ lenWithin (gameID C) (gameIDLen C) = true
  ∧ lenWithin (newLicensee C) (newLicenseeLen C) = true.
Proof.
  unfold wfConfig, maxTitleLen. intros H.
  repeat (apply andb_true_iff in H as [H ?]).
  apply Nat.leb_le in H.
  repeat match goal with
         | H : (_ <=? _)%nat = true |- _ => apply Nat.leb_le in H
         end.
  destruct (gameID C), (model C); simpl in *; repeat split; try done; lia.
Qed.

Section edits.
Context (C : Config) (rom0 : list Z).
Hypothesis Hwf : wfConfig C = true.
Hypothesis Hlen : (0x150 <= length rom0)%nat.

Lemma applyHeaderEdits_logo k :
  (k < length ninLogo)%nat →
  hasBit (fixSpec C) (Z.lor FIX_LOGO TRASH_LOGO) = true →
  applyHeaderEdits C rom0 !! (0x104 + k)%nat
  = Some (if hasBit (fixSpec C) FIX_LOGO then byteAt ninLogo k
          else Z.lnot (byteAt ninLogo k) mod 256).
Proof.
  intros Hk Hbit. change (length ninLogo) with 48%nat in Hk.
  unfold applyHeaderEdits. cbv zeta. skip_edits.
  unfold fixLogo. rewrite Hbit.
  destruct (hasBit (fixSpec C) FIX_LOGO).
  - rewrite memcpy_lookup_in
      by (change (length ninLogo) with 48%nat; lia).
    unfold byteAt. destruct (ninLogo !! k) eqn:E; [done|].
    apply lookup_ge_None in E. change (length ninLogo) with 48%nat in E.
    lia.
  - rewrite (Nat.add_comm 0x104 k).
    apply (foldl_insert_lookup_in
             (λ i, Z.lnot (byteAt ninLogo i) mod 256));
      change (length ninLogo) with 48%nat; lia.
Qed.

Lemma applyHeaderEdits_title t k :
  title C = Some t → (k < titleLen C)%nat →
  applyHeaderEdits C rom0 !! (0x134 + k)%nat = t !! k.
Proof.
  intros Ht Hk.
  destruct (wfConfig_title C Hwf)
    as (H16 & H11 & H15 & _ & _ & Hin & _ & _).
  rewrite Ht in Hin. apply Nat.leb_le in Hin.
  assert (given (gameID C) && inRange (0x134 + k) 0x13f (gameIDLen C)
          = false) as Hg.
  { destruct (given (gameID C)); [|done]. specialize (H11 eq_refl).
    off_range. }
  assert (isColour (model C) && (0x134 + k =? 0x143)%nat = false) as Hm.
  { destruct (isColour (model C)); [|done]. specialize (H15 eq_refl).
    off_byte. }
  unfold applyHeaderEdits. cbv zeta. skip_edits.
  rewrite setModel_lookup_out by exact Hm.
  rewrite memcpyOpt_lookup_out by exact Hg.
  rewrite Ht. apply memcpy_lookup_in; [done|done|].
  rewrite fixLogo_length. lia.
Qed.

Lemma applyHeaderEdits_gameID g k :
  gameID C = Some g → (k < gameIDLen C)%nat →
  applyHeaderEdits C rom0 !! (0x13f + k)%nat = g !! k.
Proof.
  intros Hg Hk.
  destruct (wfConfig_title C Hwf)
    as (_ & _ & _ & H4 & _ & _ & Hin & _).
  rewrite Hg in Hin. apply Nat.leb_le in Hin.
  unfold applyHeaderEdits. cbv zeta. skip_edits.
  rewrite Hg. apply memcpy_lookup_in; [done|done|].
  rewrite memcpyOpt_length, fixLogo_length. lia.
Qed.

Lemma applyHeaderEdits_model :
  isColour (model C) = true →
  applyHeaderEdits C rom0 !! 0x143%nat
  = Some (match model C with CGB => 0xc0 | _ => 0x80 end).
Proof.
  intros Hm. unfold applyHeaderEdits. cbv zeta. skip_edits.
  destruct (model C); [done|..]; apply list_lookup_insert_eq;
    rewrite !memcpyOpt_length, fixLogo_length; lia.
Qed.

Lemma applyHeaderEdits_newLicensee l k :
  newLicensee C = Some l → (k < newLicenseeLen C)%nat →
  applyHeaderEdits C rom0 !! (0x144 + k)%nat = l !! k.
Proof.
  intros Hl Hk.
  destruct (wfConfig_title C Hwf)
    as (_ & _ & _ & _ & H2 & _ & _ & Hin).
  rewrite Hl in Hin. apply Nat.leb_le in Hin.
  unfold applyHeaderEdits. cbv zeta. skip_edits.
  rewrite Hl. apply memcpy_lookup_in; [done|done|].
  rewrite setModel_length, !memcpyOpt_length, fixLogo_length. lia.
Qed.

Ltac edits_length :=
  rewrite ?setByte_length, ?memcpyOpt_length, ?setModel_length,
    ?memcpyOpt_length, ?fixLogo_length; lia.

Lemma applyHeaderEdits_sgb :
  sgb C = true → applyHeaderEdits C rom0 !! 0x146%nat = Some 0x03.
Proof.
  intros H. unfold applyHeaderEdits. cbv zeta. skip_edits.
  apply setByte_lookup_in; [done|edits_length].
Qed.

Lemma applyHeaderEdits_cartridgeType :
  cartridgeType C < MBC_NONE →
  applyHeaderEdits C rom0 !! 0x147%nat = Some (cartridgeType C mod 256).
Proof.
  intros H%Z.ltb_lt. unfold applyHeaderEdits. cbv zeta. skip_edits.
  apply setByte_lookup_in; [done|edits_length].
Qed.

Lemma applyHeaderEdits_ramSize :
  ramSize C ≠ UNSPECIFIED →
  applyHeaderEdits C rom0 !! 0x149%nat = Some (ramSize C mod 256).
Proof.
  intros H%Z.eqb_neq. unfold applyHeaderEdits. cbv zeta. skip_edits.
  apply setByte_lookup_in; [by rewrite H|edits_length].
Qed.

Lemma applyHeaderEdits_japanese :
  japanese C = false → applyHeaderEdits C rom0 !! 0x14a%nat = Some 0x01.
Proof.
  intros H. unfold applyHeaderEdits. cbv zeta. skip_edits.
  apply setByte_lookup_in; [by rewrite H|edits_length].
Qed.

Lemma applyHeaderEdits_oldLicensee :
  oldLicensee C ≠ UNSPECIFIED →
  applyHeaderEdits C rom0 !! 0x14b%nat = Some (oldLicensee C mod 256).
Proof.
  intros H%Z.eqb_neq. unfold applyHeaderEdits. cbv zeta. skip_edits.
  apply setByte_lookup_in; [by rewrite H|edits_length].
Qed.

Lemma applyHeaderEdits_romVersion :
  romVersion C ≠ UNSPECIFIED →
  applyHeaderEdits C rom0 !! 0x14c%nat = Some (romVersion C mod 256).
Proof.
  intros H%Z.eqb_neq. unfold applyHeaderEdits. cbv zeta.
  apply setByte_lookup_in; [by rewrite H|edits_length].
Qed.
End edits.

(** * Further properties of the pipeline *)

(** ** A regular file and a pipe give the same image *)

(** X1: the image left in place in a regular file and the image written to a
    pipe are the same, byte for byte, for the same input and options. *)
Theorem processFile_regular_pipe_agree C (img : list Z) e rep e' rep' :
  wfConfig C = true →
  (0x150 <= length img)%nat →
  Z.of_nat (length img) < 0x10000 * BANK_SIZE →
  ∃ h1 h2,
    processFile C (Z.of_nat (length img))
                (mkState (SameFile (mkFile img 0)) e rep)
    = Done (mkState h1 e rep)
    ∧ processFile C 0 (mkState (Pipe (mkFile img 0) (mkFile [] 0)) e' rep')
      = Done (mkState h2 e' rep')
    ∧ written h1 = written h2.
Proof.
  intros Hwf Hmin Hmax.
  destruct (processFile_fixedImage C (SameFile (mkFile img 0)) e rep)
    as (h1 & Hrun1 & Hout1); [done|done|..].
  { unfold sizeOk, imageOf, unread. cbn [inputFile sameFd data pos].
    rewrite drop_0. apply andb_true_iff. split; [by apply Nat.leb_le|].
    by apply Z.ltb_lt. }
  destruct (processFile_fixedImage C (Pipe (mkFile img 0) (mkFile [] 0))
              e' rep') as (h2 & Hrun2 & Hout2); [done|done|..].
  { unfold sizeOk, imageOf, unread. cbn [inputFile sameFd data pos].
    rewrite drop_0. apply andb_true_iff. split; [by apply Nat.leb_le|].
    apply Z.leb_le. lia. }
  exists h1, h2. split; [exact Hrun1|]. split; [exact Hrun2|].
  by rewrite Hout1, Hout2.
Qed.

Lemma processFile_regular_pipe_agree_witness :
  wfConfig padConfig = true
  ∧ (0x150 <= length (data smallImage))%nat
  ∧ Z.of_nat (length (data smallImage)) < 0x10000 * BANK_SIZE
  ∧ (∃ h1 h2,
      processFile padConfig (Z.of_nat (length (data smallImage)))
                  (mkState (SameFile (mkFile (data smallImage) 0)) 0 [])
      = Done (mkState h1 0 [])
      ∧ processFile padConfig 0
          (mkState (Pipe (mkFile (data smallImage) 0) (mkFile [] 0)) 0 [])
        = Done (mkState h2 0 [])
      ∧ written h1 = written h2).
Proof.
  split; [reflexivity|]. split; [vm_compute; lia|].
  split; [vm_compute; reflexivity|].
  apply (processFile_regular_pipe_agree padConfig (data smallImage) 0 [] 0 []);
    [reflexivity|vm_compute; lia|vm_compute; reflexivity].
Defined.

(** ** The size of the image *)

(** X2: without a pad value the image keeps its size. *)
Theorem processFile_keeps_size C h e rep :
  wfConfig C = true → fresh h = true → sizeOk h = true →
  padRequested C = false →
  ∃ h', processFile C (fileSizeOf h) (mkState h e rep)
        = Done (mkState h' e rep)
    ∧ length (written h') = length (imageOf h).
Proof.
  intros Hwf Hfresh Hsize Hpad.
  destruct (processFile_fixedImage C h e rep Hwf Hfresh Hsize)
    as (h' & Hrun & Hout).
  exists h'. split; [done|]. rewrite Hout.
  rewrite fixedImage_eq, length_app, storeGlobalSum_length,
    fixHeaderSum_length, paddedRom0_length.
  unfold bodyOf, paddingBytes. rewrite Hpad, app_nil_r, length_drop. lia.
Qed.

Lemma processFile_keeps_size_witness :
  wfConfig validateConfig = true ∧ fresh smallFile = true
  ∧ sizeOk smallFile = true ∧ padRequested validateConfig = false
  ∧ (∃ h', processFile validateConfig (fileSizeOf smallFile)
                       (mkState smallFile 0 [])
           = Done (mkState h' 0 [])
       ∧ length (written h') = length (imageOf smallFile)).
Proof.
  split; [reflexivity|]. split; [reflexivity|]. split; [reflexivity|].
  split; [reflexivity|].
  apply (processFile_keeps_size validateConfig smallFile 0 []); reflexivity.
Defined.

(** ** A pipe of more than 65536 banks *)

(** X3: on a pipe, [processFile] gives up exactly when the input is longer than
    65536 banks: it then reports that the image has too many banks and
    writes nothing.  An input of up to and including 65536 banks is fixed
    and written, and nothing is reported. *)
Theorem processFile_pipe_limit C inp e rep :
  wfConfig C = true → (0x150 <= length (unread inp))%nat →
  ∃ st', processFile C 0 (mkState (Pipe inp (mkFile [] 0)) e rep) = Done st'
    ∧ if Z.of_nat (length (unread inp)) <=? 0x10000 * BANK_SIZE
      then nbErrors st' = e ∧ reported st' = rep
           ∧ written (handles st') = fixedImage C (unread inp)
      else reported st' = rep ++ [TooManyBanks]
           ∧ written (handles st') = [].
Proof.
  intros Hwf Hmin.
  destruct (Z.leb_spec (Z.of_nat (length (unread inp))) (0x10000 * BANK_SIZE))
    as [Hle|Hgt].
  - destruct (processFile_pipe C inp (mkFile [] 0) e rep Hwf eq_refl Hmin Hle)
      as (inp' & p & ->).
    eexists. split; [reflexivity|]. done.
  - destruct (processFile_pipe_reject C inp (mkFile [] 0) e rep Hgt)
      as (h' & -> & Hout).
    eexists. split; [reflexivity|]. split; [done|].
    unfold written. simpl. by rewrite Hout.
Qed.

Lemma processFile_pipe_limit_witness :
  wfConfig validateConfig = true
  ∧ (0x150 <= length (unread smallImage))%nat
  ∧ (∃ st', processFile validateConfig 0
              (mkState (Pipe smallImage (mkFile [] 0)) 0 []) = Done st'
       ∧ if Z.of_nat (length (unread smallImage)) <=? 0x10000 * BANK_SIZE
         then nbErrors st' = 0 ∧ reported st' = []
              ∧ written (handles st')
                = fixedImage validateConfig (unread smallImage)
         else reported st' = [] ++ [TooManyBanks]
              ∧ written (handles st') = []).
Proof.
  split; [reflexivity|]. split; [vm_compute; lia|].
  apply (processFile_pipe_limit validateConfig smallImage 0 []);
    [reflexivity|vm_compute; lia].
Defined.

(** [rgbfix -C -t GAME -i ABCD -k 01 -s -m 0x19 -r 2 -j -l 0x33 -n 1] *)
Definition fullConfig : Config :=
  mkConfig CGB 0 (Some [0x41; 0x42; 0x43; 0x44]) 4 false (Some [0x30; 0x31]) 2
           0x33 MBC5 1 UNSPECIFIED 2 true (Some [0x47; 0x41; 0x4d; 0x45]) 4.

(** [rgbfix -f L]: trash the logo. *)
Definition trashLogoConfig : Config :=
  mkConfig DMG TRASH_LOGO None 0 true None 0 UNSPECIFIED MBC_NONE UNSPECIFIED
           UNSPECIFIED UNSPECIFIED false None 0.

(** X4: when the logo is to be fixed, the image holds the Nintendo logo at
    0x104..0x133; when it is to be trashed, the complement of each of its
    bytes.  Fixing wins when both bits are set. *)
Theorem processFile_logo C h e rep :
  wfConfig C = true → fresh h = true → sizeOk h = true →
  hasBit (fixSpec C) (Z.lor FIX_LOGO TRASH_LOGO) = true →
  ∃ h', processFile C (fileSizeOf h) (mkState h e rep)
        = Done (mkState h' e rep)
    ∧ ∀ k, (k < length ninLogo)%nat →
        written h' !! (0x104 + k)%nat
        = Some (if hasBit (fixSpec C) FIX_LOGO then byteAt ninLogo k
                else 255 - byteAt ninLogo k).
Proof.
  intros Hwf Hfresh Hsize Hbit.
  destruct (processFile_fixedImage C h e rep Hwf Hfresh Hsize)
    as (h' & Hrun & Hout).
  exists h'. split; [done|]. intros k Hk. rewrite Hout.
  apply andb_true_iff in Hsize as [Hmin%Nat.leb_le _].
  pose proof Hk as Hk'. change (length ninLogo) with 48%nat in Hk'.
  assert (0x150 <= length (take (Z.to_nat BANK_SIZE) (imageOf h)))%nat
    as Hrom0 by (rewrite length_take; unfold BANK_SIZE; lia).
  rewrite fixedImage_lookup_header by lia.
  rewrite (applyHeaderEdits_logo C _ Hrom0 k Hk Hbit).
  f_equal. destruct (hasBit (fixSpec C) FIX_LOGO); [done|].
  assert (0 <= byteAt ninLogo k < 256) as Hb.
  { clear -Hk'. do 48 (destruct k as [|k]; [by vm_compute|]). lia. }
  unfold Z.lnot. rewrite <- Z.sub_1_r.
  replace (- byteAt ninLogo k - 1)
    with ((255 - byteAt ninLogo k) + (-1) * 256) by lia.
  rewrite Z.mod_add by lia. apply Z.mod_small. lia.
Qed.

Lemma processFile_logo_witness :
  wfConfig trashLogoConfig = true ∧ fresh smallFile = true
  ∧ sizeOk smallFile = true
  ∧ hasBit (fixSpec trashLogoConfig) (Z.lor FIX_LOGO TRASH_LOGO) = true
  ∧ (∃ h', processFile trashLogoConfig (fileSizeOf smallFile)
                       (mkState smallFile 0 [])
           = Done (mkState h' 0 [])
       ∧ ∀ k, (k < length ninLogo)%nat →
           written h' !! (0x104 + k)%nat
           = Some (if hasBit (fixSpec trashLogoConfig) FIX_LOGO
                   then byteAt ninLogo k else 255 - byteAt ninLogo k)).
Proof.
  split; [reflexivity|]. split; [reflexivity|]. split; [reflexivity|].
  split; [reflexivity|].
  apply (processFile_logo trashLogoConfig smallFile 0 []); reflexivity.
Defined.

(** X5: the title, the game ID and the new licensee given on the command line
    are in the image as given, each at its offset: under [wfConfig] none of
    the later fields overwrites an earlier one. *)
Theorem processFile_header_strings C h e rep :
  wfConfig C = true → fresh h = true → sizeOk h = true →
  ∃ h', processFile C (fileSizeOf h) (mkState h e rep)
        = Done (mkState h' e rep)
    ∧ (∀ t k, title C = Some t → (k < titleLen C)%nat →
         written h' !! (0x134 + k)%nat = t !! k)
    ∧ (∀ g k, gameID C = Some g → (k < gameIDLen C)%nat →
         written h' !! (0x13f + k)%nat = g !! k)
    ∧ (∀ l k, newLicensee C = Some l → (k < newLicenseeLen C)%nat →
         written h' !! (0x144 + k)%nat = l !! k).
Proof.
  intros Hwf Hfresh Hsize.
  destruct (processFile_fixedImage C h e rep Hwf Hfresh Hsize)
    as (h' & Hrun & Hout).
  exists h'. split; [done|]. rewrite Hout.
  apply andb_true_iff in Hsize as [Hmin%Nat.leb_le _].
  destruct (wfConfig_title C Hwf) as (H16 & H11 & H15 & H4 & H2 & _).
  assert (0x150 <= length (take (Z.to_nat BANK_SIZE) (imageOf h)))%nat
    as Hrom0 by (rewrite length_take; unfold BANK_SIZE; lia).
  split; [|split].
  - intros t k Ht Hk. rewrite fixedImage_lookup_header by lia.
    by apply applyHeaderEdits_title.
  - intros g k Hg Hk. rewrite fixedImage_lookup_header by lia.
    by apply applyHeaderEdits_gameID.
  - intros l k Hl Hk. rewrite fixedImage_lookup_header by lia.
    by apply applyHeaderEdits_newLicensee.
Qed.

Lemma processFile_header_strings_witness :
  wfConfig fullConfig = true ∧ fresh smallFile = true
  ∧ sizeOk smallFile = true
  ∧ (∃ h', processFile fullConfig (fileSizeOf smallFile)
                       (mkState smallFile 0 [])
           = Done (mkState h' 0 [])
       ∧ (∀ t k, title fullConfig = Some t → (k < titleLen fullConfig)%nat →
            written h' !! (0x134 + k)%nat = t !! k)
       ∧ (∀ g k, gameID fullConfig = Some g →
            (k < gameIDLen fullConfig)%nat →
            written h' !! (0x13f + k)%nat = g !! k)
       ∧ (∀ l k, newLicensee fullConfig = Some l →
            (k < newLicenseeLen fullConfig)%nat →
            written h' !! (0x144 + k)%nat = l !! k)).
Proof.
  split; [reflexivity|]. split; [reflexivity|]. split; [reflexivity|].
  apply (processFile_header_strings fullConfig smallFile 0 []); reflexivity.
Defined.

(** X6: each one-byte field of the header that the options set is in the
    image: the colour flag, the SGB flag, the cartridge type, the RAM size,
    the destination code, the old licensee and the version. *)
Theorem processFile_header_bytes C h e rep :
  wfConfig C = true → fresh h = true → sizeOk h = true →
  ∃ h', processFile C (fileSizeOf h) (mkState h e rep)
        = Done (mkState h' e rep)
    ∧ (model C = BOTH → written h' !! 0x143%nat = Some 0x80)
    ∧ (model C = CGB → written h' !! 0x143%nat = Some 0xc0)
    ∧ (sgb C = true → written h' !! 0x146%nat = Some 0x03)
    ∧ (cartridgeType C < MBC_NONE →
       written h' !! 0x147%nat = Some (cartridgeType C mod 256))
    ∧ (ramSize C ≠ UNSPECIFIED →
       written h' !! 0x149%nat = Some (ramSize C mod 256))
    ∧ (japanese C = false → written h' !! 0x14a%nat = Some 0x01)
    ∧ (oldLicensee C ≠ UNSPECIFIED →
       written h' !! 0x14b%nat = Some (oldLicensee C mod 256))
    ∧ (romVersion C ≠ UNSPECIFIED →
       written h' !! 0x14c%nat = Some (romVersion C mod 256)).
Proof.
  intros Hwf Hfresh Hsize.
  destruct (processFile_fixedImage C h e rep Hwf Hfresh Hsize)
    as (h' & Hrun & Hout).
  exists h'. split; [done|]. rewrite Hout.
  apply andb_true_iff in Hsize as [Hmin%Nat.leb_le _].
  assert (0x150 <= length (take (Z.to_nat BANK_SIZE) (imageOf h)))%nat
    as Hrom0 by (rewrite length_take; unfold BANK_SIZE; lia).
  rewrite !fixedImage_lookup_header by lia.
  repeat split.
  - intros Hm. rewrite applyHeaderEdits_model by (by rewrite ?Hm).
    by rewrite Hm.
  - intros Hm. rewrite applyHeaderEdits_model by (by rewrite ?Hm).
    by rewrite Hm.
  - by apply applyHeaderEdits_sgb.
  - by apply applyHeaderEdits_cartridgeType.
  - by apply applyHeaderEdits_ramSize.
  - by apply applyHeaderEdits_japanese.
  - by apply applyHeaderEdits_oldLicensee.
  - by apply applyHeaderEdits_romVersion.
Qed.

Lemma processFile_header_bytes_witness :
  wfConfig fullConfig = true ∧ fresh smallFile = true
  ∧ sizeOk smallFile = true
  ∧ (∃ h', processFile fullConfig (fileSizeOf smallFile)
                       (mkState smallFile 0 [])
           = Done (mkState h' 0 [])
       ∧ (model fullConfig = BOTH → written h' !! 0x143%nat = Some 0x80)
       ∧ (model fullConfig = CGB → written h' !! 0x143%nat = Some 0xc0)
       ∧ (sgb fullConfig = true → written h' !! 0x146%nat = Some 0x03)
       ∧ (cartridgeType fullConfig < MBC_NONE →
          written h' !! 0x147%nat = Some (cartridgeType fullConfig mod 256))
       ∧ (ramSize fullConfig ≠ UNSPECIFIED →
          written h' !! 0x149%nat = Some (ramSize fullConfig mod 256))
       ∧ (japanese fullConfig = false →
          written h' !! 0x14a%nat = Some 0x01)
       ∧ (oldLicensee fullConfig ≠ UNSPECIFIED →
          written h' !! 0x14b%nat = Some (oldLicensee fullConfig mod 256))
       ∧ (romVersion fullConfig ≠ UNSPECIFIED →
          written h' !! 0x14c%nat = Some (romVersion fullConfig mod 256))).
Proof.
  split; [reflexivity|]. split; [reflexivity|]. split; [reflexivity|].
  apply (processFile_header_bytes fullConfig smallFile 0 []); reflexivity.
Defined.

(** * Further properties of the parser *)

(** ** [hasRAM] *)

(** [hasRAM(type)]; [None] where the C function is [unreachable_()], that
    is for a value that is no member of [enum MbcType]. *)
Definition hasRAM (type : Z) : option bool :=
  if (type =? ROM) || (type =? MBC1)
     || (type =? MBC2) (* Technically has RAM, but not marked as such *)
     || (type =? MBC2_BATTERY) || (type =? MMM01) || (type =? MBC3)
     || (type =? MBC3_TIMER_BATTERY) || (type =? MBC5)
     || (type =? MBC5_RUMBLE) || (type =? MBC6) || (type =? BANDAI_TAMA5)
     || (type =? MBC_NONE) || (type =? MBC_BAD)
     || (type =? MBC_WRONG_FEATURES) || (type =? MBC_BAD_RANGE)
  then Some false
  else if (type =? ROM_RAM) || (type =? ROM_RAM_BATTERY)
          || (type =? MBC1_RAM) || (type =? MBC1_RAM_BATTERY)
          || (type =? MMM01_RAM) || (type =? MMM01_RAM_BATTERY)
          || (type =? MBC3_TIMER_RAM_BATTERY) || (type =? MBC3_RAM)
          || (type =? MBC3_RAM_BATTERY) || (type =? MBC5_RAM)
          || (type =? MBC5_RAM_BATTERY) || (type =? MBC5_RUMBLE_RAM)
          || (type =? MBC5_RUMBLE_RAM_BATTERY)
          || (type =? MBC7_SENSOR_RUMBLE_RAM_BATTERY)
          || (type =? POCKET_CAMERA) || (type =? HUC3)
          || (type =? HUC1_RAM_BATTERY)
  then Some true
  else None.

(** The members of [enum MbcType] that are cartridge types. *)
Definition mbcTypes : list Z :=
  [ ROM; ROM_RAM; ROM_RAM_BATTERY; MBC1; MBC1_RAM; MBC1_RAM_BATTERY;
    MBC2; MBC2_BATTERY; MMM01; MMM01_RAM; MMM01_RAM_BATTERY;
    MBC3; MBC3_TIMER_BATTERY; MBC3_TIMER_RAM_BATTERY; MBC3_RAM;
    MBC3_RAM_BATTERY; MBC5; MBC5_RAM; MBC5_RAM_BATTERY;
    MBC5_RUMBLE; MBC5_RUMBLE_RAM; MBC5_RUMBLE_RAM_BATTERY;
    MBC6; MBC7_SENSOR_RUMBLE_RAM_BATTERY; POCKET_CAMERA; BANDAI_TAMA5;
    HUC3; HUC1_RAM_BATTERY ].

(** The error values of [enum MbcType]. *)
Definition mbcErrors : list Z :=
  [ MBC_NONE; MBC_BAD; MBC_WRONG_FEATURES; MBC_BAD_RANGE ].

Definition memZ (x : Z) (l : list Z) : bool := existsb (Z.eqb x) l.

Lemma memZ_elem_of x l : memZ x l = true ↔ x ∈ l.
Proof.
  unfold memZ. rewrite existsb_exists. split.
  - intros (y & Hy & ->%Z.eqb_eq). by apply list_elem_of_In.
  - intros H. exists x. split; [by apply list_elem_of_In|apply Z.eqb_refl].
Qed.

Lemma mbcName_memZ type :
  match mbcName type with Some _ => true | None => false end
  = memZ type mbcTypes.
Proof.
  unfold mbcName, memZ, mbcTypes, existsb.
  repeat match goal with
         | |- context [type =? ?x] =>
           destruct (Z.eqb_spec type x) as [->|?]; [reflexivity|]
         end.
  reflexivity.
Qed.

Lemma hasRAM_memZ type :
  match hasRAM type with Some _ => true | None => false end
  = memZ type mbcTypes || memZ type mbcErrors.
Proof.
  unfold hasRAM, memZ, mbcTypes, mbcErrors, existsb.
  repeat match goal with
         | |- context [type =? ?x] =>
           destruct (Z.eqb_spec type x) as [->|?]; [reflexivity|]
         end.
  reflexivity.
Qed.

(** X7: [mbcName] has a name for the cartridge types of [enum MbcType] and for
    nothing else, and [hasRAM] has an answer for the members of the
    enumeration, error values included, and for nothing else: for every other
    value both reach [unreachable_()]. *)
Theorem mbcName_hasRAM_domain type :
  (is_Some (mbcName type) ↔ type ∈ mbcTypes)
  ∧ (is_Some (hasRAM type) ↔ type ∈ mbcTypes ∨ type ∈ mbcErrors)
  ∧ (type ∈ mbcErrors → mbcName type = None ∧ hasRAM type = Some false).
Proof.
  pose proof (mbcName_memZ type) as Hn. pose proof (hasRAM_memZ type) as Hr.
  split; [|split].
  - rewrite <- memZ_elem_of, <- Hn. destruct (mbcName type); split;
      intros H; first [done | by eexists | by destruct H].
  - rewrite <- !memZ_elem_of, <- orb_true_iff, <- Hr.
    destruct (hasRAM type); split;
      intros H; first [done | by eexists | by destruct H].
  - intros H. repeat (apply elem_of_cons in H as [->|H]; [done|]).
    by apply elem_of_nil in H.
Qed.

(** ** The values that [parseMBC] returns *)

Lemma digitValue_nonneg c d : digitValue c = Some d → 0 <= d.
Proof.
  intros H.
  pose proof (ascii_forall
    (λ c, match digitValue c with Some d => 0 <=? d | None => true end)
    ltac:(vm_compute; reflexivity) c) as Hc.
  simpl in Hc. rewrite H in Hc. by apply Z.leb_le.
Qed.

Lemma scanDigits_nonneg base : ∀ ptr acc,
  0 <= base → 0 <= acc → 0 <= (scanDigits base ptr acc).1.
Proof.
  induction ptr as [|c ptr IH]; intros acc Hb Ha; simpl; [done|].
  destruct (digitValue c) as [d|] eqn:Hd; [|done].
  apply digitValue_nonneg in Hd.
  destruct (d <? base); [|done].
  apply IH; [done|]. unfold ULONG_MAX. apply Z.min_glb; nia.
Qed.

Lemma strtoul0_nonneg name : 0 <= (strtoul0 name).1.
Proof.
  unfold strtoul0. repeat case_match; by apply scanDigits_nonneg.
Qed.

Lemma parseMBC_classes name code :
  parseMBC name = Some code →
  0 <= code <= 0xFF ∨ code = MBC_BAD ∨ code = MBC_WRONG_FEATURES
  ∨ code = MBC_BAD_RANGE.
Proof.
  intros Hcode. destruct (isNumeric name) eqn:Hnum.
  - unfold parseMBC in Hcode. rewrite Hnum in Hcode.
    pose proof (strtoul0_nonneg name) as Hpos.
    destruct (strtoul0 name) as [mbc endptr]. simpl in Hpos.
    destruct (negb _); [simplify_eq; auto|].
    destruct (Z.gtb_spec mbc 255); simplify_eq; [auto|left; lia].
  - destruct (parseMBC_symbolic_codes name code Hnum Hcode)
      as [H|[->| ->]]; [|auto..].
    left. repeat (apply elem_of_cons in H as [->|H]; [by vm_compute|]).
    by apply elem_of_nil in H.
Qed.

(** X8: [parseMBC] returns a byte, or one of the three error values; it never
    returns [MBC_NONE], the value of "no MBC specified". *)
Theorem parseMBC_codes name :
  ∃ code, parseMBC name = Some code
    ∧ (0 <= code <= 0xFF ∨ code = MBC_BAD ∨ code = MBC_WRONG_FEATURES
       ∨ code = MBC_BAD_RANGE)
    ∧ code ≠ MBC_NONE.
Proof.
  destruct (parseMBC_total name) as [code Hcode]. exists code.
  split; [done|]. pose proof (parseMBC_classes name code Hcode) as H.
  split; [done|]. unfold MBC_NONE, UNSPECIFIED, MBC_BAD, MBC_WRONG_FEATURES,
    MBC_BAD_RANGE in *. lia.
Qed.

(** X9: a cartridge type that [parseMBC] reads from a name (not from a number)
    has a name and a RAM verdict: neither [mbcName] nor [hasRAM] reaches
    [unreachable_()] on it. *)
Theorem parseMBC_symbolic_named name code :
  isNumeric name = false → parseMBC name = Some code → code < MBC_NONE →
  is_Some (mbcName code) ∧ is_Some (hasRAM code).
Proof.
  intros Hnum Hcode Hlt.
  destruct (parseMBC_symbolic_codes name code Hnum Hcode) as [H|[->| ->]];
    [|by vm_compute in Hlt..].
  repeat (apply elem_of_cons in H as [->|H]; [split; by eexists|]).
  by apply elem_of_nil in H.
Qed.

Lemma parseMBC_symbolic_named_witness :
  isNumeric "MBC5+RAM" = false ∧ parseMBC "MBC5+RAM" = Some MBC5_RAM
  ∧ MBC5_RAM < MBC_NONE
  ∧ is_Some (mbcName MBC5_RAM) ∧ is_Some (hasRAM MBC5_RAM).
Proof.
  split; [reflexivity|]. split; [reflexivity|]. split; [reflexivity|].
  apply (parseMBC_symbolic_named "MBC5+RAM" MBC5_RAM); reflexivity.
Defined.

(** ** [hasRAM] and the RAM feature *)

Definition ramAgrees (mbc features : Z) : bool :=
  match checkFeatures mbc features with
  | Some code =>
    match hasRAM code with
    | Some ram =>
      Bool.eqb ram (hasBit features RAM || (code =? POCKET_CAMERA)
                    || (code =? HUC3))
    | None => false
    end
  | None => true
  end.

(** X10: for a type and features that [parseMBC]'s check accepts, [hasRAM] says
    that the cartridge has RAM exactly when RAM is among the features;
    but for POCKET CAMERA and HUC3, which have RAM and take no feature. *)
Theorem hasRAM_checkFeatures mbc features code :
  mbc ∈ baseTypes → 0 <= features < 256 →
  checkFeatures mbc features = Some code →
  hasRAM code = Some (hasBit features RAM || (code =? POCKET_CAMERA)
                      || (code =? HUC3)).
Proof.
  intros Hmbc Hf Hcode.
  assert (ramAgrees mbc features = true) as H.
  { assert (forallb (λ mbc, forallb (λ k, ramAgrees mbc (Z.of_nat k))
                                    (seq 0 256)) baseTypes = true) as Hall
      by (vm_compute; reflexivity).
    rewrite forallb_forall in Hall.
    specialize (Hall mbc (proj1 (list_elem_of_In _ _) Hmbc)).
    rewrite forallb_forall in Hall.
    specialize (Hall (Z.to_nat features)).
    rewrite Z2Nat.id in Hall by lia. apply Hall, in_seq. lia. }
  unfold ramAgrees in H. rewrite Hcode in H.
  destruct (hasRAM code) as [ram|]; [|done].
  apply Bool.eqb_prop in H. by rewrite H.
Qed.

Lemma hasRAM_checkFeatures_witness :
  MBC5 ∈ baseTypes ∧ 0 <= Z.lor RUMBLE RAM < 256
  ∧ checkFeatures MBC5 (Z.lor RUMBLE RAM) = Some MBC5_RUMBLE_RAM
  ∧ hasRAM MBC5_RUMBLE_RAM
    = Some (hasBit (Z.lor RUMBLE RAM) RAM
            || (MBC5_RUMBLE_RAM =? POCKET_CAMERA)
            || (MBC5_RUMBLE_RAM =? HUC3)).
Proof.
  assert (MBC5 ∈ baseTypes) as Hin by in_list.
  split; [exact Hin|]. split; [vm_compute; split; [discriminate|reflexivity]|].
  split; [reflexivity|].
  apply (hasRAM_checkFeatures MBC5 (Z.lor RUMBLE RAM) MBC5_RUMBLE_RAM);
    [exact Hin|vm_compute; split; [discriminate|reflexivity]|reflexivity].
Defined.

(** ** From a type to its name and back *)

(** X29: but for the two MBC3 types with a timer, [parseMBC] reads the name
    that [mbcName] gives a cartridge type back into this type. *)
Theorem mbcName_read_back type :
  type ∈ mbcTypes →
  type ≠ MBC3_TIMER_BATTERY → type ≠ MBC3_TIMER_RAM_BATTERY →
  ∃ name, mbcName type = Some name ∧ parseMBC name = Some type.
Proof.
  intros Hin H1 H2. apply memZ_elem_of in Hin.
  rewrite <- mbcName_memZ in Hin.
  destruct (mbcName type) as [name|] eqn:Hname; [|done].
  exists name. split; [done|]. by apply mbcName_parseMBC.
Qed.

Lemma mbcName_read_back_witness :
  MBC5_RUMBLE_RAM ∈ mbcTypes
  ∧ MBC5_RUMBLE_RAM ≠ MBC3_TIMER_BATTERY
  ∧ MBC5_RUMBLE_RAM ≠ MBC3_TIMER_RAM_BATTERY
  ∧ (∃ name, mbcName MBC5_RUMBLE_RAM = Some name
             ∧ parseMBC name = Some MBC5_RUMBLE_RAM).
Proof.
  assert (MBC5_RUMBLE_RAM ∈ mbcTypes) as Hin
    by (apply memZ_elem_of; reflexivity).
  split; [exact Hin|]. split; [discriminate|]. split; [discriminate|].
  apply (mbcName_read_back MBC5_RUMBLE_RAM); [exact Hin|discriminate..].
Defined.

(** * The command line *)

(** ** [strtoul] *)

(** [isspace] in the C locale. *)
Definition isSpace (c : ascii) : bool :=
  let n := Z.of_N (N_of_ascii c) in (n =? 32) || ((9 <=? n) && (n <=? 13)).

Fixpoint skipSpace (ptr : string) : string :=
  match ptr with
  | EmptyString => ptr
  | String c ptr' => if isSpace c then skipSpace ptr' else ptr
  end.

(** The digits of a number in base [base], without the clamp of
    [scanDigits]: the value and the first character that is no digit. *)
Fixpoint scanNumber (base : Z) (ptr : string) (acc : Z) : Z * string :=
  match ptr with
  | EmptyString => (acc, ptr)
  | String c ptr' =>
    match digitValue c with
    | Some d =>
      if d <? base then scanNumber base ptr' (acc * base + d)
      else (acc, ptr)
    | None => (acc, ptr)
    end
  end.

(** [strtoul(nptr, &endptr, base)] of the C library, for [base] 0 or 16 and
    an [unsigned long] of 64 bits: white space, an optional sign, an optional
    prefix, then the digits.  Without a digit nothing is converted and
    [endptr] is [nptr]; a value that does not fit yields [ULONG_MAX]; a
    minus sign negates the value as an [unsigned long]. *)
Definition strtoul (nptr : string) (base : Z) : Z * string :=
  let s := skipSpace nptr in
  let neg := (deref s =? "-")%char in
  let s := if neg || (deref s =? "+")%char then advance s else s in
  let x := deref (advance s) in
  let '(base, s) :=
    if (deref s =? "0")%char && ((x =? "x") || (x =? "X"))%char
       && isDigitOf 16 (deref (advance (advance s)))
    then (16, advance (advance s))
    else if base =? 0 then (if (deref s =? "0")%char then 8 else 10, s)
    else (base, s) in
  if negb (isDigitOf base (deref s)) then (0, nptr)
  else
    let '(value, endptr) := scanNumber base s 0 in
    (if value >? ULONG_MAX then ULONG_MAX
     else if neg then (- value) mod 2 ^ 64 else value, endptr).

(** ** [parseByte] *)

(** What [main] reports about its options, each with the option or the
    argument it is about. *)
Inductive Message : Type :=
  | EmptyArgument (name : string)
      (* "Argument to option '...' may not be empty" *)
  | NotANumber (name optarg : string)
      (* "Expected number as argument to option '...', got ..." *)
  | TooLarge (name : string) (tmp : Z)
      (* "Argument to option '...' is larger than 255: ..." *)
  | UnknownMBC (optarg : string)
      (* "Unknown MBC ..." *)
  | IncompatibleFeatures (optarg : string)
      (* "Features incompatible with MBC (...)" *)
  | MBCOutOfRange (optarg : string).
      (* "Specified MBC ID out of range 0-255: ..." *)

(** The macro [parseByte(output, name)]: the value to store in [output], or
    the message to [report], in which case [output] is left alone. *)
Definition parseByte (optarg name : string) : Z + Message :=
  if (deref optarg =? zero)%char then inr (EmptyArgument name)
  else
    let '(tmp, endptr) :=
      if (deref optarg =? "$")%char then strtoul (advance optarg) 16
      else strtoul optarg 0 in
    if negb (deref endptr =? zero)%char then inr (NotANumber name optarg)
    else if tmp >? 0xFF then inr (TooLarge name tmp)
    else inl tmp.

(** ** Printing a number, to read it back *)

Definition digitChar (d : Z) : ascii :=
  ascii_of_N (Z.to_N (if d <? 10 then 48 + d else 87 + d)).

Fixpoint printDigits (fuel : nat) (base n : Z) (acc : string) : string :=
  match fuel with
  | O => acc
  | S fuel =>
    let acc := String (digitChar (n mod base)) acc in
    if n / base =? 0 then acc else printDigits fuel base (n / base) acc
  end.

Definition printNum (base n : Z) : string := printDigits 64 base n "".

(** ** Properties of [strtoul] *)

Lemma scanNumber_nonneg base : ∀ ptr acc,
  0 <= base → 0 <= acc → 0 <= (scanNumber base ptr acc).1.
Proof.
  induction ptr as [|c ptr IH]; intros acc Hb Ha; simpl; [done|].
  destruct (digitValue c) as [d|] eqn:Hd; [|done].
  apply digitValue_nonneg in Hd.
  destruct (d <? base); [|done]. apply IH; [done|nia].
Qed.

Lemma scanNumber_clamp base : ∀ ptr acc,
  1 <= base → 0 <= acc →
  scanDigits base ptr (Z.min acc ULONG_MAX)
  = (Z.min (scanNumber base ptr acc).1 ULONG_MAX,
     (scanNumber base ptr acc).2).
Proof.
  induction ptr as [|c ptr IH]; intros acc Hb Ha; simpl; [done|].
  destruct (digitValue c) as [d|] eqn:Hd; [|done].
  apply digitValue_nonneg in Hd.
  destruct (d <? base); [|done].
  rewrite <- IH by nia. f_equal. unfold ULONG_MAX. nia.
Qed.

Lemma strtoul_nonneg nptr base : 0 <= base → 0 <= (strtoul nptr base).1.
Proof.
  intros Hb. unfold strtoul.
  set (s := if _ || _ then _ else skipSpace nptr).
  set (bs := if _ && _ && _ then _ else _).
  assert (0 <= bs.1) as Hbs.
  { subst bs. repeat case_match; simpl; lia. }
  destruct bs as [b s']. simpl in Hbs.
  destruct (negb _); [done|].
  pose proof (scanNumber_nonneg b s' 0 Hbs ltac:(done)) as Hv.
  destruct (scanNumber b s' 0) as [v e]. simpl in *.
  destruct (v >? ULONG_MAX); [done|].
  destruct (_ =? _)%char; [|done]. apply Z.mod_pos_bound. lia.
Qed.

(** X11: on a string that begins with a digit, the [strtoul0] that the model of
    [parseMBC] uses is [strtoul] with base 0. *)
Theorem strtoul_strtoul0 name :
  isNumeric name = true → strtoul name 0 = strtoul0 name.
Proof.
  destruct name as [|c name]; [done|].
  unfold isNumeric. cbn [deref]. intros Hc.
  assert (isSpace c = false ∧ (c =? "-")%char = false
          ∧ (c =? "+")%char = false
          ∧ isDigitOf 10 c = true
          ∧ ((c =? "0")%char = true → isDigitOf 8 c = true)) as Hfacts.
  { revert Hc. generalize c. intros c'.
    pose proof (ascii_forall
      (λ c, implb (("0" <=? c) && (c <=? "9"))%char
              (negb (isSpace c) && negb (c =? "-")%char
               && negb (c =? "+")%char && isDigitOf 10 c
               && implb (c =? "0")%char (isDigitOf 8 c)))
      ltac:(vm_compute; reflexivity) c') as H.
    cbv beta in H. intros Hc. rewrite Hc in H. simpl in H.
    repeat (apply andb_true_iff in H as [H ?]).
    repeat match goal with
           | H : negb _ = true |- _ => apply negb_true_iff in H
           end.
    repeat split; try done. intros E. by rewrite E in *. }
  destruct Hfacts as (Hsp & Hm & Hp & H10 & H8).
  unfold strtoul, strtoul0. cbn [skipSpace]. rewrite Hsp. cbn [deref].
  rewrite Hm, Hp. cbn [orb advance deref].
  destruct (c =? "0")%char eqn:H0.
  - cbn [andb].
    destruct (((deref name =? "x") || (deref name =? "X"))%char
              && isDigitOf 16 (deref (advance name))) eqn:Hx.
    + apply andb_true_iff in Hx as [_ Hx]. rewrite Hx. cbn [negb].
      pose proof (scanNumber_clamp 16 (advance name) 0
                    ltac:(lia) ltac:(lia)) as Hs.
      change (Z.min 0 ULONG_MAX) with 0 in Hs. rewrite Hs.
      pose proof (scanNumber_nonneg 16 (advance name) 0
                    ltac:(lia) ltac:(lia)) as Hv.
      destruct (scanNumber 16 (advance name) 0) as [v e]. simpl in *.
      f_equal. destruct (Z.gtb_spec v ULONG_MAX); lia.
    + rewrite Z.eqb_refl. cbn [deref]. rewrite (H8 eq_refl). cbn [negb].
      pose proof (scanNumber_clamp 8 (String c name) 0
                    ltac:(lia) ltac:(lia)) as Hs.
      change (Z.min 0 ULONG_MAX) with 0 in Hs. rewrite Hs.
      pose proof (scanNumber_nonneg 8 (String c name) 0
                    ltac:(lia) ltac:(lia)) as Hv.
      destruct (scanNumber 8 (String c name) 0) as [v e]. simpl in *.
      f_equal. destruct (Z.gtb_spec v ULONG_MAX); lia.
  - cbn [andb]. rewrite Z.eqb_refl. cbn [deref]. rewrite H10. cbn [negb].
    pose proof (scanNumber_clamp 10 (String c name) 0
                  ltac:(lia) ltac:(lia)) as Hs.
    change (Z.min 0 ULONG_MAX) with 0 in Hs. rewrite Hs.
    pose proof (scanNumber_nonneg 10 (String c name) 0
                  ltac:(lia) ltac:(lia)) as Hv.
    destruct (scanNumber 10 (String c name) 0) as [v e]. simpl in *.
    f_equal. destruct (Z.gtb_spec v ULONG_MAX); lia.
Qed.

Lemma strtoul_strtoul0_witness :
  isNumeric "0x1B" = true ∧ strtoul "0x1B" 0 = strtoul0 "0x1B".
Proof.
  split; [reflexivity|]. apply (strtoul_strtoul0 "0x1B"). reflexivity.
Defined.

(** ** Properties of [parseByte] *)

Lemma strtoul_max nptr base : (strtoul nptr base).1 <= ULONG_MAX.
Proof.
  unfold strtoul.
  set (s := if _ || _ then _ else skipSpace nptr).
  set (bs := if _ && _ && _ then _ else _).
  destruct bs as [b s']. destruct (negb _); [by vm_compute|].
  destruct (scanNumber b s' 0) as [v e]. simpl.
  destruct (Z.gtb_spec v ULONG_MAX); [lia|].
  destruct (_ =? _)%char; [|lia].
  pose proof (Z.mod_pos_bound (- v) (2 ^ 64) ltac:(lia)).
  unfold ULONG_MAX. lia.
Qed.

Lemma parseByte_cases optarg name :
  ∃ tmp, 0 <= tmp <= ULONG_MAX
    ∧ (parseByte optarg name = inr (EmptyArgument name)
       ∨ parseByte optarg name = inr (NotANumber name optarg)
       ∨ (0xFF < tmp ∧ parseByte optarg name = inr (TooLarge name tmp))
       ∨ (tmp <= 0xFF ∧ parseByte optarg name = inl tmp)).
Proof.
  unfold parseByte. destruct (deref optarg =? zero)%char.
  { exists 0. split; [by vm_compute|auto]. }
  set (r := if (deref optarg =? "$")%char then _ else _).
  assert (0 <= r.1 <= ULONG_MAX) as Hr.
  { subst r. destruct (_ =? _)%char;
      (split; [by apply strtoul_nonneg|apply strtoul_max]). }
  destruct r as [tmp endptr]. simpl in Hr. exists tmp. split; [done|].
  destruct (negb _); [auto|].
  destruct (Z.gtb_spec tmp 255); [auto|]. right. right. right. split; [lia|done].
Qed.

Lemma parseByte_inl optarg name value :
  parseByte optarg name = inl value → 0 <= value <= 0xFF.
Proof.
  destruct (parseByte_cases optarg name)
    as (tmp & Htmp & [->|[->|[[_ ->]|[? ->]]]]); try done.
  intros [= <-]. lia.
Qed.

(** X12: [parseByte] stores a byte, or reports one error and stores nothing. *)
Theorem parseByte_result optarg name :
  match parseByte optarg name with
  | inl value => 0 <= value <= 0xFF
  | inr msg =>
    msg = EmptyArgument name ∨ msg = NotANumber name optarg
    ∨ ∃ tmp, 0xFF < tmp <= ULONG_MAX ∧ msg = TooLarge name tmp
  end.
Proof.
  destruct (parseByte_cases optarg name)
    as (tmp & Htmp & [->|[->|[[? ->]|[? ->]]]]); auto.
  - right. right. exists tmp. split; [lia|done].
  - lia.
Qed.

Definition bytes : list Z := List.map Z.of_nat (List.seq 0 256).

Lemma bytes_forall (P : Z → bool) :
  forallb P bytes = true → ∀ n, 0 <= n <= 0xFF → P n = true.
Proof.
  intros H n Hn. rewrite forallb_forall in H. apply H.
  unfold bytes. apply in_map_iff. exists (Z.to_nat n).
  split; [lia|]. apply in_seq. lia.
Qed.

Definition isInl (r : Z + Message) (n : Z) : bool :=
  match r with
  | inl value => value =? n
  | inr _ => false
  end.

Lemma isInl_eq r n : isInl r n = true → r = inl n.
Proof. destruct r; simpl; [intros ->%Z.eqb_eq|]; done. Qed.

(** X13: a byte written in decimal, in hexadecimal after ['$'] or ["0x"], or in
    octal after ['0'], is read back by [parseByte]. *)
Theorem parseByte_roundtrip n name :
  0 <= n <= 0xFF →
  parseByte (printNum 10 n) name = inl n
  ∧ parseByte (String "$" (printNum 16 n)) name = inl n
  ∧ parseByte (String "0" (String "x" (printNum 16 n))) name = inl n
  ∧ parseByte (String "0" (printNum 8 n)) name = inl n.
Proof.
  intros Hn.
  assert (∀ arg, isInl (parseByte arg name) n
                 = isInl (parseByte arg EmptyString) n) as Hname.
  { intros arg. unfold parseByte. destruct (_ =? _)%char; [done|].
    destruct (if (_ =? _)%char then _ else _) as [tmp endptr].
    destruct (negb _); [done|]. by destruct (tmp >? 255). }
  pose proof (bytes_forall
    (λ n, isInl (parseByte (printNum 10 n) EmptyString) n
          && isInl (parseByte (String "$" (printNum 16 n)) EmptyString) n
          && isInl (parseByte (String "0" (String "x" (printNum 16 n)))
                              EmptyString) n
          && isInl (parseByte (String "0" (printNum 8 n)) EmptyString) n)
    ltac:(vm_compute; reflexivity) n Hn) as H.
  cbv beta in H. rewrite <- !Hname in H.
  apply andb_true_iff in H as [H H8]. apply andb_true_iff in H as [H H0x].
  apply andb_true_iff in H as [H10 H16].
  split; [exact (isInl_eq _ _ H10)|]. split; [exact (isInl_eq _ _ H16)|].
  split; [exact (isInl_eq _ _ H0x)|exact (isInl_eq _ _ H8)].
Qed.

Lemma parseByte_roundtrip_witness :
  0 <= 0x33 <= 0xFF
  ∧ parseByte (printNum 10 0x33) "l" = inl 0x33
  ∧ parseByte (String "$" (printNum 16 0x33)) "l" = inl 0x33
  ∧ parseByte (String "0" (String "x" (printNum 16 0x33))) "l" = inl 0x33
  ∧ parseByte (String "0" (printNum 8 0x33)) "l" = inl 0x33.
Proof.
  split; [lia|]. apply (parseByte_roundtrip 0x33 "l"). lia.
Defined.

(** X14: a byte of 1 or more with a minus sign is a number to [strtoul], which
    negates it as an [unsigned long]: [parseByte] reports it as larger than
    255. *)
Theorem parseByte_negative n name :
  1 <= n <= 0xFF →
  parseByte (String "-" (printNum 10 n)) name
  = inr (TooLarge name (2 ^ 64 - n)).
Proof.
  intros Hn.
  set (tooLarge := λ (r : Z + Message) n,
    match r with
    | inr (TooLarge _ tmp) => tmp =? 2 ^ 64 - n
    | _ => false
    end).
  assert (∀ arg, tooLarge (parseByte arg EmptyString) n = true →
                 parseByte arg name = inr (TooLarge name (2 ^ 64 - n)))
    as Hname.
  { intros arg. unfold parseByte. destruct (_ =? _)%char; [done|].
    destruct (if (_ =? _)%char then _ else _) as [tmp endptr].
    destruct (negb _); [done|]. destruct (tmp >? 255); [|done].
    simpl. by intros ->%Z.eqb_eq. }
  apply Hname.
  pose proof (bytes_forall
    (λ n, (n =? 0)
          || tooLarge (parseByte (String "-" (printNum 10 n)) EmptyString) n)
    ltac:(vm_compute; reflexivity) n ltac:(lia)) as H.
  cbv beta in H. apply orb_true_iff in H as [H%Z.eqb_eq|H]; [lia|exact H].
Qed.

Lemma parseByte_negative_witness :
  1 <= 1 <= 0xFF
  ∧ parseByte (String "-" (printNum 10 1)) "p"
    = inr (TooLarge "p" (2 ^ 64 - 1)).
Proof.
  split; [lia|]. apply (parseByte_negative 1 "p"). lia.
Defined.

Fixpoint hasDigit (s : string) : bool :=
  match s with
  | EmptyString => false
  | String c s => isDigitOf 16 c || hasDigit s
  end.

Lemma isDigitOf_mono b c : b <= 16 → isDigitOf b c = true → isDigitOf 16 c = true.
Proof.
  unfold isDigitOf. destruct (digitValue c); [|done].
  intros Hb H%Z.ltb_lt. apply Z.ltb_lt. lia.
Qed.

Lemma hasDigit_deref s : isDigitOf 16 (deref s) = true → hasDigit s = true.
Proof.
  destruct s as [|c s]; simpl; [by vm_compute|]. by intros ->.
Qed.

Lemma hasDigit_advance s : hasDigit (advance s) = true → hasDigit s = true.
Proof.
  destruct s as [|c s]; simpl; [done|]. intros ->. apply orb_true_r.
Qed.

Lemma hasDigit_skipSpace s : hasDigit (skipSpace s) = true → hasDigit s = true.
Proof.
  induction s as [|c s IH]; simpl; [done|].
  destruct (isSpace c); [|done]. intros H%IH. rewrite H. apply orb_true_r.
Qed.

(** When [strtoul] converts nothing it returns its argument; otherwise the
    argument holds a digit. *)
Lemma strtoul_digit nptr base :
  base = 0 ∨ base = 16 →
  strtoul nptr base = (0, nptr) ∨ hasDigit nptr = true.
Proof.
  intros Hb. unfold strtoul.
  set (s := if _ || _ then _ else skipSpace nptr).
  assert (hasDigit s = true → hasDigit nptr = true) as Hs.
  { subst s. destruct (_ || _); intros H;
      [apply hasDigit_advance in H|]; by apply hasDigit_skipSpace. }
  set (bs := if _ && _ && _ then _ else _).
  assert (bs.1 <= 16 ∧ (hasDigit bs.2 = true → hasDigit s = true)) as Hbs.
  { subst bs. destruct (_ && _ && _).
    - split; [simpl; lia|]. simpl. intros H.
      by do 2 apply hasDigit_advance.
    - destruct Hb as [-> | ->]; cbn [Z.eqb].
      + destruct (deref s =? "0")%char; cbn [fst snd]; (split; [lia|done]).
      + cbn [fst snd]. split; [lia|done]. }
  destruct bs as [b s']. simpl in Hbs. destruct Hbs as [Hb16 Hs'].
  destruct (isDigitOf b (deref s')) eqn:Hd; [|by left].
  right. apply Hs, Hs', hasDigit_deref. by apply (isDigitOf_mono b).
Qed.

(** X15: the test for an empty argument does not see a lone ['$']:
    [parseByte] takes the argument ["$"] for 0.  Every other argument that
    it accepts holds a digit. *)
Theorem parseByte_digitless optarg name value :
  parseByte optarg name = inl value →
  (deref optarg = "$"%char ∧ deref (advance optarg) = zero ∧ value = 0)
  ∨ hasDigit optarg = true.
Proof.
  unfold parseByte. destruct optarg as [|c optarg]; [done|].
  cbn [deref advance]. change (c =? zero)%char with (Ascii.eqb c zero).
  destruct (Ascii.eqb_spec c zero) as [->|Hc]; [done|].
  destruct (Ascii.eqb_spec c "$") as [->|Hd].
  - destruct (strtoul_digit optarg 16 ltac:(auto)) as [-> | H].
    + destruct (Ascii.eqb_spec (deref optarg) zero) as [Hz|Hz]; simpl;
        [|done].
      intros [= <-]. by left.
    + intros _. right. simpl. by rewrite H.
  - destruct (strtoul_digit (String c optarg) 0 ltac:(auto)) as [-> | H].
    + cbn [deref]. destruct (Ascii.eqb_spec c zero); [done|]. done.
    + intros _. by right.
Qed.

Lemma parseByte_digitless_witness :
  parseByte "$" "p" = inl 0
  ∧ ((deref "$" = "$"%char ∧ deref (advance "$") = zero ∧ 0 = 0)
     ∨ hasDigit "$" = true).
Proof.
  split; [reflexivity|]. apply (parseByte_digitless "$" "p" 0). reflexivity.
Defined.

(** ** Numbers and blanks in the argument of [parseMBC] *)

Definition isSome (r : option Z) (n : Z) : bool :=
  match r with
  | Some value => value =? n
  | None => false
  end.

Lemma isSome_eq r n : isSome r n = true → r = Some n.
Proof. destruct r; simpl; [intros ->%Z.eqb_eq|]; done. Qed.

(** X16: a byte written in decimal, in hexadecimal after ["0x"] or in octal
    after ['0'] is a cartridge type to [parseMBC], whether [enum MbcType]
    has a member of this value or not.  The ['$'] of [parseByte] is unknown
    to [parseMBC]. *)
Theorem parseMBC_numeric n :
  0 <= n <= 0xFF →
  parseMBC (printNum 10 n) = Some n
  ∧ parseMBC (String "0" (String "x" (printNum 16 n))) = Some n
  ∧ parseMBC (String "0" (printNum 8 n)) = Some n
  ∧ parseMBC (String "$" (printNum 16 n)) = Some MBC_BAD.
Proof.
  intros Hn.
  pose proof (bytes_forall
    (λ n, isSome (parseMBC (printNum 10 n)) n
          && isSome (parseMBC (String "0" (String "x" (printNum 16 n)))) n
          && isSome (parseMBC (String "0" (printNum 8 n))) n
          && isSome (parseMBC (String "$" (printNum 16 n))) MBC_BAD)
    ltac:(vm_compute; reflexivity) n Hn) as H.
  cbv beta in H.
  apply andb_true_iff in H as [H Hd]. apply andb_true_iff in H as [H H8].
  apply andb_true_iff in H as [H10 H16].
  split; [exact (isSome_eq _ _ H10)|]. split; [exact (isSome_eq _ _ H16)|].
  split; [exact (isSome_eq _ _ H8)|exact (isSome_eq _ _ Hd)].
Qed.

Lemma parseMBC_numeric_witness :
  0 <= 4 <= 0xFF
  ∧ parseMBC (printNum 10 4) = Some 4
  ∧ parseMBC (String "0" (String "x" (printNum 16 4))) = Some 4
  ∧ parseMBC (String "0" (printNum 8 4)) = Some 4
  ∧ parseMBC (String "$" (printNum 16 4)) = Some MBC_BAD.
Proof.
  split; [lia|]. apply (parseMBC_numeric 4). lia.
Defined.

Lemma readFeatures_fuel_S fuel : ∀ ptr features,
  (String.length ptr < fuel)%nat →
  readFeatures (S fuel) ptr features = readFeatures fuel ptr features.
Proof.
  induction fuel as [|fuel IH]; intros ptr features Hlen; [lia|].
  change (readFeatures (S (S fuel)) ptr features)
    with (let ptr := skipBlankUs ptr in
          if (deref ptr =? zero)%char then ScanDone features ptr
          else if negb (deref ptr =? "+")%char then ScanBad
          else
            let ptr := skipBlankUs (advance ptr) in
            match readFeature ptr with
            | None => ScanBad
            | Some (bit, ptr) =>
              readFeatures (S fuel) ptr (Z.lor features bit mod 256)
            end).
  change (readFeatures (S fuel) ptr features)
    with (let ptr := skipBlankUs ptr in
          if (deref ptr =? zero)%char then ScanDone features ptr
          else if negb (deref ptr =? "+")%char then ScanBad
          else
            let ptr := skipBlankUs (advance ptr) in
            match readFeature ptr with
            | None => ScanBad
            | Some (bit, ptr) =>
              readFeatures fuel ptr (Z.lor features bit mod 256)
            end).
  cbv zeta.
  destruct (deref (skipBlankUs ptr) =? zero)%char eqn:Hend; [done|].
  destruct (negb _); [done|].
  destruct (readFeature _) as [[bit ptr']|] eqn:Hf; [|done].
  apply IH. apply length_readFeature in Hf.
  apply Ascii.eqb_neq in Hend. apply length_advance_lt in Hend.
  length_steps. lia.
Qed.

Lemma parseTypeAndFeatures_fuel_S fuel ptr :
  (String.length ptr < fuel)%nat →
  parseTypeAndFeatures (S fuel) ptr = parseTypeAndFeatures fuel ptr.
Proof.
  intros Hlen. unfold parseTypeAndFeatures.
  destruct (readType ptr) as [[mbc ptr']|] eqn:Ht; [|done].
  apply length_readType in Ht. by rewrite readFeatures_fuel_S by lia.
Qed.

Lemma readType_digit s : isNumeric s = true → readType s = None.
Proof.
  destruct s as [|c s]; [done|]. unfold isNumeric. cbn [deref].
  intros Hc. unfold readType. cbn [deref advance]. cbv zeta.
  assert (((c =? "R") || (c =? "r") || (c =? "M") || (c =? "m")
           || (c =? "P") || (c =? "p") || (c =? "B") || (c =? "b")
           || (c =? "T") || (c =? "t") || (c =? "H") || (c =? "h"))%char
          = false) as Hletters.
  { revert Hc. generalize c. intros c'.
    pose proof (ascii_forall
      (λ c, implb (("0" <=? c) && (c <=? "9"))%char
              (negb ((c =? "R") || (c =? "r") || (c =? "M") || (c =? "m")
                     || (c =? "P") || (c =? "p") || (c =? "B") || (c =? "b")
                     || (c =? "T") || (c =? "t") || (c =? "H")
                     || (c =? "h"))%char))
      ltac:(vm_compute; reflexivity) c') as H.
    cbv beta in H. intros Hc. rewrite Hc in H. by apply negb_true_iff in H. }
  repeat (apply orb_false_iff in Hletters as [Hletters ?]).
  repeat match goal with
         | H : (c =? _)%char = false |- _ => rewrite H; clear H
         end.
  reflexivity.
Qed.

(** X17: a blank or a tab before a name is skipped, but a blank or a tab before
    a number makes the argument an unknown MBC: the number is only looked
    for at the very beginning. *)
Theorem parseMBC_leading_blank c s :
  isBlank c = true →
  parseMBC (String c s) = if isNumeric s then Some MBC_BAD else parseMBC s.
Proof.
  intros Hc.
  assert (isNumeric (String c s) = false) as Hnum.
  { unfold isNumeric. cbn [deref]. revert Hc. generalize c. intros c'.
    pose proof (ascii_forall
      (λ c, implb (isBlank c) (negb (("0" <=? c) && (c <=? "9"))%char))
      ltac:(vm_compute; reflexivity) c') as H.
    cbv beta in H. intros Hc. rewrite Hc in H. by apply negb_true_iff in H. }
  unfold parseMBC at 1. rewrite Hnum. unfold parseSymbolic.
  cbn [skipBlank String.length]. rewrite Hc.
  pose proof (length_skipBlank s) as Hlen.
  rewrite parseTypeAndFeatures_fuel_S by lia.
  unfold parseMBC. destruct (isNumeric s) eqn:Hs; [|done].
  assert (skipBlank s = s) as ->.
  { destruct s as [|d s]; [done|]. simpl.
    unfold isNumeric in Hs. cbn [deref] in Hs. revert Hs. generalize d.
    intros d'.
    pose proof (ascii_forall
      (λ c, implb (("0" <=? c) && (c <=? "9"))%char (negb (isBlank c)))
      ltac:(vm_compute; reflexivity) d') as H.
    cbv beta in H. intros Hs. rewrite Hs in H. apply negb_true_iff in H.
    by rewrite H. }
  unfold parseTypeAndFeatures. by rewrite readType_digit.
Qed.

Lemma parseMBC_leading_blank_witness :
  isBlank " " = true
  ∧ parseMBC (String " " "25")
    = if isNumeric "25" then Some MBC_BAD else parseMBC "25".
Proof.
  split; [reflexivity|]. apply (parseMBC_leading_blank " " "25").
  reflexivity.
Defined.

(** ** The fix specification: option [-f] *)

(** What [main] warns about on [stderr]; a warning does not count as an
    error. *)
Inductive Warning : Type :=
  | Overriding (new bad : ascii)  (* "'l' overriding 'L' in fix spec" *)
  | Ignoring (c : ascii)          (* "Ignoring 'x' in fix spec" *)
  | TruncatingTitle (len : nat)   (* "Truncating title ... to ... chars" *)
  | TruncatingGameID              (* "Truncating game ID ... to 4 chars" *)
  | TruncatingNewLicensee         (* "Truncating new licensee ... to 2 chars" *)
  | UnderSpecified
      (* "ROM+RAM / ROM+RAM+BATTERY are under-specified and poorly
         supported" *)
  | ShouldHave2kiB (mbc : string) (* "MBC ... should have 2kiB of RAM (-r 1)" *)
  | RamSizeZero (mbc : string)
      (* "MBC ... has RAM, but RAM size was set to 0" *)
  | RamSizeOne (mbc : string)
      (* "RAM size 1 (2 kiB) was specified for MBC ..." *)
  | NoRam (mbc : string) (ramSize : Z)
      (* "MBC ... has no RAM, but RAM size was set to ..." *)
  | SgbLicensee (oldLicensee : Z).
      (* "SGB compatibility enabled, but old licensee is ..., not 0x33" *)

(** The macro [or(new, bad)], on the [uint8_t] [fixSpec]. *)
Definition orSpec (fixSpec : Z) (new bad : ascii) (specNew specBad : Z)
    (warnings : list Warning) : Z * list Warning :=
  (Z.lor (Z.land fixSpec (Z.lnot specBad)) specNew mod 256,
   if hasBit fixSpec specBad then warnings ++ [Overriding new bad]
   else warnings).

(** The [switch] on one character of the fix specification. *)
Definition fixSpecStep (c : ascii) (fixSpec : Z) (warnings : list Warning)
    : Z * list Warning :=
  if (c =? "l")%char then orSpec fixSpec "l" "L" FIX_LOGO TRASH_LOGO warnings
  else if (c =? "L")%char
  then orSpec fixSpec "L" "l" TRASH_LOGO FIX_LOGO warnings
  else if (c =? "h")%char
  then orSpec fixSpec "h" "H" FIX_HEADER_SUM TRASH_HEADER_SUM warnings
  else if (c =? "H")%char
  then orSpec fixSpec "H" "h" TRASH_HEADER_SUM FIX_HEADER_SUM warnings
  else if (c =? "g")%char
  then orSpec fixSpec "g" "G" FIX_GLOBAL_SUM TRASH_GLOBAL_SUM warnings
  else if (c =? "G")%char
  then orSpec fixSpec "G" "g" TRASH_GLOBAL_SUM FIX_GLOBAL_SUM warnings
  else (fixSpec, warnings ++ [Ignoring c]).

(** The loop over the characters of the fix specification, up to the end
    of [optarg]. *)
Fixpoint fixSpecLoop (optarg : string) (fixSpec : Z)
    (warnings : list Warning) : Z * list Warning :=
  match optarg with
  | EmptyString => (fixSpec, warnings)
  | String c optarg =>
    let '(fixSpec, warnings) := fixSpecStep c fixSpec warnings in
    fixSpecLoop optarg fixSpec warnings
  end.

(** The last of the two letters [lower] and [upper] in a fix
    specification, if any. *)
Fixpoint lastOf (lower upper : ascii) (optarg : string) : option ascii :=
  match optarg with
  | EmptyString => None
  | String c optarg =>
    match lastOf lower upper optarg with
    | Some c' => Some c'
    | None => if (c =? lower)%char || (c =? upper)%char then Some c else None
    end
  end.

(** No field is both to be fixed and to be trashed, and the two low bits
    are not used. *)
Definition specOk (fixSpec : Z) : bool :=
  (0 <=? fixSpec) && (fixSpec <? 256) && (Z.land fixSpec 0x03 =? 0)
  && negb (hasBit fixSpec FIX_LOGO && hasBit fixSpec TRASH_LOGO)
  && negb (hasBit fixSpec FIX_HEADER_SUM && hasBit fixSpec TRASH_HEADER_SUM)
  && negb (hasBit fixSpec FIX_GLOBAL_SUM && hasBit fixSpec TRASH_GLOBAL_SUM).

(** The bits of one field after a letter. *)
Definition pairAfter (c lower upper : ascii) (fixed trashed : bool)
    : bool * bool :=
  if (c =? lower)%char then (true, false)
  else if (c =? upper)%char then (false, true)
  else (fixed, trashed).

Definition stepChecked (c : ascii) (fixSpec : Z) : bool :=
  let spec := (fixSpecStep c fixSpec []).1 in
  let pair fixBit trashBit := (hasBit spec fixBit, hasBit spec trashBit) in
  let same (p q : bool * bool) :=
    Bool.eqb p.1 q.1 && Bool.eqb p.2 q.2 in
  implb (specOk fixSpec)
    (specOk spec
     && same (pair FIX_LOGO TRASH_LOGO)
             (pairAfter c "l" "L" (hasBit fixSpec FIX_LOGO)
                        (hasBit fixSpec TRASH_LOGO))
     && same (pair FIX_HEADER_SUM TRASH_HEADER_SUM)
             (pairAfter c "h" "H" (hasBit fixSpec FIX_HEADER_SUM)
                        (hasBit fixSpec TRASH_HEADER_SUM))
     && same (pair FIX_GLOBAL_SUM TRASH_GLOBAL_SUM)
             (pairAfter c "g" "G" (hasBit fixSpec FIX_GLOBAL_SUM)
                        (hasBit fixSpec TRASH_GLOBAL_SUM))).

Lemma fixSpecStep_spec c fixSpec warnings :
  (fixSpecStep c fixSpec warnings).1 = (fixSpecStep c fixSpec []).1.
Proof. unfold fixSpecStep, orSpec. by repeat case_match. Qed.

Lemma fixSpecStep_checked c fixSpec : stepChecked c fixSpec = true.
Proof.
  destruct (specOk fixSpec) eqn:Hok.
  - assert (0 <= fixSpec <= 0xFF) as Hbyte.
    { unfold specOk in Hok. repeat (apply andb_true_iff in Hok as [Hok ?]).
      apply Z.leb_le in Hok.
      match goal with H : (_ <? _) = true |- _ => apply Z.ltb_lt in H end.
      lia. }
    revert fixSpec Hbyte Hok. intros n Hn _.
    apply (bytes_forall (λ n, stepChecked c n)); [|done].
    revert c. apply ascii_forall. vm_compute. reflexivity.
  - unfold stepChecked. by rewrite Hok.
Qed.

Definition pairOf (fixSpec fixBit trashBit : Z) : bool * bool :=
  (hasBit fixSpec fixBit, hasBit fixSpec trashBit).

Definition pairFinal (last : option ascii) (lower : ascii)
    (p : bool * bool) : bool * bool :=
  match last with
  | Some c => if (c =? lower)%char then (true, false) else (false, true)
  | None => p
  end.

Lemma eqb_pair (p q : bool * bool) :
  Bool.eqb p.1 q.1 && Bool.eqb p.2 q.2 = true → p = q.
Proof.
  destruct p, q. simpl. intros [?%Bool.eqb_prop ?%Bool.eqb_prop]%andb_true_iff.
  by subst.
Qed.

Lemma fixSpecStep_pairs c fixSpec warnings :
  specOk fixSpec = true →
  let spec := (fixSpecStep c fixSpec warnings).1 in
  specOk spec = true
  ∧ pairOf spec FIX_LOGO TRASH_LOGO
    = pairAfter c "l" "L" (hasBit fixSpec FIX_LOGO)
                (hasBit fixSpec TRASH_LOGO)
  ∧ pairOf spec FIX_HEADER_SUM TRASH_HEADER_SUM
    = pairAfter c "h" "H" (hasBit fixSpec FIX_HEADER_SUM)
                (hasBit fixSpec TRASH_HEADER_SUM)
  ∧ pairOf spec FIX_GLOBAL_SUM TRASH_GLOBAL_SUM
    = pairAfter c "g" "G" (hasBit fixSpec FIX_GLOBAL_SUM)
                (hasBit fixSpec TRASH_GLOBAL_SUM).
Proof.
  intros Hok. cbv zeta. rewrite fixSpecStep_spec.
  pose proof (fixSpecStep_checked c fixSpec) as H.
  unfold stepChecked in H. rewrite Hok in H. cbv zeta in H.
  cbn [implb] in H.
  apply andb_true_iff in H as [H Hg]. apply andb_true_iff in H as [H Hh].
  apply andb_true_iff in H as [H Hl].
  split; [exact H|]. split; [exact (eqb_pair _ _ Hl)|].
  split; [exact (eqb_pair _ _ Hh)|exact (eqb_pair _ _ Hg)].
Qed.

Lemma pairFinal_step c lower upper rest p :
  (lower =? upper)%char = false →
  pairFinal (lastOf lower upper rest) lower (pairAfter c lower upper p.1 p.2)
  = pairFinal (lastOf lower upper (String c rest)) lower p.
Proof.
  intros Hne. cbn [lastOf]. destruct (lastOf lower upper rest); [done|].
  unfold pairAfter. simpl.
  destruct (Ascii.eqb_spec c lower) as [->|Hl]; simpl.
  - by rewrite Ascii.eqb_refl.
  - destruct (Ascii.eqb_spec c upper) as [->|Hu]; simpl.
    + rewrite Ascii.eqb_sym. by rewrite Hne.
    + by destruct p.
Qed.

Lemma fixSpecLoop_pairs : ∀ optarg fixSpec warnings,
  specOk fixSpec = true →
  let spec := (fixSpecLoop optarg fixSpec warnings).1 in
  specOk spec = true
  ∧ pairOf spec FIX_LOGO TRASH_LOGO
    = pairFinal (lastOf "l" "L" optarg) "l"
                (pairOf fixSpec FIX_LOGO TRASH_LOGO)
  ∧ pairOf spec FIX_HEADER_SUM TRASH_HEADER_SUM
    = pairFinal (lastOf "h" "H" optarg) "h"
                (pairOf fixSpec FIX_HEADER_SUM TRASH_HEADER_SUM)
  ∧ pairOf spec FIX_GLOBAL_SUM TRASH_GLOBAL_SUM
    = pairFinal (lastOf "g" "G" optarg) "g"
                (pairOf fixSpec FIX_GLOBAL_SUM TRASH_GLOBAL_SUM).
Proof.
  induction optarg as [|c optarg IH]; intros fixSpec warnings Hok.
  - by cbv zeta.
  - cbv zeta. cbn [fixSpecLoop].
    destruct (fixSpecStep_pairs c fixSpec warnings Hok)
      as (Hok' & Hl & Hh & Hg).
    destruct (fixSpecStep c fixSpec warnings) as [spec' warnings'].
    cbn [fst] in *.
    destruct (IH spec' warnings' Hok') as (Hok'' & Hl' & Hh' & Hg').
    split; [exact Hok''|].
    rewrite Hl', Hh', Hg', Hl, Hh, Hg.
    split; [|split].
    + by apply (pairFinal_step c "l" "L" optarg
                  (pairOf fixSpec FIX_LOGO TRASH_LOGO)).
    + by apply (pairFinal_step c "h" "H" optarg
                  (pairOf fixSpec FIX_HEADER_SUM TRASH_HEADER_SUM)).
    + by apply (pairFinal_step c "g" "G" optarg
                  (pairOf fixSpec FIX_GLOBAL_SUM TRASH_GLOBAL_SUM)).
Qed.

(** X18: the fix specification that option [-f] computes: for each of the logo,
    the header checksum and the global checksum, the last of its two
    letters decides, the lower-case letter for fixing and the upper-case
    letter for trashing, and a field without a letter is left alone.  No
    field is both fixed and trashed. *)
Theorem fixSpecLoop_last_letter optarg :
  let spec := (fixSpecLoop optarg 0 []).1 in
  specOk spec = true
  ∧ (hasBit spec FIX_LOGO, hasBit spec TRASH_LOGO)
    = pairFinal (lastOf "l" "L" optarg) "l" (false, false)
  ∧ (hasBit spec FIX_HEADER_SUM, hasBit spec TRASH_HEADER_SUM)
    = pairFinal (lastOf "h" "H" optarg) "h" (false, false)
  ∧ (hasBit spec FIX_GLOBAL_SUM, hasBit spec TRASH_GLOBAL_SUM)
    = pairFinal (lastOf "g" "G" optarg) "g" (false, false).
Proof. apply (fixSpecLoop_pairs optarg 0 []). reflexivity. Qed.

(** ** [main]: the options *)

(** The bytes of a C string. *)
Definition bytesOf (s : string) : list Z :=
  List.map (λ c, Z.of_N (N_of_ascii c)) (list_ascii_of_string s).

(** How a piece of [main] ends. *)
Inductive Run (A : Type) : Type :=
  | Ret (a : A)         (* it ran to its end *)
  | Exit (status : Z)   (* [exit(status)] *)
  | Unreachable         (* [unreachable_()] *)
  | Stuck.              (* an [assert] failed, or a model ran out of fuel *)

Arguments Ret {A} a.
Arguments Exit {A} status.
Arguments Unreachable {A}.
Arguments Stuck {A}.

(** The globals that the options set, the counter [nbErrors], and what was
    printed: the errors that [report] counted, and the warnings. *)
Record MainState : Type := mkMain {
  config : Config;
  errorCounter : Z;
  errors : list Message;
  warnings : list Warning
}.

Definition setConfig (m : MainState) (C : Config) : MainState :=
  mkMain C (errorCounter m) (errors m) (warnings m).

Definition warn (w : Warning) (m : MainState) : MainState :=
  mkMain (config m) (errorCounter m) (errors m) (warnings m ++ [w]).

(** [report], on the state of [main]. *)
Definition reportOption (msg : Message) (m : MainState) : MainState :=
  mkMain (config m)
         (if negb (errorCounter m =? UINT8_MAX)
          then (errorCounter m + 1) mod 256 else errorCounter m)
         (errors m ++ [msg]) (warnings m).

Definition setModel (C : Config) (x : Model) : Config :=
  mkConfig x (fixSpec C) (gameID C) (gameIDLen C) (japanese C)
           (newLicensee C) (newLicenseeLen C) (oldLicensee C)
           (cartridgeType C) (romVersion C) (padValue C) (ramSize C) (sgb C)
           (title C) (titleLen C).

Definition setFixSpec (C : Config) (x : Z) : Config :=
  mkConfig (model C) x (gameID C) (gameIDLen C) (japanese C)
           (newLicensee C) (newLicenseeLen C) (oldLicensee C)
           (cartridgeType C) (romVersion C) (padValue C) (ramSize C) (sgb C)
           (title C) (titleLen C).

Definition setGameID (C : Config) (x : option (list Z)) (len : nat)
    : Config :=
  mkConfig (model C) (fixSpec C) x len (japanese C)
           (newLicensee C) (newLicenseeLen C) (oldLicensee C)
           (cartridgeType C) (romVersion C) (padValue C) (ramSize C) (sgb C)
           (title C) (titleLen C).

Definition setJapanese (C : Config) (x : bool) : Config :=
  mkConfig (model C) (fixSpec C) (gameID C) (gameIDLen C) x
           (newLicensee C) (newLicenseeLen C) (oldLicensee C)
           (cartridgeType C) (romVersion C) (padValue C) (ramSize C) (sgb C)
           (title C) (titleLen C).

Definition setNewLicensee (C : Config) (x : option (list Z)) (len : nat)
    : Config :=
  mkConfig (model C) (fixSpec C) (gameID C) (gameIDLen C) (japanese C)
           x len (oldLicensee C)
           (cartridgeType C) (romVersion C) (padValue C) (ramSize C) (sgb C)
           (title C) (titleLen C).

Definition setOldLicensee (C : Config) (x : Z) : Config :=
  mkConfig (model C) (fixSpec C) (gameID C) (gameIDLen C) (japanese C)
           (newLicensee C) (newLicenseeLen C) x
           (cartridgeType C) (romVersion C) (padValue C) (ramSize C) (sgb C)
           (title C) (titleLen C).

Definition setCartridgeType (C : Config) (x : Z) : Config :=
  mkConfig (model C) (fixSpec C) (gameID C) (gameIDLen C) (japanese C)
           (newLicensee C) (newLicenseeLen C) (oldLicensee C)
           x (romVersion C) (padValue C) (ramSize C) (sgb C)
           (title C) (titleLen C).

Definition setRomVersion (C : Config) (x : Z) : Config :=
  mkConfig (model C) (fixSpec C) (gameID C) (gameIDLen C) (japanese C)
           (newLicensee C) (newLicenseeLen C) (oldLicensee C)
           (cartridgeType C) x (padValue C) (ramSize C) (sgb C)
           (title C) (titleLen C).

Definition setPadValue (C : Config) (x : Z) : Config :=
  mkConfig (model C) (fixSpec C) (gameID C) (gameIDLen C) (japanese C)
           (newLicensee C) (newLicenseeLen C) (oldLicensee C)
           (cartridgeType C) (romVersion C) x (ramSize C) (sgb C)
           (title C) (titleLen C).

Definition setRamSize (C : Config) (x : Z) : Config :=
  mkConfig (model C) (fixSpec C) (gameID C) (gameIDLen C) (japanese C)
           (newLicensee C) (newLicenseeLen C) (oldLicensee C)
           (cartridgeType C) (romVersion C) (padValue C) x (sgb C)
           (title C) (titleLen C).

Definition setSgb (C : Config) (x : bool) : Config :=
  mkConfig (model C) (fixSpec C) (gameID C) (gameIDLen C) (japanese C)
           (newLicensee C) (newLicenseeLen C) (oldLicensee C)
           (cartridgeType C) (romVersion C) (padValue C) (ramSize C) x
           (title C) (titleLen C).

Definition setTitle (C : Config) (x : option (list Z)) (len : nat)
    : Config :=
  mkConfig (model C) (fixSpec C) (gameID C) (gameIDLen C) (japanese C)
           (newLicensee C) (newLicenseeLen C) (oldLicensee C)
           (cartridgeType C) (romVersion C) (padValue C) (ramSize C) (sgb C)
           x len.

Definition setTitleLen (C : Config) (len : nat) : Config :=
  setTitle C (title C) len.

(** An option whose argument is a byte: [parseByte(output, name)], with
    [set] the assignment to [output]. *)
Definition byteOption (optarg name : string) (set : Config → Z → Config)
    (m : MainState) : MainState :=
  match parseByte optarg name with
  | inl value => setConfig m (set (config m) value)
  | inr msg => reportOption msg m
  end.

(** The body of the loop over the options: [ch] is what
    [musl_getopt_long_only] returned, [optarg] the argument of the option. *)
Definition handleOption (ch : ascii) (optarg : string) (m : MainState)
    : Run MainState :=
  let C := config m in
  if ((ch =? "C") || (ch =? "c"))%char then
    let C := setModel C (if (ch =? "c")%char then BOTH else CGB) in
    if (15 <? titleLen C)%nat
    then Ret (warn (TruncatingTitle 15) (setConfig m (setTitleLen C 15)))
    else Ret (setConfig m C)
  else if (ch =? "f")%char then
    let '(spec, w) := fixSpecLoop optarg 0 (warnings m) in
    Ret (mkMain (setFixSpec C spec) (errorCounter m) (errors m) w)
  else if (ch =? "i")%char then
    let len := String.length optarg in
    let '(len, m) :=
      if (4 <? len)%nat then (4%nat, warn TruncatingGameID m)
      else (len, m) in
    let C := setGameID C (Some (bytesOf optarg)) len in
    if (11 <? titleLen C)%nat
    then Ret (warn (TruncatingTitle 11) (setConfig m (setTitleLen C 11)))
    else Ret (setConfig m C)
  else if (ch =? "j")%char then Ret (setConfig m (setJapanese C false))
  else if (ch =? "k")%char then
    let len := String.length optarg in
    let '(len, m) :=
      if (2 <? len)%nat then (2%nat, warn TruncatingNewLicensee m)
      else (len, m) in
    Ret (setConfig m (setNewLicensee C (Some (bytesOf optarg)) len))
  else if (ch =? "l")%char then Ret (byteOption optarg "l" setOldLicensee m)
  else if (ch =? "m")%char then
    match parseMBC optarg with
    | None => Stuck
    | Some type =>
      let m := setConfig m (setCartridgeType C type) in
      if type =? MBC_BAD then Ret (reportOption (UnknownMBC optarg) m)
      else if type =? MBC_WRONG_FEATURES
      then Ret (reportOption (IncompatibleFeatures optarg) m)
      else if type =? MBC_BAD_RANGE
      then Ret (reportOption (MBCOutOfRange optarg) m)
      else if (type =? ROM_RAM) || (type =? ROM_RAM_BATTERY)
      then Ret (warn UnderSpecified m)
      else Ret m
    end
  else if (ch =? "n")%char then Ret (byteOption optarg "n" setRomVersion m)
  else if (ch =? "p")%char then Ret (byteOption optarg "p" setPadValue m)
  else if (ch =? "r")%char then Ret (byteOption optarg "r" setRamSize m)
  else if (ch =? "s")%char then Ret (setConfig m (setSgb C true))
  else if (ch =? "t")%char then
    let len := String.length optarg in
    let maxLen := maxTitleLen C in
    let '(len, m) :=
      if (maxLen <? len)%nat then (maxLen, warn (TruncatingTitle maxLen) m)
      else (len, m) in
    Ret (setConfig m (setTitle C (Some (bytesOf optarg)) len))
  else if (ch =? "V")%char then Exit 0
  else if (ch =? "v")%char then
    Ret (setConfig m
           (setFixSpec C (Z.lor (Z.lor FIX_LOGO FIX_HEADER_SUM)
                                FIX_GLOBAL_SUM)))
  else Exit 1.

(** The loop over the options, in the order of the command line. *)
Fixpoint parseOptions (opts : list (ascii * string)) (m : MainState)
    : Run MainState :=
  match opts with
  | [] => Ret m
  | (ch, optarg) :: opts =>
    match handleOption ch optarg m with
    | Ret m => parseOptions opts m
    | Exit status => Exit status
    | Unreachable => Unreachable
    | Stuck => Stuck
    end
  end.

(** The globals as the program starts. *)
Definition initialConfig : Config :=
  mkConfig DMG 0 None 0 true None 0 UNSPECIFIED MBC_NONE UNSPECIFIED
           UNSPECIFIED UNSPECIFIED false None 0.

Definition initialMain : MainState := mkMain initialConfig 0 [] [].

(** The checks of the RAM size against the cartridge type, after the
    options; [None] when [hasRAM] or [mbcName] is [unreachable_()]. *)
Definition ramWarnings (C : Config) : option (list Warning) :=
  let type := cartridgeType C in
  if negb (ramSize C =? UNSPECIFIED) && (type <? UNSPECIFIED) then
    if (type =? ROM_RAM) || (type =? ROM_RAM_BATTERY) then
      if negb (ramSize C =? 1)
      then name ← mbcName type; Some [ShouldHave2kiB name]
      else Some []
    else
      ram ← hasRAM type;
      if (ram : bool) then
        if ramSize C =? 0 then name ← mbcName type; Some [RamSizeZero name]
        else if ramSize C =? 1
        then name ← mbcName type; Some [RamSizeOne name]
        else Some []
      else if negb (ramSize C =? 0)
      then name ← mbcName type; Some [NoRam name (ramSize C)]
      else Some []
  else Some [].

Definition sgbWarning (C : Config) : list Warning :=
  if sgb C && negb (oldLicensee C =? UNSPECIFIED)
     && negb (oldLicensee C =? 0x33)
  then [SgbLicensee (oldLicensee C)] else [].

(** The loop over the file names: [failed |= processFilename(name)]. *)
Fixpoint processFiles (C : Config) (targets : list Target) (failed : bool)
    (states : list State) : Run (bool * list State) :=
  match targets with
  | [] => Ret (failed, states)
  | t :: targets =>
    match processFilename C t with
    | Done (failed', st) =>
      processFiles C targets (failed || failed') (states ++ [st])
    | _ => Stuck
    end
  end.

(** [main]: the options [opts] as [musl_getopt_long_only] decodes them, the
    files [targets] that the remaining arguments name, one after the other,
    and the standard input and output, which stand for the name ["-"] and
    are used when no file is named.  The result is the value that [main]
    returns, with the state of the options and of each file. *)
Definition main (opts : list (ascii * string)) (targets : list Target)
    (stdin stdout : File) : Run (bool * MainState * list State) :=
  match parseOptions opts initialMain with
  | Ret m =>
    match ramWarnings (config m) with
    | None => Unreachable
    | Some w =>
      let m := mkMain (config m) (errorCounter m) (errors m)
                      (warnings m ++ w ++ sgbWarning (config m)) in
      let failed := negb (errorCounter m =? 0) in
      let targets :=
        match targets with
        | [] => [Standard stdin stdout]
        | _ => targets
        end in
      match processFiles (config m) targets failed [] with
      | Ret (failed, states) => Ret (failed, m, states)
      | Exit status => Exit status
      | Unreachable => Unreachable
      | Stuck => Stuck
      end
    end
  | Exit status => Exit status
  | Unreachable => Unreachable
  | Stuck => Stuck
  end.

(** ** Properties of [main] *)

Lemma length_bytesOf s : length (bytesOf s) = String.length s.
Proof.
  unfold bytesOf. rewrite length_map.
  induction s as [|c s IH]; simpl; [done|]. by rewrite IH.
Qed.

(** A byte, or [UNSPECIFIED]. *)
Definition byteOrUnset (x : Z) : bool := (0 <=? x) && (x <=? UNSPECIFIED).

(** What the options leave in the globals: the lengths within the sizes of
    the fields and of the strings ([wfConfig]), a consistent fix
    specification, bytes where bytes are expected, and a cartridge type
    that is a byte or one of the values of [parseMBC]. *)
Definition optionsOk (C : Config) : bool :=
  wfConfig C && specOk (fixSpec C) && byteOrUnset (oldLicensee C)
  && byteOrUnset (romVersion C) && byteOrUnset (ramSize C)
  && (0 <=? cartridgeType C) && (cartridgeType C <=? MBC_BAD_RANGE).

Lemma optionsOk_iff C :
  optionsOk C = true ↔
  (titleLen C <= maxTitleLen C)%nat
  ∧ lenWithin (title C) (titleLen C) = true
  ∧ (gameIDLen C <= 4)%nat
  ∧ lenWithin (gameID C) (gameIDLen C) = true
  ∧ (newLicenseeLen C <= 2)%nat
  ∧ lenWithin (newLicensee C) (newLicenseeLen C) = true
  ∧ 0 <= padValue C <= UNSPECIFIED
  ∧ specOk (fixSpec C) = true
  ∧ 0 <= oldLicensee C <= UNSPECIFIED
  ∧ 0 <= romVersion C <= UNSPECIFIED
  ∧ 0 <= ramSize C <= UNSPECIFIED
  ∧ 0 <= cartridgeType C <= MBC_BAD_RANGE.
Proof.
  unfold optionsOk, wfConfig, byteOrUnset.
  rewrite !andb_true_iff, !Nat.leb_le, !Z.leb_le. tauto.
Qed.

Lemma byteOption_ok optarg name set m :
  (∀ C value, 0 <= value <= 0xFF → optionsOk C = true →
     optionsOk (set C value) = true) →
  optionsOk (config m) = true →
  optionsOk (config (byteOption optarg name set m)) = true.
Proof.
  intros Hset Hok. unfold byteOption.
  destruct (parseByte optarg name) as [value|msg] eqn:Hr; simpl; [|done].
  apply Hset; [|done]. by apply (parseByte_inl optarg name).
Qed.

Lemma lenWithin_le s a b :
  (a <= b)%nat → lenWithin s b = true → lenWithin s a = true.
Proof.
  destruct s; simpl; [|done]. intros Hab H%Nat.leb_le. apply Nat.leb_le. lia.
Qed.

Lemma lenWithin_bytesOf optarg len :
  (len <= String.length optarg)%nat →
  lenWithin (Some (bytesOf optarg)) len = true.
Proof. intros H. simpl. rewrite length_bytesOf. by apply Nat.leb_le. Qed.

Ltac options_cbn :=
  cbn [setModel setFixSpec setGameID setJapanese setNewLicensee
       setOldLicensee setCartridgeType setRomVersion setPadValue
       setRamSize setSgb setTitle setTitleLen setConfig warn config
       model fixSpec gameID gameIDLen japanese newLicensee newLicenseeLen
       oldLicensee cartridgeType romVersion padValue ramSize sgb title
       titleLen] in *.

Ltac options_ok :=
  match goal with
  | H : optionsOk _ = true |- optionsOk _ = true =>
    apply optionsOk_iff in H; apply optionsOk_iff;
    options_cbn; unfold maxTitleLen in *; options_cbn;
    destruct H as (Ht & Hw & Hg4 & Hgw & Hn2 & Hnw & Hp & Hs & Ho & Hr
                   & Hram & Hc);
    repeat split;
    first [ assumption | apply Hp | apply Ho | apply Hr | apply Hram
          | apply Hc | idtac ]
  end.

Lemma handleOption_ok ch optarg m m' :
  handleOption ch optarg m = Ret m' →
  optionsOk (config m) = true → optionsOk (config m') = true.
Proof.
  unfold handleOption. cbv zeta. intros Hrun Hok.
  destruct ((ch =? "C") || (ch =? "c"))%char.
  { destruct (Nat.ltb_spec 15 (titleLen (setModel (config m)
        (if (ch =? "c")%char then BOTH else CGB)))) as [Hlt|Hge];
      simplify_eq; options_ok.
    - destruct (gameID (config m)), (ch =? "c")%char; lia.
    - apply (lenWithin_le _ _ _ (Nat.lt_le_incl _ _ Hlt) Hw).
    - destruct (gameID (config m)), (ch =? "c")%char; simpl in *; lia. }
  destruct (ch =? "f")%char.
  { pose proof (fixSpecLoop_pairs optarg 0 (warnings m) eq_refl) as Hspec.
    cbv zeta in Hspec. destruct Hspec as [Hspec _].
    destruct (fixSpecLoop optarg 0 (warnings m)) as [spec w].
    simplify_eq. options_ok. }
  destruct (ch =? "i")%char.
  { assert (∀ len (m0 : MainState), (len <= 4)%nat →
              (len <= String.length optarg)%nat →
              (if (11 <? titleLen (setGameID (config m)
                                     (Some (bytesOf optarg)) len))%nat
               then Ret (warn (TruncatingTitle 11)
                           (setConfig m0
                              (setTitleLen
                                 (setGameID (config m)
                                    (Some (bytesOf optarg)) len) 11)))
               else Ret (setConfig m0
                           (setGameID (config m) (Some (bytesOf optarg))
                                      len))) = Ret m' →
              optionsOk (config m') = true) as Hi.
    { intros len m0 H4 Hlen Hrun'.
      destruct (Nat.ltb_spec 11 (titleLen (setGameID (config m)
                  (Some (bytesOf optarg)) len))) as [Hlt|Hge];
        simplify_eq; options_ok;
        first [ lia | by apply lenWithin_bytesOf
              | apply (lenWithin_le _ _ _ (Nat.lt_le_incl _ _ Hlt) Hw) ]. }
    destruct (Nat.ltb_spec 4 (String.length optarg)).
    - apply (Hi 4%nat (warn TruncatingGameID m)); [lia|lia|done].
    - apply (Hi (String.length optarg) m); [lia|lia|done]. }
  destruct (ch =? "j")%char.
  { simplify_eq. options_ok. }
  destruct (ch =? "k")%char.
  { destruct (Nat.ltb_spec 2 (String.length optarg));
      simplify_eq; options_ok;
      first [ lia | apply lenWithin_bytesOf; lia ]. }
  destruct (ch =? "l")%char.
  { simplify_eq. apply byteOption_ok; [|done].
    clear. intros C value Hv Hok. options_ok; unfold UNSPECIFIED; lia. }
  destruct (ch =? "m")%char.
  { destruct (parseMBC_total optarg) as [code Hcode].
    pose proof (parseMBC_classes optarg code Hcode) as Hrange.
    rewrite Hcode in Hrun.
    assert (optionsOk (setCartridgeType (config m) code) = true) as Hm.
    { options_ok;
        unfold MBC_BAD, MBC_WRONG_FEATURES, MBC_BAD_RANGE in *; lia. }
    repeat case_match; by simplify_eq. }
  destruct (ch =? "n")%char.
  { simplify_eq. apply byteOption_ok; [|done].
    clear. intros C value Hv Hok. options_ok; unfold UNSPECIFIED; lia. }
  destruct (ch =? "p")%char.
  { simplify_eq. apply byteOption_ok; [|done].
    clear. intros C value Hv Hok. options_ok; unfold UNSPECIFIED; lia. }
  destruct (ch =? "r")%char.
  { simplify_eq. apply byteOption_ok; [|done].
    clear. intros C value Hv Hok. options_ok; unfold UNSPECIFIED; lia. }
  destruct (ch =? "s")%char.
  { simplify_eq. options_ok. }
  destruct (ch =? "t")%char.
  { destruct (Nat.ltb_spec (maxTitleLen (config m)) (String.length optarg))
      as [Hlt|Hge]; unfold maxTitleLen in Hlt || unfold maxTitleLen in Hge;
      simplify_eq; options_ok;
      first [ lia | apply lenWithin_bytesOf; lia ]. }
  destruct (ch =? "V")%char; [done|].
  destruct (ch =? "v")%char; [|done].
  simplify_eq. options_ok.
Qed.

Lemma parseOptions_ok : ∀ opts m m',
  parseOptions opts m = Ret m' →
  optionsOk (config m) = true → optionsOk (config m') = true.
Proof.
  induction opts as [|[ch optarg] opts IH]; intros m m' Hrun Hok; simpl in *.
  - by simplify_eq.
  - destruct (handleOption ch optarg m) as [m1| | |] eqn:Hstep; try done.
    apply (IH m1 m' Hrun). by apply (handleOption_ok ch optarg m).
Qed.

(** X19: whatever the options and their order, the globals that [main] hands
    over to [processFile] are consistent: the title fits the place that the
    game ID and the colour flag leave it, the game ID has at most 4
    characters and the new licensee at most 2, no length exceeds its
    string, the byte options hold a byte or [UNSPECIFIED], and no field is
    both fixed and trashed. *)
Theorem parseOptions_wfConfig opts m :
  parseOptions opts initialMain = Ret m →
  wfConfig (config m) = true ∧ optionsOk (config m) = true.
Proof.
  intros Hrun.
  assert (optionsOk (config m) = true) as Hok
    by (apply (parseOptions_ok opts initialMain m Hrun); reflexivity).
  split; [|done]. unfold optionsOk in Hok.
  do 6 (apply andb_true_iff in Hok as [Hok _]). exact Hok.
Qed.

Lemma parseOptions_wfConfig_witness :
  parseOptions [("t"%char, "ABCDEFGHIJKLMNOPQRS"%string);
                ("i"%char, "ABCDE"%string); ("C"%char, ""%string)]
               initialMain
  = Ret (mkMain
           (mkConfig CGB 0 (Some (bytesOf "ABCDE")) 4 true None 0 UNSPECIFIED
                     MBC_NONE UNSPECIFIED UNSPECIFIED UNSPECIFIED false
                     (Some (bytesOf "ABCDEFGHIJKLMNOPQRS")) 11)
           0 []
           [TruncatingTitle 16; TruncatingGameID; TruncatingTitle 11])
  ∧ wfConfig
      (mkConfig CGB 0 (Some (bytesOf "ABCDE")) 4 true None 0 UNSPECIFIED
                MBC_NONE UNSPECIFIED UNSPECIFIED UNSPECIFIED false
                (Some (bytesOf "ABCDEFGHIJKLMNOPQRS")) 11) = true
  ∧ optionsOk
      (mkConfig CGB 0 (Some (bytesOf "ABCDE")) 4 true None 0 UNSPECIFIED
                MBC_NONE UNSPECIFIED UNSPECIFIED UNSPECIFIED false
                (Some (bytesOf "ABCDEFGHIJKLMNOPQRS")) 11) = true.
Proof.
  split; [reflexivity|].
  apply (parseOptions_wfConfig
           [("t"%char, "ABCDEFGHIJKLMNOPQRS"%string);
            ("i"%char, "ABCDE"%string); ("C"%char, ""%string)]
           (mkMain
              (mkConfig CGB 0 (Some (bytesOf "ABCDE")) 4 true None 0
                        UNSPECIFIED MBC_NONE UNSPECIFIED UNSPECIFIED
                        UNSPECIFIED false
                        (Some (bytesOf "ABCDEFGHIJKLMNOPQRS")) 11)
              0 []
              [TruncatingTitle 16; TruncatingGameID; TruncatingTitle 11])).
  reflexivity.
Defined.

(** *** The exit status *)

Definition counterInv (m : MainState) : Prop :=
  errorCounter m = Z.min (Z.of_nat (length (errors m))) 255.

Lemma reportOption_counterInv msg m :
  counterInv m → counterInv (reportOption msg m).
Proof.
  unfold counterInv, reportOption, UINT8_MAX. simpl. intros ->.
  rewrite length_app. simpl.
  destruct (Z.eqb_spec (Z.min (Z.of_nat (length (errors m))) 255) 255);
    simpl; [lia|].
  rewrite Z.mod_small by lia. lia.
Qed.

Lemma byteOption_counterInv optarg name set m :
  counterInv m → counterInv (byteOption optarg name set m).
Proof.
  unfold byteOption. intros H. destruct (parseByte optarg name); [done|].
  by apply reportOption_counterInv.
Qed.

Lemma handleOption_counterInv ch optarg m m' :
  handleOption ch optarg m = Ret m' → counterInv m → counterInv m'.
Proof.
  unfold handleOption. cbv zeta. intros Hrun Hinv.
  repeat case_match; simplify_eq;
    first [ assumption
          | by apply byteOption_counterInv
          | by apply reportOption_counterInv ].
Qed.

Lemma parseOptions_counterInv : ∀ opts m m',
  parseOptions opts m = Ret m' → counterInv m → counterInv m'.
Proof.
  induction opts as [|[ch optarg] opts IH]; intros m m' Hrun Hinv;
    simpl in *.
  - by simplify_eq.
  - destruct (handleOption ch optarg m) as [m1| | |] eqn:Hstep; try done.
    apply (IH m1 m' Hrun). by apply (handleOption_counterInv ch optarg m).
Qed.

Lemma processFilename_counter C t failed st :
  processFilename C t = Done (failed, st) →
  counterOk st ∧ failed = negb (nbErrors st =? 0).
Proof.
  unfold processFilename. intros H.
  assert (counterOk (mkState (targetHandles t) 0 [])) as Hinit by done.
  destruct t as [stdin stdout| |f|f|f]; cbv zeta in H.
  - destruct (processFile _ _ _) as [st0| | |] eqn:Hrun; try discriminate.
    injection H as <- <-. eauto using processFile_counterOk.
  - injection H as <- <-. auto using report_counterOk.
  - injection H as <- <-. auto using report_counterOk.
  - injection H as <- <-. auto using report_counterOk.
  - destruct (_ <? _).
    + injection H as <- <-. auto using report_counterOk.
    + destruct (processFile _ _ _) as [st0| | |] eqn:Hrun; try discriminate.
      injection H as <- <-. eauto using processFile_counterOk.
Qed.

Lemma counterOk_zero st :
  counterOk st → (negb (nbErrors st =? 0) = true ↔ reported st ≠ []).
Proof.
  unfold counterOk. intros ->.
  destruct (reported st) as [|d l]; simpl; [done|].
  split; [done|]. intros _. apply negb_true_iff, Z.eqb_neq. lia.
Qed.

Lemma processFiles_failed C : ∀ targets failed acc failed' acc',
  processFiles C targets failed acc = Ret (failed', acc') →
  ∃ new, acc' = acc ++ new ∧ length new = length targets
    ∧ (failed' = true ↔
       failed = true ∨ ∃ st, st ∈ new ∧ reported st ≠ []).
Proof.
  induction targets as [|t targets IH]; intros failed acc failed' acc' H;
    simpl in H.
  - simplify_eq. exists []. rewrite app_nil_r. split; [done|].
    split; [done|]. split; [auto|]. intros [?|(st & Hst & _)]; [done|].
    by apply elem_of_nil in Hst.
  - destruct (processFilename C t) as [[f st]| | |] eqn:Hfile; try done.
    apply processFilename_counter in Hfile as [Hst ->].
    apply IH in H as (new & -> & Hlen & Hiff).
    exists (st :: new). rewrite <- app_assoc. split; [done|].
    split; [simpl; lia|]. rewrite Hiff, orb_true_iff, (counterOk_zero st Hst).
    split.
    + intros [[?|?]|(st' & Hin & Hne)]; eauto using list_elem_of_here.
      right. exists st'. split; [by apply list_elem_of_further|done].
    + intros [?|(st' & Hin & Hne)]; [auto|].
      apply elem_of_cons in Hin as [->|Hin]; eauto.
Qed.

(** X20: [main] returns 1 exactly when an option was in error or a file
    failed.  An option in error does not keep the files from being
    processed: each of them is, or the standard input when none is
    named. *)
Theorem main_status opts targets stdin stdout failed m states :
  main opts targets stdin stdout = Ret (failed, m, states) →
  (failed = true ↔
   errors m ≠ [] ∨ ∃ st, st ∈ states ∧ reported st ≠ [])
  ∧ length states = Nat.max 1 (length targets).
Proof.
  unfold main. intros H.
  destruct (parseOptions opts initialMain) as [m0| | |] eqn:Hopts; try done.
  apply parseOptions_counterInv in Hopts; [|done].
  destruct (ramWarnings (config m0)) as [w|]; [|done].
  cbv zeta in H. cbn [errorCounter config] in H.
  destruct (processFiles _ _ _ _) as [[failed' acc]| | |] eqn:Hfiles;
    [|discriminate H..].
  injection H as <- <- <-.
  apply processFiles_failed in Hfiles as (new & -> & Hlen & Hiff).
  rewrite app_nil_l. split.
  - rewrite Hiff. cbn [errors].
    assert (negb (errorCounter m0 =? 0) = true ↔ errors m0 ≠ []) as ->;
      [|done].
    rewrite Hopts. destruct (errors m0) as [|e l]; simpl; [done|].
    split; [done|]. intros _. apply negb_true_iff, Z.eqb_neq. lia.
  - rewrite Hlen. destruct targets; simpl; lia.
Qed.

Lemma main_status_witness :
  main [("p"%char, "x"%string)] [NoSuchFile] smallImage (mkFile [] 0)
  = Ret (true,
         mkMain initialConfig 1 [NotANumber "p" "x"] [],
         [report OpenFailed (mkState (SameFile (mkFile [] 0)) 0 [])])
  ∧ (true = true ↔
     errors (mkMain initialConfig 1 [NotANumber "p" "x"] []) ≠ []
     ∨ ∃ st,
         st ∈ [report OpenFailed (mkState (SameFile (mkFile [] 0)) 0 [])]
         ∧ reported st ≠ [])
  ∧ length [report OpenFailed (mkState (SameFile (mkFile [] 0)) 0 [])]
    = Nat.max 1 (length [NoSuchFile]).
Proof.
  split; [reflexivity|].
  apply (main_status [("p"%char, "x"%string)] [NoSuchFile] smallImage
           (mkFile [] 0) true
           (mkMain initialConfig 1 [NotANumber "p" "x"] [])
           [report OpenFailed (mkState (SameFile (mkFile [] 0)) 0 [])]).
  reflexivity.
Defined.

(** *** A cartridge type given as a number *)

Lemma ramWarnings_None C :
  ramWarnings C = None ↔
  ramSize C ≠ UNSPECIFIED ∧ cartridgeType C < UNSPECIFIED
  ∧ memZ (cartridgeType C) mbcTypes = false.
Proof.
  unfold ramWarnings. cbv zeta.
  pose proof (mbcName_memZ (cartridgeType C)) as Hn.
  pose proof (hasRAM_memZ (cartridgeType C)) as Hr.
  destruct (Z.eqb_spec (ramSize C) UNSPECIFIED) as [Hu|Hu]; cbn [negb andb].
  { split; [done|]. by intros [? _]. }
  destruct (Z.ltb_spec (cartridgeType C) UNSPECIFIED) as [Hlt|Hge].
  2: { split; [done|]. intros (_ & ? & _). lia. }
  assert (memZ (cartridgeType C) mbcErrors = false) as He.
  { unfold memZ, mbcErrors, existsb, MBC_NONE, MBC_BAD, MBC_WRONG_FEATURES,
      MBC_BAD_RANGE, UNSPECIFIED in *.
    repeat (rewrite (proj2 (Z.eqb_neq _ _)) by lia). done. }
  rewrite He, orb_false_r in Hr.
  destruct (memZ (cartridgeType C) mbcTypes) eqn:Hmem.
  - destruct (mbcName (cartridgeType C)) as [name|]; [|done].
    destruct (hasRAM (cartridgeType C)) as [ram|]; [|done].
    split; [|by intros (_ & _ & ?)].
    simpl. repeat case_match; done.
  - destruct (hasRAM (cartridgeType C)); [done|].
    split; [done|]. intros _.
    assert ((cartridgeType C =? ROM_RAM)
            || (cartridgeType C =? ROM_RAM_BATTERY) = false) as ->; [|done].
    unfold memZ, mbcTypes, existsb in Hmem.
    repeat (apply orb_false_iff in Hmem as [? Hmem]).
    apply orb_false_iff. split; assumption.
Qed.

Lemma handleOption_reachable ch optarg m :
  handleOption ch optarg m ≠ Unreachable.
Proof.
  unfold handleOption. cbv zeta. repeat case_match; done.
Qed.

Lemma parseOptions_reachable : ∀ opts m, parseOptions opts m ≠ Unreachable.
Proof.
  induction opts as [|[ch optarg] opts IH]; intros m; simpl; [done|].
  pose proof (handleOption_reachable ch optarg m).
  destruct (handleOption ch optarg m); done.
Qed.

Lemma processFiles_reachable C : ∀ targets failed acc,
  processFiles C targets failed acc ≠ Unreachable.
Proof.
  induction targets as [|t targets IH]; intros failed acc; simpl; [done|].
  destruct (processFilename C t) as [[f st]| | |]; done.
Qed.

(** X21: [main] reaches [unreachable_()] exactly when a RAM size is given and
    the cartridge type is a byte that is no member of [enum MbcType]:
    [hasRAM] has no [case] for it.  The files are not processed then. *)
Theorem main_unreachable opts targets stdin stdout :
  main opts targets stdin stdout = Unreachable ↔
  ∃ m, parseOptions opts initialMain = Ret m
       ∧ ramSize (config m) ≠ UNSPECIFIED
       ∧ cartridgeType (config m) < UNSPECIFIED
       ∧ cartridgeType (config m) ∉ mbcTypes.
Proof.
  unfold main. split.
  - intros H.
    pose proof (parseOptions_reachable opts initialMain) as Hopts.
    destruct (parseOptions opts initialMain) as [m| | |]; try done.
    exists m. split; [done|]. rewrite <- memZ_elem_of.
    destruct (ramWarnings (config m)) as [w|] eqn:Hw.
    + cbv zeta in H. revert H.
      match goal with
      | |- context [processFiles ?C ?t ?f ?d] =>
        pose proof (processFiles_reachable C t f d) as Hfiles;
        destruct (processFiles C t f d) as [[? ?]| | |]
      end; done.
    + apply ramWarnings_None in Hw as (? & ? & ->). done.
  - intros (m & -> & Hram & Hlt & Hmem).
    rewrite <- memZ_elem_of in Hmem. apply not_true_is_false in Hmem.
    by rewrite (proj2 (ramWarnings_None (config m))).
Qed.

Example main_numeric_mbc_unreachable :
  main [("m"%char, "4"%string); ("r"%char, "0"%string)] [] smallImage
       (mkFile [] 0)
  = Unreachable.
Proof. reflexivity. Qed.

(** *** From the command line to the image *)

(** X22: with options free of errors, [main] on one regular file of a size
    that [processFile] accepts returns 0 and leaves in the file the image
    that the options describe.  That the options are consistent
    ([wfConfig]) is no assumption here: [main] sees to it. *)
Theorem main_fixes_file opts m (f : File) stdin stdout :
  parseOptions opts initialMain = Ret m →
  errors m = [] →
  is_Some (ramWarnings (config m)) →
  pos f = 0%nat →
  (0x150 <= length (data f))%nat →
  Z.of_nat (length (data f)) < 0x10000 * BANK_SIZE →
  ∃ m' st,
    main opts [Regular f] stdin stdout = Ret (false, m', [st])
    ∧ config m' = config m
    ∧ reported st = []
    ∧ written (handles st) = fixedImage (config m) (data f).
Proof.
  intros Hopts Herr [w Hw] Hpos Hmin Hmax.
  pose proof (parseOptions_ok opts initialMain m Hopts eq_refl) as Hok.
  pose proof (parseOptions_counterInv opts initialMain m Hopts eq_refl)
    as Hcount.
  unfold counterInv in Hcount. rewrite Herr in Hcount. simpl in Hcount.
  assert (wfConfig (config m) = true) as Hwf.
  { unfold optionsOk in Hok.
    do 6 (apply andb_true_iff in Hok as [Hok _]). exact Hok. }
  destruct (processFile_regular (config m) f 0 [] Hwf Hpos Hmin Hmax)
    as (p & Hrun).
  unfold main. rewrite Hopts, Hw. cbv zeta. cbn [config errorCounter].
  rewrite Hcount. cbn [processFiles]. unfold processFilename.
  cbn [targetHandles]. cbv zeta.
  destruct (Z.ltb_spec (Z.of_nat (length (data f))) 336) as [Hlt|_];
    [lia|].
  rewrite Hrun. cbn [nbErrors]. simpl.
  eexists _, _. split; [reflexivity|]. done.
Qed.

Lemma main_fixes_file_witness :
  parseOptions [("v"%char, ""%string); ("p"%char, "0xFF"%string)]
               initialMain
  = Ret (mkMain padConfig 0 [] [])
  ∧ errors (mkMain padConfig 0 [] []) = []
  ∧ is_Some (ramWarnings (config (mkMain padConfig 0 [] [])))
  ∧ pos smallImage = 0%nat
  ∧ (0x150 <= length (data smallImage))%nat
  ∧ Z.of_nat (length (data smallImage)) < 0x10000 * BANK_SIZE
  ∧ (∃ m' st,
       main [("v"%char, ""%string); ("p"%char, "0xFF"%string)]
            [Regular smallImage] smallImage (mkFile [] 0)
       = Ret (false, m', [st])
       ∧ config m' = config (mkMain padConfig 0 [] [])
       ∧ reported st = []
       ∧ written (handles st)
         = fixedImage (config (mkMain padConfig 0 [] [])) (data smallImage)).
Proof.
  split; [reflexivity|]. split; [reflexivity|].
  split; [by eexists|]. split; [reflexivity|].
  split; [vm_compute; lia|]. split; [vm_compute; reflexivity|].
  apply (main_fixes_file
           [("v"%char, ""%string); ("p"%char, "0xFF"%string)]
           (mkMain padConfig 0 [] []) smallImage smallImage (mkFile [] 0));
    [reflexivity|reflexivity|by eexists|reflexivity|vm_compute; lia
    |vm_compute; reflexivity].
Defined.

(** *** The lengths, whatever the order of the options *)

(** The length that goes with a string option: the length of the string,
    cut to the size [max] of its field. *)
Definition cutLength (s : option (list Z)) (max len : nat) : bool :=
  match s with
  | Some t => (len =? Nat.min (length t) max)%nat
  | None => (len =? 0)%nat
  end.

Definition lengthsCut (C : Config) : bool :=
  cutLength (title C) (maxTitleLen C) (titleLen C)
  && cutLength (gameID C) 4 (gameIDLen C)
  && cutLength (newLicensee C) 2 (newLicenseeLen C).

Lemma byteOption_lengthsCut optarg name set m :
  (∀ C value, lengthsCut (set C value) = lengthsCut C) →
  lengthsCut (config m) = true →
  lengthsCut (config (byteOption optarg name set m)) = true.
Proof.
  intros Hset Hok. unfold byteOption.
  destruct (parseByte optarg name); simpl; [by rewrite Hset|done].
Qed.

Ltac lengths_cut :=
  match goal with
  | H : lengthsCut _ = true |- lengthsCut _ = true =>
    unfold lengthsCut, cutLength in *; options_cbn;
    unfold maxTitleLen in *; options_cbn;
    apply andb_true_iff in H as [H Hn]; apply andb_true_iff in H as [Ht Hg];
    rewrite ?length_bytesOf;
    repeat (apply andb_true_iff; split); try assumption
  end.

Lemma handleOption_lengthsCut ch optarg m m' :
  handleOption ch optarg m = Ret m' →
  lengthsCut (config m) = true → lengthsCut (config m') = true.
Proof.
  unfold handleOption. cbv zeta. intros Hrun Hok.
  destruct ((ch =? "C") || (ch =? "c"))%char.
  { destruct (Nat.ltb_spec 15 (titleLen (setModel (config m)
        (if (ch =? "c")%char then BOTH else CGB)))) as [Hlt|Hge];
      simplify_eq; lengths_cut; options_cbn;
      destruct (title (config m)), (gameID (config m)), (model (config m)),
        (ch =? "c")%char;
      apply Nat.eqb_eq in Ht; apply Nat.eqb_eq; simpl in *; lia. }
  destruct (ch =? "f")%char.
  { destruct (fixSpecLoop optarg 0 (warnings m)) as [spec w].
    simplify_eq. lengths_cut. }
  destruct (ch =? "i")%char.
  { assert (∀ len (m0 : MainState),
              len = Nat.min (String.length optarg) 4 →
              (if (11 <? titleLen (setGameID (config m)
                                     (Some (bytesOf optarg)) len))%nat
               then Ret (warn (TruncatingTitle 11)
                           (setConfig m0
                              (setTitleLen
                                 (setGameID (config m)
                                    (Some (bytesOf optarg)) len) 11)))
               else Ret (setConfig m0
                           (setGameID (config m) (Some (bytesOf optarg))
                                      len))) = Ret m' →
              lengthsCut (config m') = true) as Hi.
    { intros len m0 -> Hrun'.
      destruct (Nat.ltb_spec 11 (titleLen (setGameID (config m)
                  (Some (bytesOf optarg))
                  (Nat.min (String.length optarg) 4)))) as [Hlt|Hge];
        simplify_eq; lengths_cut; options_cbn;
        try (by apply Nat.eqb_eq);
        destruct (title (config m)), (gameID (config m)),
          (model (config m));
        apply Nat.eqb_eq in Ht; apply Nat.eqb_eq; simpl in *; lia. }
    destruct (Nat.ltb_spec 4 (String.length optarg)).
    - apply (Hi 4%nat (warn TruncatingGameID m)); [lia|done].
    - apply (Hi (String.length optarg) m); [lia|done]. }
  destruct (ch =? "j")%char.
  { simplify_eq. lengths_cut. }
  destruct (ch =? "k")%char.
  { destruct (Nat.ltb_spec 2 (String.length optarg));
      simplify_eq; lengths_cut; apply Nat.eqb_eq; lia. }
  destruct (ch =? "l")%char.
  { simplify_eq. by apply byteOption_lengthsCut. }
  destruct (ch =? "m")%char.
  { destruct (parseMBC optarg) as [code|]; [|done].
    assert (lengthsCut (setCartridgeType (config m) code) = true) as Hm
      by lengths_cut.
    repeat case_match; by simplify_eq. }
  destruct (ch =? "n")%char.
  { simplify_eq. by apply byteOption_lengthsCut. }
  destruct (ch =? "p")%char.
  { simplify_eq. by apply byteOption_lengthsCut. }
  destruct (ch =? "r")%char.
  { simplify_eq. by apply byteOption_lengthsCut. }
  destruct (ch =? "s")%char.
  { simplify_eq. lengths_cut. }
  destruct (ch =? "t")%char.
  { destruct (Nat.ltb_spec (maxTitleLen (config m)) (String.length optarg))
      as [Hlt|Hge]; unfold maxTitleLen in Hlt || unfold maxTitleLen in Hge;
      simplify_eq; lengths_cut; apply Nat.eqb_eq; lia. }
  destruct (ch =? "V")%char; [done|].
  destruct (ch =? "v")%char; [|done].
  simplify_eq. lengths_cut.
Qed.

Lemma parseOptions_lengthsCut : ∀ opts m m',
  parseOptions opts m = Ret m' →
  lengthsCut (config m) = true → lengthsCut (config m') = true.
Proof.
  induction opts as [|[ch optarg] opts IH]; intros m m' Hrun Hok; simpl in *.
  - by simplify_eq.
  - destruct (handleOption ch optarg m) as [m1| | |] eqn:Hstep; try done.
    apply (IH m1 m' Hrun).
    by apply (handleOption_lengthsCut ch optarg m).
Qed.

(** X26: the lengths that the options leave do not depend on the order of the
    options: the title is cut to what [maxTitleLen()] is once all options
    are read, whether [-t] came before or after [-i], [-C] or [-c]; the
    game ID is cut to 4 characters and the new licensee to 2. *)
Theorem parseOptions_lengths opts m :
  parseOptions opts initialMain = Ret m →
  titleLen (config m)
  = match title (config m) with
    | Some t => Nat.min (length t) (maxTitleLen (config m))
    | None => 0%nat
    end
  ∧ gameIDLen (config m)
    = match gameID (config m) with
      | Some g => Nat.min (length g) 4
      | None => 0%nat
      end
  ∧ newLicenseeLen (config m)
    = match newLicensee (config m) with
      | Some l => Nat.min (length l) 2
      | None => 0%nat
      end.
Proof.
  intros Hrun.
  pose proof (parseOptions_lengthsCut opts initialMain m Hrun eq_refl) as H.
  unfold lengthsCut, cutLength in H.
  apply andb_true_iff in H as [H Hn]. apply andb_true_iff in H as [Ht Hg].
  destruct (title (config m)), (gameID (config m)), (newLicensee (config m));
    apply Nat.eqb_eq in Ht, Hg, Hn; done.
Qed.

Lemma parseOptions_lengths_witness :
  parseOptions [("t"%char, "ABCDEFGHIJKLMNOPQRS"%string);
                ("i"%char, "ABCDE"%string); ("C"%char, ""%string)]
               initialMain
  = Ret (mkMain
           (mkConfig CGB 0 (Some (bytesOf "ABCDE")) 4 true None 0 UNSPECIFIED
                     MBC_NONE UNSPECIFIED UNSPECIFIED UNSPECIFIED false
                     (Some (bytesOf "ABCDEFGHIJKLMNOPQRS")) 11)
           0 []
           [TruncatingTitle 16; TruncatingGameID; TruncatingTitle 11])
  ∧ 11%nat = Nat.min (length (bytesOf "ABCDEFGHIJKLMNOPQRS")) 11
  ∧ 4%nat = Nat.min (length (bytesOf "ABCDE")) 4
  ∧ 0%nat = 0%nat.
Proof.
  split; [reflexivity|].
  apply (parseOptions_lengths
           [("t"%char, "ABCDEFGHIJKLMNOPQRS"%string);
            ("i"%char, "ABCDE"%string); ("C"%char, ""%string)]
           (mkMain
              (mkConfig CGB 0 (Some (bytesOf "ABCDE")) 4 true None 0
                        UNSPECIFIED MBC_NONE UNSPECIFIED UNSPECIFIED
                        UNSPECIFIED false
                        (Some (bytesOf "ABCDEFGHIJKLMNOPQRS")) 11)
              0 []
              [TruncatingTitle 16; TruncatingGameID; TruncatingTitle 11])).
  reflexivity.
Defined.

(** *** Leaving before the files *)

Lemma parseOptions_app : ∀ opts1 opts2 m m1,
  parseOptions opts1 m = Ret m1 →
  parseOptions (opts1 ++ opts2) m = parseOptions opts2 m1.
Proof.
  induction opts1 as [|[ch optarg] opts1 IH]; intros opts2 m m1 H;
    simpl in *.
  - by simplify_eq.
  - destruct (handleOption ch optarg m) as [m'| | |]; try done.
    by apply IH.
Qed.

(** The letters of [optstring]. *)
Definition isOption (ch : ascii) : bool :=
  existsb (Ascii.eqb ch)
          (list_ascii_of_string "CcfijklmnprstVv").

(** X27: [-V] ends the program with status 0 even after options in error, and
    anything that is no option letter ends it with status 1; the options
    that follow are not looked at and no file is processed. *)
Theorem main_exits_early opts1 ch optarg opts2 targets stdin stdout m :
  parseOptions opts1 initialMain = Ret m →
  (ch = "V"%char ∨ isOption ch = false) →
  main (opts1 ++ (ch, optarg) :: opts2) targets stdin stdout
  = Exit (if (ch =? "V")%char then 0 else 1).
Proof.
  intros Hopts Hch. unfold main.
  rewrite (parseOptions_app opts1 _ _ m Hopts). cbn [parseOptions].
  assert (handleOption ch optarg m = Exit (if (ch =? "V")%char then 0 else 1))
    as ->; [|done].
  destruct Hch as [->|Hch]; [done|].
  unfold isOption in Hch. cbn [list_ascii_of_string existsb] in Hch.
  repeat (apply orb_false_iff in Hch as [? Hch]).
  unfold handleOption. cbv zeta.
  repeat match goal with
         | H : (ch =? _)%char = false |- _ => rewrite H; clear H
         end.
  reflexivity.
Qed.

Lemma main_exits_early_witness :
  parseOptions [("p"%char, "x"%string)] initialMain
  = Ret (mkMain initialConfig 1 [NotANumber "p" "x"] [])
  ∧ ("V"%char = "V"%char ∨ isOption "V" = false)
  ∧ main ([("p"%char, "x"%string)] ++ ("V"%char, ""%string) :: [])
         [Regular smallImage] smallImage (mkFile [] 0)
    = Exit (if ("V" =? "V")%char then 0 else 1).
Proof.
  split; [reflexivity|]. split; [by left|].
  apply (main_exits_early [("p"%char, "x"%string)] "V" "" []
           [Regular smallImage] smallImage (mkFile [] 0)
           (mkMain initialConfig 1 [NotANumber "p" "x"] []));
    [reflexivity|by left].
Defined.

(** * The loops around [read] and [write] *)

(** [processFile] is modelled with a [readBytes] and a [writeBytes] that
    transfer all the bytes at once.  Here are the loops of the two functions,
    over system calls that may be interrupted, fail, or transfer only a part
    of what they are asked for. *)

Definition SSIZE_MAX : Z := 2 ^ 63 - 1.

(** What one call of [read] or [write] does. *)
Inductive Call : Type :=
  | Interrupted         (* it returns -1, with [errno == EINTR] *)
  | Failed              (* it returns -1, with another [errno] *)
  | Partial (n : nat).  (* it transfers at most [n + 1] bytes *)

(** The number of bytes that a call asked for [len] bytes is ready to
    transfer.  Once the list of calls is used up every call transfers all
    it is asked for. *)
Definition granted (c : option Call) (len : nat) : nat :=
  match c with
  | Some (Partial n) => Nat.min (S n) len
  | _ => len
  end.

(** [write(fd, bytes, length bytes)] at the offset of the descriptor. *)
Definition fileWrite (f : File) (bytes : list Z) : File :=
  mkFile (take (pos f) (data f) ++ bytes
            ++ drop (pos f + length bytes) (data f))
         (pos f + length bytes).

(** The loop of [readBytes]; [buf] holds the bytes stored so far, [total]
    is their number.  The result is the value returned, the bytes stored
    and the file. *)
Fixpoint readBytes_loop (fuel : nat) (calls : list Call) (f : File)
    (len : nat) (total : Z) (buf : list Z) : Outcome (Z * list Z * File) :=
  match fuel with
  | O => NoFuel
  | S fuel =>
    if (len =? 0)%nat then Done (total, buf, f)
    else
      match head calls with
      | Some Failed =>
        (* Return errors, unless we only were interrupted *)
        Done (-1, buf, f)
      | Some Interrupted => readBytes_loop fuel (tail calls) f len total buf
      | c =>
        let ret := Nat.min (granted c len) (length (unread f)) in
        (* EOF reached *)
        if (ret =? 0)%nat then Done (total, buf, f)
        else
          (* If anything was read, accumulate it, and continue *)
          readBytes_loop fuel (tail calls)
                         (mkFile (data f) (pos f + ret)) (len - ret)
                         (total + Z.of_nat ret)
                         (buf ++ take ret (unread f))
      end
  end.

Definition readBytes_calls (fuel : nat) (calls : list Call) (f : File)
    (len : nat) : Outcome (Z * list Z * File) :=
  if SSIZE_MAX <? Z.of_nat len then AssertFailed
  else readBytes_loop fuel calls f len 0 [].

(** The loop of [writeBytes]: [buf] is the buffer that the caller passed;
    the loop does not move it. *)
Fixpoint writeBytes_loop (fuel : nat) (calls : list Call) (f : File)
    (buf : list Z) (len : nat) (total : Z) : Outcome (Z * File) :=
  match fuel with
  | O => NoFuel
  | S fuel =>
    if (len =? 0)%nat then Done (total, f)
    else
      match head calls with
      | Some Failed => Done (-1, f)
      | Some Interrupted => writeBytes_loop fuel (tail calls) f buf len total
      | c =>
        let ret := granted c len in
        if (ret =? 0)%nat then Done (total, f)
        else
          writeBytes_loop fuel (tail calls) (fileWrite f (take ret buf)) buf
                          (len - ret) (total + Z.of_nat ret)
      end
  end.

Definition writeBytes_calls (fuel : nat) (calls : list Call) (f : File)
    (buf : list Z) (len : nat) : Outcome (Z * File) :=
  if SSIZE_MAX <? Z.of_nat len then AssertFailed
  else writeBytes_loop fuel calls f buf len 0.

(** ** [readBytes] *)

Lemma unread_advance f n :
  unread (mkFile (data f) (pos f + n)) = drop n (unread f).
Proof. unfold unread. simpl. by rewrite drop_drop. Qed.

Lemma readBytes_loop_end fuel f len total buf :
  len = 0%nat ∨ unread f = [] →
  readBytes_loop (S fuel) [] f len total buf = Done (total, buf, f).
Proof.
  intros [-> | Hf]; simpl; [done|].
  destruct (len =? 0)%nat; [done|]. by rewrite Hf, Nat.min_0_r.
Qed.

Lemma file_advance_0 f : mkFile (data f) (pos f + 0) = f.
Proof. destruct f. simpl. by rewrite Nat.add_0_r. Qed.

Lemma readBytes_loop_S fuel calls f len total buf :
  readBytes_loop (S fuel) calls f len total buf
  = if (len =? 0)%nat then Done (total, buf, f)
    else
      match head calls with
      | Some Failed => Done (-1, buf, f)
      | Some Interrupted => readBytes_loop fuel (tail calls) f len total buf
      | c =>
        let ret := Nat.min (granted c len) (length (unread f)) in
        if (ret =? 0)%nat then Done (total, buf, f)
        else
          readBytes_loop fuel (tail calls)
                         (mkFile (data f) (pos f + ret)) (len - ret)
                         (total + Z.of_nat ret)
                         (buf ++ take ret (unread f))
      end.
Proof. reflexivity. Qed.

Lemma readBytes_loop_rest fuel f len total buf :
  readBytes_loop (S (S fuel)) [] f len total buf
  = Done (total + Z.of_nat (length (take len (unread f))),
          buf ++ take len (unread f),
          mkFile (data f) (pos f + length (take len (unread f)))).
Proof.
  rewrite readBytes_loop_S. cbn [head tail granted]. cbv zeta.
  destruct (Nat.eqb_spec len 0) as [->|Hlen].
  { simpl. by rewrite Z.add_0_r, app_nil_r, file_advance_0. }
  rewrite length_take.
  destruct (Nat.eqb_spec (len `min` length (unread f)) 0) as [Hz|Hnz].
  { assert (unread f = []) as Hf by (apply length_zero_iff_nil; lia).
    rewrite Hz, Hf, take_nil, Z.add_0_r, app_nil_r. by rewrite file_advance_0. }
  rewrite readBytes_loop_end.
  - do 3 f_equal. destruct (Nat.min_spec len (length (unread f)))
      as [[? ->]|[? ->]]; [done|]. by rewrite !take_ge by lia.
  - rewrite unread_advance.
    destruct (Nat.min_spec len (length (unread f))) as [[? ->]|[? ->]].
    + left. lia.
    + right. by apply drop_all.
Qed.

Lemma readBytes_loop_spec : ∀ calls fuel f len total buf,
  Failed ∉ calls → (length calls + 2 <= fuel)%nat →
  readBytes_loop fuel calls f len total buf
  = Done (total + Z.of_nat (length (take len (unread f))),
          buf ++ take len (unread f),
          mkFile (data f) (pos f + length (take len (unread f)))).
Proof.
  induction calls as [|c calls IH]; intros fuel f len total buf Hok Hfuel.
  - destruct fuel as [|[|fuel]]; simpl in Hfuel; [lia..|].
    apply readBytes_loop_rest.
  - destruct fuel as [|fuel]; simpl in Hfuel; [lia|].
    apply not_elem_of_cons in Hok as [Hc Hok].
    rewrite readBytes_loop_S. cbn [head tail]. cbv zeta.
    destruct (Nat.eqb_spec len 0) as [->|Hlen].
    { simpl. by rewrite Z.add_0_r, app_nil_r, file_advance_0. }
    destruct c as [| |n]; [|done|].
    + apply IH; [done|lia].
    + cbn [granted]. set (ret := (_ `min` _)%nat).
      destruct (Nat.eqb_spec ret 0) as [Hz|Hnz].
      { assert (unread f = []) as Hf by (apply length_zero_iff_nil; lia).
        rewrite Hf, take_nil, Z.add_0_r, app_nil_r.
        by rewrite file_advance_0. }
      rewrite IH by (done || lia). rewrite unread_advance.
      assert (take ret (unread f) ++ take (len - ret) (drop ret (unread f))
              = take len (unread f)) as Htake.
      { rewrite take_take_drop. f_equal. lia. }
      rewrite <- Htake, <- app_assoc, length_app.
      assert (length (take ret (unread f)) = ret) as ->
        by (rewrite length_take; lia).
      cbn [data pos]. rewrite Nat2Z.inj_add, Z.add_assoc, Nat.add_assoc.
      reflexivity.
Qed.

(** X23: however the calls of [read] are interrupted or cut short, unless one
    fails [readBytes] returns the number of the bytes stored, which are the
    next [len] bytes of the file or all that is left of it, and leaves the
    descriptor past them: the loop computes what the model of [processFile]
    takes for [readBytes]. *)
Theorem readBytes_calls_spec calls fuel f (len : nat) (out : File) :
  Failed ∉ calls → (length calls + 2 <= fuel)%nat →
  Z.of_nat len <= SSIZE_MAX →
  ∃ buf f',
    readBytes_calls fuel calls f len = Done (Z.of_nat (length buf), buf, f')
    ∧ readBytes (Pipe f out) (Z.of_nat len) = (buf, Pipe f' out)
    ∧ readBytes (SameFile f) (Z.of_nat len) = (buf, SameFile f').
Proof.
  intros Hok Hfuel Hlen. unfold readBytes_calls.
  destruct (Z.ltb_spec SSIZE_MAX (Z.of_nat len)); [lia|].
  rewrite readBytes_loop_spec by done.
  eexists _, _. split; [reflexivity|].
  unfold readBytes. cbn [inputFile withInput]. by rewrite Nat2Z.id.
Qed.

Lemma readBytes_calls_spec_witness :
  (Failed ∉ [Interrupted; Partial 0; Partial 2])
  ∧ (length [Interrupted; Partial 0; Partial 2] + 2 <= 5)%nat
  ∧ Z.of_nat 6 <= SSIZE_MAX
  ∧ (∃ buf f',
       readBytes_calls 5 [Interrupted; Partial 0; Partial 2]
                       (mkFile [1; 2; 3; 4; 5; 6; 7; 8] 1) 6
       = Done (Z.of_nat (length buf), buf, f')
       ∧ readBytes (Pipe (mkFile [1; 2; 3; 4; 5; 6; 7; 8] 1) (mkFile [] 0))
                   (Z.of_nat 6)
         = (buf, Pipe f' (mkFile [] 0))
       ∧ readBytes (SameFile (mkFile [1; 2; 3; 4; 5; 6; 7; 8] 1))
                   (Z.of_nat 6)
         = (buf, SameFile f')).
Proof.
  assert (Failed ∉ [Interrupted; Partial 0; Partial 2]) as Hok.
  { intros H. repeat (apply elem_of_cons in H as [H|H]; [discriminate|]).
    by apply elem_of_nil in H. }
  split; [exact Hok|]. split; [simpl; lia|]. split; [by vm_compute|].
  apply (readBytes_calls_spec [Interrupted; Partial 0; Partial 2] 5
           (mkFile [1; 2; 3; 4; 5; 6; 7; 8] 1) 6 (mkFile [] 0));
    [exact Hok|simpl; lia|by vm_compute].
Defined.

(** ** [writeBytes] *)

Lemma writeBytes_loop_S fuel calls f buf len total :
  writeBytes_loop (S fuel) calls f buf len total
  = if (len =? 0)%nat then Done (total, f)
    else
      match head calls with
      | Some Failed => Done (-1, f)
      | Some Interrupted => writeBytes_loop fuel (tail calls) f buf len total
      | c =>
        let ret := granted c len in
        if (ret =? 0)%nat then Done (total, f)
        else
          writeBytes_loop fuel (tail calls) (fileWrite f (take ret buf)) buf
                          (len - ret) (total + Z.of_nat ret)
      end.
Proof. reflexivity. Qed.

Lemma writeBytes_loop_rest fuel f buf len total :
  writeBytes_loop (S (S fuel)) [] f buf len total
  = Done (total + Z.of_nat len,
          if (len =? 0)%nat then f else fileWrite f (take len buf)).
Proof.
  rewrite writeBytes_loop_S. cbn [head tail granted]. cbv zeta.
  destruct (Nat.eqb_spec len 0) as [->|Hlen]; [by rewrite Z.add_0_r|].
  rewrite writeBytes_loop_S, Nat.sub_diag. done.
Qed.

Lemma writeBytes_loop_interrupted : ∀ calls fuel f buf len total,
  Forall (λ c, c = Interrupted) calls → (length calls + 2 <= fuel)%nat →
  writeBytes_loop fuel calls f buf len total
  = Done (total + Z.of_nat len,
          if (len =? 0)%nat then f else fileWrite f (take len buf)).
Proof.
  induction calls as [|c calls IH]; intros fuel f buf len total Hall Hfuel.
  - destruct fuel as [|[|fuel]]; simpl in Hfuel; [lia..|].
    apply writeBytes_loop_rest.
  - destruct fuel as [|fuel]; simpl in Hfuel; [lia|].
    apply Forall_cons in Hall as [-> Hall].
    rewrite writeBytes_loop_S. cbn [head tail].
    destruct (Nat.eqb_spec len 0) as [->|Hlen]; [by rewrite Z.add_0_r|].
    rewrite IH by (done || lia).
    by rewrite (proj2 (Nat.eqb_neq len 0) Hlen).
Qed.

(** X24: when no call of [write] is cut short, interrupted calls or not,
    [writeBytes] writes the buffer at the offset of the descriptor and
    returns its length: what the model of [processFile] takes for
    [writeBytes]. *)
Theorem writeBytes_calls_complete calls fuel f (buf : list Z) (inp : File) :
  Forall (λ c, c = Interrupted) calls → (length calls + 2 <= fuel)%nat →
  Z.of_nat (length buf) <= SSIZE_MAX →
  ∃ f',
    writeBytes_calls fuel calls f buf (length buf)
    = Done (Z.of_nat (length buf), f')
    ∧ writeBytes (Pipe inp f) buf = Pipe inp f'
    ∧ writeBytes (SameFile f) buf = SameFile f'.
Proof.
  intros Hall Hfuel Hlen. unfold writeBytes_calls.
  destruct (Z.ltb_spec SSIZE_MAX (Z.of_nat (length buf))); [lia|].
  rewrite writeBytes_loop_interrupted by done.
  rewrite firstn_all. eexists. split; [reflexivity|].
  unfold writeBytes, fileWrite. cbn [outputFile withOutput].
  destruct buf as [|b buf]; [|done]. simpl.
  rewrite Nat.add_0_r, take_drop. by destruct f.
Qed.

Lemma writeBytes_calls_complete_witness :
  Forall (λ c, c = Interrupted) [Interrupted; Interrupted]
  ∧ (length [Interrupted; Interrupted] + 2 <= 4)%nat
  ∧ Z.of_nat (length [7; 8; 9]) <= SSIZE_MAX
  ∧ (∃ f',
       writeBytes_calls 4 [Interrupted; Interrupted] (mkFile [1; 2] 1)
                        [7; 8; 9] (length [7; 8; 9])
       = Done (Z.of_nat (length [7; 8; 9]), f')
       ∧ writeBytes (Pipe (mkFile [] 0) (mkFile [1; 2] 1)) [7; 8; 9]
         = Pipe (mkFile [] 0) f'
       ∧ writeBytes (SameFile (mkFile [1; 2] 1)) [7; 8; 9] = SameFile f').
Proof.
  assert (Forall (λ c, c = Interrupted) [Interrupted; Interrupted]) as Hall
    by (repeat constructor).
  split; [exact Hall|]. split; [simpl; lia|]. split; [by vm_compute|].
  apply (writeBytes_calls_complete [Interrupted; Interrupted] 4
           (mkFile [1; 2] 1) [7; 8; 9] (mkFile [] 0));
    [exact Hall|simpl; lia|by vm_compute].
Defined.

Lemma fileWrite_end f bytes :
  pos f = length (data f) →
  fileWrite f bytes
  = mkFile (data f ++ bytes) (length (data f) + length bytes).
Proof.
  intros Hpos. unfold fileWrite. rewrite Hpos.
  rewrite firstn_all, drop_ge, app_nil_r by lia. done.
Qed.

(** X25: when a call of [write] transfers only the first [n + 1] bytes of the
    buffer, the next call is given the same buffer again, not what is left
    of it: the loop does not move [buf] as the loop of [readBytes] does.
    Appending to a file, [writeBytes] then writes the beginning of the
    buffer a second time where its end should be, and returns the length
    asked for as if all were well; the file is right only if the buffer
    happens to repeat itself. *)
Theorem writeBytes_calls_partial fuel f (buf : list Z) n :
  (3 <= fuel)%nat → (S n < length buf)%nat →
  Z.of_nat (length buf) <= SSIZE_MAX →
  pos f = length (data f) →
  ∃ f',
    writeBytes_calls fuel [Partial n] f buf (length buf)
    = Done (Z.of_nat (length buf), f')
    ∧ data f' = data f ++ take (S n) buf ++ take (length buf - S n) buf
    ∧ (data f' = data f ++ buf ↔
       take (length buf - S n) buf = drop (S n) buf).
Proof.
  intros Hfuel Hn Hlen Hpos. unfold writeBytes_calls.
  destruct (Z.ltb_spec SSIZE_MAX (Z.of_nat (length buf))); [lia|].
  destruct fuel as [|[|[|fuel]]]; [lia..|].
  rewrite writeBytes_loop_S. cbn [head tail granted]. cbv zeta.
  rewrite (proj2 (Nat.eqb_neq (length buf) 0)) by lia.
  rewrite Nat.min_l by lia. cbn [Nat.eqb].
  rewrite writeBytes_loop_rest.
  rewrite (proj2 (Nat.eqb_neq (length buf - S n) 0)) by lia.
  rewrite (fileWrite_end f) by done.
  rewrite fileWrite_end by (simpl; by rewrite length_app).
  eexists. split; [f_equal; f_equal; lia|].
  cbn [data]. rewrite <- app_assoc. split; [done|].
  rewrite <- (take_drop (S n) buf) at 4. split.
  - by intros ?%app_inv_head%app_inv_head.
  - by intros ->.
Qed.

Lemma writeBytes_calls_partial_witness :
  (3 <= 3)%nat ∧ (1 < length [7; 8; 9])%nat
  ∧ Z.of_nat (length [7; 8; 9]) <= SSIZE_MAX
  ∧ pos (mkFile [1; 2] 2) = length (data (mkFile [1; 2] 2))
  ∧ (∃ f',
       writeBytes_calls 3 [Partial 0] (mkFile [1; 2] 2) [7; 8; 9]
                        (length [7; 8; 9])
       = Done (Z.of_nat (length [7; 8; 9]), f')
       ∧ data f'
         = data (mkFile [1; 2] 2) ++ take 1 [7; 8; 9]
             ++ take (length [7; 8; 9] - 1) [7; 8; 9]
       ∧ (data f' = data (mkFile [1; 2] 2) ++ [7; 8; 9] ↔
          take (length [7; 8; 9] - 1) [7; 8; 9] = drop 1 [7; 8; 9])).
Proof.
  split; [lia|]. split; [simpl; lia|]. split; [by vm_compute|].
  split; [reflexivity|].
  apply (writeBytes_calls_partial 3 (mkFile [1; 2] 2) [7; 8; 9] 0);
    [lia|simpl; lia|by vm_compute|reflexivity].
Defined.

(** * Fixing an image twice *)

(** ** The header edits store constants *)

(** What two buffers [X] and [Y] hold at offset [i] after the same stores
    of constants, from what [X0] and [Y0] held: the same byte, or each its
    own byte still. *)
Definition related (i : nat) (X0 Y0 X Y : list Z) : Prop :=
  length X = length X0 ∧ length Y = length Y0
  ∧ (X !! i = Y !! i ∨ (X !! i = X0 !! i ∧ Y !! i = Y0 !! i)).

Lemma related_refl i X0 Y0 : related i X0 Y0 X0 Y0.
Proof. unfold related. auto. Qed.

Lemma related_insert i X0 Y0 X Y k c :
  (i < length X0)%nat → (i < length Y0)%nat →
  related i X0 Y0 X Y → related i X0 Y0 (<[k:=c]> X) (<[k:=c]> Y).
Proof.
  intros HX HY (HlX & HlY & H). unfold related.
  rewrite !length_insert. split; [done|]. split; [done|].
  destruct (decide (i = k)) as [->|Hne].
  - left. by rewrite !list_lookup_insert_eq by lia.
  - by rewrite !list_lookup_insert_ne by done.
Qed.

Lemma related_setByte i X0 Y0 X Y (b : bool) k c :
  (i < length X0)%nat → (i < length Y0)%nat →
  related i X0 Y0 X Y →
  related i X0 Y0 (if b then <[k:=c]> X else X) (if b then <[k:=c]> Y else Y).
Proof. destruct b; [apply related_insert|done]. Qed.

Lemma related_setModel i X0 Y0 X Y (m : Model) :
  (i < length X0)%nat → (i < length Y0)%nat →
  related i X0 Y0 X Y →
  related i X0 Y0
    (match m with
     | DMG => X
     | BOTH => <[0x143%nat := 0x80]> X
     | CGB => <[0x143%nat := 0xc0]> X
     end)
    (match m with
     | DMG => Y
     | BOTH => <[0x143%nat := 0x80]> Y
     | CGB => <[0x143%nat := 0xc0]> Y
     end).
Proof. destruct m; [done|apply related_insert..]. Qed.

Lemma related_memcpy i X0 Y0 X Y off src len :
  (i < length X0)%nat → (i < length Y0)%nat →
  related i X0 Y0 X Y →
  related i X0 Y0 (memcpy X off src len) (memcpy Y off src len).
Proof.
  intros HX HY (HlX & HlY & H). unfold related.
  rewrite !memcpy_length. split; [done|]. split; [done|].
  destruct (inRange i off (length (take len src))) eqn:Hin.
  - left. unfold inRange in Hin. apply andb_true_iff in Hin as [H1 H2].
    apply Nat.leb_le in H1. apply Nat.ltb_lt in H2.
    unfold memcpy. by rewrite !list_lookup_inserts by lia.
  - assert (∀ Z0 : list Z, memcpy Z0 off src len !! i = Z0 !! i) as Hout.
    { intros Z0. unfold memcpy, inRange in *.
      destruct (decide (i < off)%nat); [by apply list_lookup_inserts_lt|].
      apply list_lookup_inserts_ge.
      apply andb_false_iff in Hin as [Hin%Nat.leb_gt|Hin%Nat.ltb_ge]; lia. }
    by rewrite !Hout.
Qed.

Lemma related_memcpyOpt i X0 Y0 X Y (o : option (list Z)) off len :
  (i < length X0)%nat → (i < length Y0)%nat →
  related i X0 Y0 X Y →
  related i X0 Y0
    (match o with Some t => memcpy X off t len | None => X end)
    (match o with Some t => memcpy Y off t len | None => Y end).
Proof. destruct o; [apply related_memcpy|done]. Qed.

Lemma related_foldl i X0 Y0 (g : nat → Z) off l : ∀ X Y,
  (i < length X0)%nat → (i < length Y0)%nat →
  related i X0 Y0 X Y →
  related i X0 Y0
    (foldl (λ buf j, <[(j + off)%nat := g j]> buf) X l)
    (foldl (λ buf j, <[(j + off)%nat := g j]> buf) Y l).
Proof.
  induction l as [|j l IH]; intros X Y HX HY H; simpl; [done|].
  apply IH; [done|done|]. by apply related_insert.
Qed.

Lemma related_fixLogo i X0 Y0 X Y C :
  (i < length X0)%nat → (i < length Y0)%nat →
  related i X0 Y0 X Y → related i X0 Y0 (fixLogo C X) (fixLogo C Y).
Proof.
  intros HX HY H. unfold fixLogo.
  destruct (hasBit _ (Z.lor _ _)); [|done].
  destruct (hasBit _ _); [by apply related_memcpy|by apply related_foldl].
Qed.

Lemma applyHeaderEdits_related C X Y i :
  (i < length X)%nat → (i < length Y)%nat →
  related i X Y (applyHeaderEdits C X) (applyHeaderEdits C Y).
Proof.
  intros HX HY. unfold applyHeaderEdits. cbv zeta.
  do 6 (apply related_setByte; [done|done|]).
  apply related_memcpyOpt; [done|done|].
  apply related_setModel; [done|done|].
  do 2 (apply related_memcpyOpt; [done|done|]).
  apply related_fixLogo; [done|done|]. apply related_refl.
Qed.

(** A buffer that holds at [i] what the edits left there is not changed
    at [i] by the same edits. *)
Lemma applyHeaderEdits_fixed C (X R : list Z) i :
  (i < length X)%nat → (i < length R)%nat →
  R !! i = applyHeaderEdits C X !! i →
  applyHeaderEdits C R !! i = R !! i.
Proof.
  intros HX HR Hi.
  destruct (applyHeaderEdits_related C R X i HR HX)
    as (_ & _ & [H|[H _]]); [|done].
  by rewrite H, Hi.
Qed.

Lemma editsTouch_fields C i :
  wfConfig C = true → editsTouch C i = true →
  (i < 0x14d)%nat ∧ i ≠ 0x148%nat.
Proof.
  unfold wfConfig, editsTouch, inRange, maxTitleLen.
  intros Hwf H.
  repeat (apply andb_true_iff in Hwf as [Hwf ?]).
  apply Nat.leb_le in Hwf.
  repeat match goal with
  | H : (_ <=? _)%nat = true |- _ => apply Nat.leb_le in H
  end.
  change (length ninLogo) with 48%nat in H.
  assert (titleLen C <= 16)%nat
    by (destruct (gameID C), (model C); lia).
  repeat (apply orb_true_iff in H as [H|H]);
    apply andb_true_iff in H as [_ H];
    first [ apply Nat.eqb_eq in H; lia
          | apply andb_true_iff in H as [?%Nat.leb_le ?%Nat.ltb_lt]; lia ].
Qed.

(** ** Bank 0 of the fixed image *)

Definition fixedRom0 (C : Config) (img : list Z) : list Z :=
  storeGlobalSum C (fixHeaderSum C (paddedRom0 C img)) (bodyOf C img).

Lemma fixedRom0_length C (img : list Z) :
  length (fixedRom0 C img) = length (paddedRom0 C img).
Proof.
  unfold fixedRom0. by rewrite storeGlobalSum_length, fixHeaderSum_length.
Qed.

Lemma fixedRom0_lookup_header C (img : list Z) i :
  (0x150 <= length img)%nat → (i < 0x14d)%nat → i ≠ 0x148%nat →
  fixedRom0 C img !! i = editedRom0 C img !! i.
Proof.
  intros Hmin Hi Hne.
  pose proof (fixedImage_lookup_header C img i Hmin Hi Hne) as H.
  rewrite fixedImage_eq in H. fold (fixedRom0 C img) in H.
  rewrite lookup_app_l in H; [done|].
  rewrite fixedRom0_length. pose proof (paddedRom0_header C img Hmin). lia.
Qed.

Lemma fixedRom0_edits C (img : list Z) :
  wfConfig C = true → (0x150 <= length img)%nat →
  applyHeaderEdits C (fixedRom0 C img) = fixedRom0 C img.
Proof.
  intros Hwf Hmin. apply list_eq. intros i.
  pose proof (paddedRom0_header C img Hmin) as Hlen.
  pose proof (take_bank_length img Hmin) as Htake.
  destruct (editsTouch C i) eqn:Htouch;
    [|by apply applyHeaderEdits_lookup_out].
  destruct (editsTouch_fields C i Hwf Htouch) as [Hi Hne].
  apply (applyHeaderEdits_fixed C (take (Z.to_nat BANK_SIZE) img)).
  - lia.
  - rewrite fixedRom0_length. lia.
  - by apply fixedRom0_lookup_header.
Qed.

Lemma fixedRom0_split C (img : list Z) :
  (0x150 <= length img)%nat →
  take (Z.to_nat BANK_SIZE) (fixedImage C img) = fixedRom0 C img
  ∧ drop (Z.to_nat BANK_SIZE) (fixedImage C img) = bodyOf C img.
Proof.
  intros Hmin. rewrite fixedImage_eq. fold (fixedRom0 C img).
  pose proof (fixedRom0_length C img) as Hlen.
  rewrite paddedRom0_length in Hlen.
  destruct (decide (length (fixedRom0 C img) = Z.to_nat BANK_SIZE))
    as [Hfull|Hshort].
  - rewrite <- Hfull. by rewrite take_app_length, drop_app_length.
  - assert (padRequested C = false) as Hpad
      by (destruct (padRequested C); [done|done]).
    rewrite Hpad in Hlen.
    assert (bodyOf C img = []) as ->.
    { unfold bodyOf, paddingBytes. rewrite Hpad, app_nil_r.
      apply drop_ge. lia. }
    rewrite app_nil_r. split; [apply take_ge; lia|apply drop_ge; lia].
Qed.

(** ** The size of a padded image is kept *)

Lemma targetBanks_pow2 k : 1 <= k <= 16 → targetBanks (2 ^ k) = 2 ^ k.
Proof.
  intros Hk. unfold targetBanks.
  assert (2 <= 2 ^ k) as H2.
  { change 2 with (2 ^ 1) at 1. apply Z.pow_le_mono_r; lia. }
  destruct (Z.eqb_spec (2 ^ k) 1); [lia|]. cbv zeta.
  assert (Z.land (2 ^ k) (2 ^ k - 1) = 0) as ->; [|done].
  rewrite Z.sub_1_r, <- Z.ones_equiv, Z.land_ones by lia.
  apply Z.mod_same. lia.
Qed.

Lemma banksOf_mul n : banksOf (n * BANK_SIZE) = n.
Proof. unfold banksOf, BANK_SIZE. Z.div_mod_to_equations. lia. Qed.

Section twice.
Context (C : Config) (img : list Z).
Hypothesis Hwf : wfConfig C = true.
Hypothesis Hmin : (0x150 <= length img)%nat.
Hypothesis Hmax : Z.of_nat (length img) <= 0x10000 * BANK_SIZE.

Lemma fixedImage_targetBanks :
  padRequested C = true →
  targetBanks (banksOf (Z.of_nat (length (fixedImage C img))))
  = targetBanks (banksOf (Z.of_nat (length img))).
Proof.
  intros Hpad. rewrite fixedImage_padded_length by done.
  pose proof (banksOf_range (Z.of_nat (length img)) ltac:(lia)) as Hbanks.
  destruct (targetBanks_spec _ Hbanks) as (k & Hk & HN & _).
  rewrite banksOf_mul, HN. by apply targetBanks_pow2.
Qed.

Lemma fixedRom0_rom_size :
  padRequested C = true →
  fixedRom0 C img !! 0x148%nat
  = Some (ctz (targetBanks (banksOf (Z.of_nat (length img))) / 2) mod 256).
Proof.
  intros Hpad. unfold fixedRom0.
  rewrite storeGlobalSum_lookup_out by (by rewrite andb_false_r).
  rewrite fixHeaderSum_lookup_out by (by rewrite andb_false_r).
  unfold paddedRom0. rewrite Hpad. apply list_lookup_insert_eq.
  rewrite length_app, editedRom0_length. unfold BANK_SIZE in *. lia.
Qed.

Lemma paddedRom0_twice :
  paddedRom0 C (fixedImage C img) = fixedRom0 C img.
Proof.
  destruct (fixedRom0_split C img Hmin) as [Htake _].
  unfold paddedRom0, editedRom0. rewrite Htake, fixedRom0_edits by done.
  destruct (padRequested C) eqn:Hpad; [|done].
  rewrite fixedImage_targetBanks by done.
  assert (length (fixedRom0 C img) = Z.to_nat BANK_SIZE) as Hlen
    by (by rewrite fixedRom0_length, paddedRom0_length, Hpad).
  rewrite Hlen, Nat.sub_diag. simpl. rewrite app_nil_r.
  apply list_insert_id. by apply fixedRom0_rom_size.
Qed.

Lemma bodyOf_twice : bodyOf C (fixedImage C img) = bodyOf C img.
Proof.
  destruct (fixedRom0_split C img Hmin) as [_ Hdrop].
  unfold bodyOf at 1. rewrite Hdrop. unfold paddingBytes.
  destruct (padRequested C) eqn:Hpad; [|apply app_nil_r].
  rewrite fixedImage_targetBanks by done.
  pose proof (fixedImage_padded_length C img Hpad Hmin Hmax) as Hlen.
  rewrite <- Hdrop, length_drop.
  pose proof (banksOf_range (Z.of_nat (length img)) ltac:(lia)) as Hbanks.
  destruct (targetBanks_spec _ Hbanks) as (k & Hk & HN & _).
  assert (2 <= targetBanks (banksOf (Z.of_nat (length img))) <= 0x10000)
    as HT.
  { rewrite HN. split.
    - change 2 with (2 ^ 1) at 1. apply Z.pow_le_mono_r; lia.
    - change 0x10000 with (2 ^ 16). apply Z.pow_le_mono_r; lia. }
  rewrite paddingLen_exact by (unfold BANK_SIZE in *; lia).
  replace (Z.to_nat ((_ - 1) * BANK_SIZE - _)) with 0%nat
    by (unfold BANK_SIZE in *; lia).
  simpl. by rewrite app_nil_r, Hdrop.
Qed.

Lemma fixHeaderSum_twice :
  fixHeaderSum C (fixedRom0 C img) = fixedRom0 C img.
Proof.
  unfold fixHeaderSum at 1.
  destruct (hasBit (fixSpec C) (Z.lor FIX_HEADER_SUM TRASH_HEADER_SUM))
    eqn:Hbit; [|done].
  cbv zeta. apply list_insert_id.
  pose proof (paddedRom0_header C img Hmin) as Hlen.
  assert (headerSum (fixedRom0 C img) = headerSum (paddedRom0 C img)) as ->.
  { apply headerSum_ext. intros i Hi. unfold byteAt, fixedRom0.
    rewrite storeGlobalSum_lookup_out
      by (apply andb_false_intro2, orb_false_iff;
          split; apply Nat.eqb_neq; lia).
    by rewrite fixHeaderSum_lookup_out
      by (apply andb_false_intro2, Nat.eqb_neq; lia). }
  unfold fixedRom0.
  rewrite storeGlobalSum_lookup_out by (by rewrite andb_false_r).
  unfold fixHeaderSum. rewrite Hbit. cbv zeta.
  apply list_lookup_insert_eq. lia.
Qed.

Lemma zero_sum_twice (X : list Z) a b :
  <[0x14f%nat := 0]> (<[0x14e%nat := 0]>
     (<[0x14f%nat := a]> (<[0x14e%nat := b]>
        (<[0x14f%nat := 0]> (<[0x14e%nat := 0]> X)))))
  = <[0x14f%nat := 0]> (<[0x14e%nat := 0]> X).
Proof.
  rewrite (list_insert_insert_ne _ 0x14e 0x14f) by lia.
  rewrite !list_insert_insert_eq.
  rewrite (list_insert_insert_ne _ 0x14e 0x14f) by lia.
  by rewrite !list_insert_insert_eq.
Qed.

Lemma zero_storeSum (F : list Z) sum :
  <[0x14f%nat := 0]> (<[0x14e%nat := 0]>
     (storeSum C (<[0x14f%nat := 0]> (<[0x14e%nat := 0]> F)) sum))
  = <[0x14f%nat := 0]> (<[0x14e%nat := 0]> F).
Proof. unfold storeSum. cbv zeta. apply zero_sum_twice. Qed.

Lemma storeGlobalSum_twice :
  storeGlobalSum C (fixedRom0 C img) (bodyOf C img) = fixedRom0 C img.
Proof.
  unfold fixedRom0.
  generalize (fixHeaderSum C (paddedRom0 C img)) (bodyOf C img).
  intros F B. unfold storeGlobalSum.
  destruct (hasBit (fixSpec C) (Z.lor FIX_GLOBAL_SUM TRASH_GLOBAL_SUM));
    [|done].
  cbv zeta. by rewrite !zero_storeSum.
Qed.

(** Fixing the fixed image again, with the same options, changes
    nothing. *)
Lemma fixedImage_twice :
  fixedImage C (fixedImage C img) = fixedImage C img.
Proof.
  rewrite (fixedImage_eq C (fixedImage C img)).
  rewrite paddedRom0_twice, bodyOf_twice, fixHeaderSum_twice,
    storeGlobalSum_twice.
  by rewrite fixedImage_eq.
Qed.
End twice.

Lemma unread_start (l : list Z) : unread (mkFile l 0) = l.
Proof. unfold unread. simpl. apply drop_0. Qed.

(** X28: the image that [processFile] writes is one that [processFile] leaves
    as it is: run on its own output with the same options, it writes the
    same bytes again, and reports nothing. *)
Theorem processFile_twice C inp e rep :
  wfConfig C = true → (0x150 <= length (unread inp))%nat →
  Z.of_nat (length (unread inp)) <= 0x10000 * BANK_SIZE →
  ∃ h1 h2,
    processFile C 0 (mkState (Pipe inp (mkFile [] 0)) e rep)
    = Done (mkState h1 e rep)
    ∧ processFile C 0
        (mkState (Pipe (mkFile (written h1) 0) (mkFile [] 0)) e rep)
      = Done (mkState h2 e rep)
    ∧ written h2 = written h1.
Proof.
  intros Hwf Hmin Hmax.
  destruct (processFile_pipe C inp (mkFile [] 0) e rep Hwf eq_refl Hmin Hmax)
    as (inp1 & p1 & Hrun1).
  pose proof (fixedImage_length_ge C (unread inp)) as Hge.
  assert (Z.of_nat (length (fixedImage C (unread inp)))
          <= 0x10000 * BANK_SIZE) as Hmax2.
  { destruct (padRequested C) eqn:Hpad.
    - rewrite fixedImage_padded_length by done.
      pose proof (banksOf_range (Z.of_nat (length (unread inp)))
                    ltac:(lia)) as Hbanks.
      destruct (targetBanks_spec _ Hbanks) as (k & Hk & HN & _).
      rewrite HN. apply Z.mul_le_mono_nonneg_r; [by vm_compute|].
      change 0x10000 with (2 ^ 16). apply Z.pow_le_mono_r; lia.
    - rewrite fixedImage_eq, length_app, storeGlobalSum_length,
        fixHeaderSum_length, paddedRom0_length.
      unfold bodyOf, paddingBytes. rewrite Hpad, app_nil_r, length_drop.
      lia. }
  destruct (processFile_pipe C (mkFile (fixedImage C (unread inp)) 0)
              (mkFile [] 0) e rep Hwf eq_refl)
    as (inp2 & p2 & Hrun2).
  { rewrite unread_start. lia. }
  { by rewrite unread_start. }
  rewrite unread_start in Hrun2. cbn [data] in Hrun1, Hrun2.
  rewrite app_nil_l in Hrun2.
  rewrite app_nil_l in Hrun1.
  rewrite (fixedImage_twice C (unread inp) Hwf Hmin Hmax) in Hrun2.
  eexists _, _. split; [exact Hrun1|]. unfold written. cbn [outputFile data].
  split; [exact Hrun2|done].
Qed.

Lemma processFile_twice_witness :
  wfConfig padConfig = true ∧ (0x150 <= length (unread smallImage))%nat
  ∧ Z.of_nat (length (unread smallImage)) <= 0x10000 * BANK_SIZE
  ∧ (∃ h1 h2,
       processFile padConfig 0
                   (mkState (Pipe smallImage (mkFile [] 0)) 0 [])
       = Done (mkState h1 0 [])
       ∧ processFile padConfig 0
           (mkState (Pipe (mkFile (written h1) 0) (mkFile [] 0)) 0 [])
         = Done (mkState h2 0 [])
       ∧ written h2 = written h1).
Proof.
  split; [reflexivity|]. split; [vm_compute; lia|].
  split; [vm_compute; discriminate|].
  apply (processFile_twice padConfig smallImage 0 []);
    [reflexivity|vm_compute; lia|vm_compute; discriminate].
Defined.
